(** * ImgComp: the image-processing core of the comparison tool

    A shallow embedding of [util/utils.go] (package [util]) and of the
    parts of the Go standard library it calls ([image], [image/color],
    [image/draw], [math], [os/exec], [path/filepath]), followed by the
    properties of the pixel-difference engine, the cropper, the geometry
    helper and the image loader.

    Conventions.
    - Go's [int] is the 64-bit signed integer of the amd64 and arm64 ports;
      [uint8], [uint32] and [uint64] wrap modulo their width.  All of them
      are carried by [Z], the wrap-around being written where Go performs
      arithmetic on them.
    - [float64] and [float32] are IEEE 754 binary64 and binary32, carried by
      [spec_float] with the operations of [SpecFloat] at precisions
      (53, 1024) and (24, 128): every rounding of the Go code is a rounding
      of the model.
    - A panic is [None].
    - The resampling routines of the two third-party libraries
      ([imaging.Resize], [resize.Resize]) are parameters of the model. *)

From Stdlib Require Import ZArith Lia Bool List Ascii String SpecFloat.
From stdpp Require Import base list gmap strings.
Import ListNotations.

Local Open Scope Z_scope.

(** ** Machine integers *)

Definition uint8 (z : Z) : Z := z mod 2 ^ 8.
Definition uint32 (z : Z) : Z := z mod 2 ^ 32.
Definition uint64 (z : Z) : Z := z mod 2 ^ 64.

(** Go's [int]: two's complement on 64 bits. *)
Definition int (z : Z) : Z := (z + 2 ^ 63) mod 2 ^ 64 - 2 ^ 63.

Definition in_int (z : Z) : Prop := - 2 ^ 63 <= z < 2 ^ 63.

(** [for i := lo; i < hi; i++ { s = body i s }] *)
Definition for_range {S : Type} (lo hi : Z) (body : Z -> S -> S) (s : S) : S :=
  foldl (fun s i => body i s) s (seqZ lo (hi - lo)).

(** ** Floating point *)

Module F64.
Definition prec : Z := 53.
Definition emax : Z := 1024.
Definition of_Z (n : Z) : spec_float := binary_normalize prec emax n 0 false.
Definition mul : spec_float -> spec_float -> spec_float := SFmul prec emax.
Definition div : spec_float -> spec_float -> spec_float := SFdiv prec emax.
End F64.

Module F32.
Definition prec : Z := 24.
Definition emax : Z := 128.
Definition of_Z (n : Z) : spec_float := binary_normalize prec emax n 0 false.
Definition div : spec_float -> spec_float -> spec_float := SFdiv prec emax.
End F32.

(** The integer part of a float, rounding toward zero. *)
Definition SFtrunc (f : spec_float) : Z :=
  match f with
  | S754_finite s m e =>
      let a := if 0 <=? e then Z.pos m * 2 ^ e else Z.pos m / 2 ^ (- e) in
      if s then - a else a
  | _ => 0
  end.

(** Conversion of a float to [int].  Go truncates toward zero; for a NaN, an
    infinity or a value outside of the range the result is
    implementation-specific, and is the "integer indefinite" value of
    [CVTTSD2SQ] on amd64. *)
Definition float_to_int (f : spec_float) : Z :=
  match f with
  | S754_nan | S754_infinity _ => - 2 ^ 63
  | _ => if (- 2 ^ 63 <=? SFtrunc f) && (SFtrunc f <? 2 ^ 63) then SFtrunc f else - 2 ^ 63
  end.

(** [uint8(f)] and [uint(f)] for a float [f]. *)
Definition float_to_uint8 (f : spec_float) : Z := uint8 (float_to_int f).
Definition float_to_uint (f : spec_float) : Z := uint64 (float_to_int f).

(** [math.Min] *)
Definition math_Min (x y : spec_float) : spec_float :=
  match x, y with
  | S754_infinity true, _ | _, S754_infinity true => S754_infinity true
  | S754_nan, _ | _, S754_nan => S754_nan
  | S754_zero sx, S754_zero _ => if sx then x else y
  | _, _ => if SFltb x y then x else y
  end.

(** The built-in [max] on two floats: a NaN argument gives NaN, and
    [max(-0, +0)] is [+0]. *)
Definition builtin_max (x y : spec_float) : spec_float :=
  match x, y with
  | S754_nan, _ | _, S754_nan => S754_nan
  | S754_zero sx, S754_zero sy => S754_zero (sx && sy)
  | _, _ => if SFltb x y then y else x
  end.

(** ** Package [image]: points and rectangles *)

Record Point := mkPoint { X : Z; Y : Z }.
Record Rectangle := mkRectangle { Min : Point; Max : Point }.

Definition Point_eqb (p q : Point) : bool := (X p =? X q) && (Y p =? Y q).
Definition Rectangle_eqb (r s : Rectangle) : bool :=
  Point_eqb (Min r) (Min s) && Point_eqb (Max r) (Max s).

Definition Point_Add (p q : Point) : Point := mkPoint (int (X p + X q)) (int (Y p + Y q)).
Definition Point_Sub (p q : Point) : Point := mkPoint (int (X p - X q)) (int (Y p - Y q)).
Definition Point_In (p : Point) (r : Rectangle) : bool :=
  (X (Min r) <=? X p) && (X p <? X (Max r)) && (Y (Min r) <=? Y p) && (Y p <? Y (Max r)).

Definition Dx (r : Rectangle) : Z := int (X (Max r) - X (Min r)).
Definition Dy (r : Rectangle) : Z := int (Y (Max r) - Y (Min r)).

Definition Empty (r : Rectangle) : bool :=
  (X (Max r) <=? X (Min r)) || (Y (Max r) <=? Y (Min r)).

(** [Rectangle.Eq]: equal, or both empty. *)
Definition Rectangle_Eq (r s : Rectangle) : bool :=
  Rectangle_eqb r s || (Empty r && Empty s).

Definition ZR : Rectangle := mkRectangle (mkPoint 0 0) (mkPoint 0 0).

(** [image.Rect]: the corners are put in order. *)
Definition Rect (x0 y0 x1 y1 : Z) : Rectangle :=
  let '(x0, x1) := if x1 <? x0 then (x1, x0) else (x0, x1) in
  let '(y0, y1) := if y1 <? y0 then (y1, y0) else (y0, y1) in
  mkRectangle (mkPoint x0 y0) (mkPoint x1 y1).

Definition Rectangle_Add (r : Rectangle) (p : Point) : Rectangle :=
  mkRectangle (Point_Add (Min r) p) (Point_Add (Max r) p).

Definition Intersect (r s : Rectangle) : Rectangle :=
  let r := mkRectangle
             (mkPoint (Z.max (X (Min r)) (X (Min s))) (Z.max (Y (Min r)) (Y (Min s))))
             (mkPoint (Z.min (X (Max r)) (X (Max s))) (Z.min (Y (Max r)) (Y (Max s)))) in
  if Empty r then ZR else r.

(** ** Package [image/color] *)

(** A [color.Color] is observed through its method [RGBA()], which returns
    four [uint32]; the interface asks each of them to lie in [0, 0xffff]. *)
Record Color := mkColor { RGBA_r : Z; RGBA_g : Z; RGBA_b : Z; RGBA_a : Z }.

(** [color.RGBA]: four bytes. *)
Record RGBA := mkRGBA { R : Z; G : Z; B : Z; A : Z }.

(** [color.RGBA.RGBA()]: each byte [c] widens to [c | c << 8]. *)
Definition RGBA_RGBA (c : RGBA) : Color :=
  let widen v := Z.lor (uint32 v) (uint32 (Z.shiftl (uint32 v) 8)) in
  mkColor (widen (R c)) (widen (G c)) (widen (B c)) (widen (A c)).

(** ** Package [image]: images *)

(** The interface [image.Image] (the colour model plays no role here). *)
Record Image := mkImage { Bounds : Rectangle; At : Z -> Z -> Color }.

(** The struct [image.RGBA]. *)
Record RGBAImage := mkRGBAImage { Pix : list Z; Stride : Z; RGBA_Rect : Rectangle }.

(** [mul3NonNeg 4 w h]: the product, or [-1] when an argument is negative or
    the product does not fit an [int]. *)
Definition mul3NonNeg (x y z : Z) : Z :=
  if (x <? 0) || (y <? 0) || (z <? 0) then -1
  else if 2 ^ 64 <=? x * y then -1
  else if 2 ^ 64 <=? x * y * z then -1
  else if 2 ^ 63 <=? x * y * z then -1
  else x * y * z.

(** [image.NewRGBA]; it panics on "huge or negative dimensions". *)
Definition NewRGBA (r : Rectangle) : option RGBAImage :=
  let totalLength := mul3NonNeg 4 (Dx r) (Dy r) in
  if totalLength <? 0 then None
  else Some (mkRGBAImage (replicate (Z.to_nat totalLength) 0) (int (4 * Dx r)) r).

Definition PixOffset (p : RGBAImage) (x y : Z) : Z :=
  int (int ((int (y - Y (Min (RGBA_Rect p)))) * Stride p) + int (int (x - X (Min (RGBA_Rect p))) * 4)).

(** The four stores [s[0] = R; s[1] = G; s[2] = B; s[3] = A] at offset [i]. *)
Definition store4 (pix : list Z) (i : Z) (c : RGBA) : list Z :=
  <[Z.to_nat (i + 3) := A c]>
    (<[Z.to_nat (i + 2) := B c]>
       (<[Z.to_nat (i + 1) := G c]>
          (<[Z.to_nat i := R c]> pix))).

Definition load4 (pix : list Z) (i : Z) : RGBA :=
  mkRGBA (pix !!! Z.to_nat i) (pix !!! Z.to_nat (i + 1))
         (pix !!! Z.to_nat (i + 2)) (pix !!! Z.to_nat (i + 3)).

(** The method [Set] of [image.RGBA], with a [color.RGBA] argument (the conversion through
    [color.RGBAModel] is then the identity).  Inside of the rectangle of an
    image made by [NewRGBA] the slice [Pix[i:i+4]] is within range. *)
Definition RGBA_Set (p : RGBAImage) (x y : Z) (c : RGBA) : RGBAImage :=
  if Point_In (mkPoint x y) (RGBA_Rect p)
  then mkRGBAImage (store4 (Pix p) (PixOffset p x y) c) (Stride p) (RGBA_Rect p)
  else p.

(** The method [RGBAAt] of [image.RGBA]. *)
Definition RGBAAt (p : RGBAImage) (x y : Z) : RGBA :=
  if Point_In (mkPoint x y) (RGBA_Rect p)
  then load4 (Pix p) (PixOffset p x y)
  else mkRGBA 0 0 0 0.

(** An [image.RGBA] seen as an [image.Image]. *)
Definition RGBA_Image (p : RGBAImage) : Image :=
  mkImage (RGBA_Rect p) (fun x y => RGBA_RGBA (RGBAAt p x y)).

(** ** Package [image/draw] *)

(** [clip]: the rectangle [r] is clipped against the bounds of the
    destination and of the source (no mask here), and the source point is
    shifted by the same amount as the corner of [r]. *)
Definition draw_clip (dst_bounds : Rectangle) (r : Rectangle)
    (src_bounds : Rectangle) (sp : Point) : Rectangle * Point :=
  let orig := Min r in
  let r := Intersect r dst_bounds in
  let r := Intersect r (Rectangle_Add src_bounds (Point_Sub orig sp)) in
  let dx := int (X (Min r) - X orig) in
  let dy := int (Y (Min r) - Y orig) in
  (r, mkPoint (int (X sp + dx)) (int (Y sp + dy))).

(** One pixel of the generic path of [draw.Draw] into an [image.RGBA] with
    the operator [draw.Src] and no mask ([ma = m = 0xffff]):
    [d[k] = uint8((s * ma / m) >> 8)] on [uint32]. *)
Definition draw_convert (c : Color) : RGBA :=
  let conv s := uint8 (Z.shiftr (uint32 (uint32 s * 65535) / 65535) 8) in
  mkRGBA (conv (RGBA_r c)) (conv (RGBA_g c)) (conv (RGBA_b c)) (conv (RGBA_a c)).

(** [draw.Draw(dst, r, src, sp, draw.Src)] for a destination of type
    [image.RGBA] distinct from the source. *)
Definition draw_Draw (dst : RGBAImage) (r : Rectangle) (src : Image) (sp : Point)
    : RGBAImage :=
  let '(r, sp) := draw_clip (RGBA_Rect dst) r (Bounds src) sp in
  if Empty r then dst
  else
    for_range (Y (Min r)) (Y (Max r)) (fun y dst =>
      for_range (X (Min r)) (X (Max r)) (fun x dst =>
        let sx := int (X sp + (x - X (Min r))) in
        let sy := int (Y sp + (y - Y (Min r))) in
        mkRGBAImage (store4 (Pix dst) (PixOffset dst x y) (draw_convert (At src sx sy)))
                    (Stride dst) (RGBA_Rect dst))
        dst)
      dst.

(** ** Package [util] *)

(** [ScalingAlgorithm] defines the type for image scaling algorithms. *)
Inductive ScalingAlgorithm := Bilinear | NearestNeighbor.

(** The resampling filters of [imaging] and the interpolation functions of
    [resize] that the package selects. *)
Inductive ResampleFilter := imaging_NearestNeighbor | imaging_Linear.
Inductive InterpolationFunction := resize_NearestNeighbor | resize_Bilinear.

Definition ImageMaxWidth : Z := 400.
Definition ImageMaxHeight : Z := 400.

(** [absDiff] calculates the absolute difference between two [uint32]. *)
Definition absDiff (a b : Z) : Z :=
  if b <? a then uint32 (a - b) else uint32 (b - a).

(** The per-channel delta [absDiff(c1, c2) >> 8]. *)
Definition delta (c1 c2 : Z) : Z := Z.shiftr (absDiff c1 c2) 8.

(** [uint8(math.Min(float64(d)*amplificationFactor, 255))] *)
Definition amplify (d : Z) : spec_float :=
  math_Min (F64.mul (F64.of_Z d) (F64.of_Z 5)) (F64.of_Z 255).

(** [getScaledBounds] calculates the scaled dimensions of an image to fit
    within the maximum allowed dimensions. *)
Definition GetScaledBounds (srcImage : Image) : spec_float * spec_float :=
  let bounds := Bounds srcImage in
  let sizeX := F32.of_Z (Dx bounds) in
  let sizeY := F32.of_Z (Dy bounds) in
  if (ImageMaxWidth <? Dx bounds) || (ImageMaxHeight <? Dy bounds) then
    let scaleX := F32.div (F32.of_Z (Dx bounds)) (F32.of_Z ImageMaxWidth) in
    let scaleY := F32.div (F32.of_Z (Dy bounds)) (F32.of_Z ImageMaxHeight) in
    if SFltb scaleY scaleX
    then (F32.of_Z ImageMaxWidth, F32.div (F32.of_Z (Dy bounds)) scaleX)
    else (F32.div (F32.of_Z (Dx bounds)) scaleY, F32.of_Z ImageMaxHeight)
  else (sizeX, sizeY).

Section Util.

(** [imaging.Resize(img, width, height, filter)] and
    [resize.Resize(width, height, img, interp)]. *)
Variable imaging_Resize : Image -> Z -> Z -> ResampleFilter -> Image.
Variable resize_Resize : Z -> Z -> Image -> InterpolationFunction -> Image.

(** [rescaleImageFast] rescales the image to fit within [ImageMaxWidth]
    and [ImageMaxHeight]. *)
Definition RescaleImageFast (src : Image) (algo : ScalingAlgorithm) : Image :=
  let '(w, h) := GetScaledBounds src in
  let interp := match algo with
                | NearestNeighbor => resize_NearestNeighbor
                | _ => resize_Bilinear
                end in
  resize_Resize (float_to_uint w) (float_to_uint h) src interp.

(** The ratio after [ratio = max(0, ratio); if ratio > 1 { ratio = 1 }]. *)
Definition clamp_ratio (ratio : spec_float) : spec_float :=
  let ratio := builtin_max (F64.of_Z 0) ratio in
  if SFltb (F64.of_Z 1) ratio then F64.of_Z 1 else ratio.

(** [endX := int(float64(w) * ratio)] *)
Definition crop_endX (w : Z) (ratio : spec_float) : Z :=
  float_to_int (F64.mul (F64.of_Z w) (clamp_ratio ratio)).

(** The image [croppedImage] of [CropImageFast] once [draw.Draw] has
    returned, before it is rescaled. *)
Definition croppedImage (src : Image) (ratio : spec_float) : option RGBAImage :=
  let bounds := Bounds src in
  let w := Dx bounds in
  let h := Dy bounds in
  let endX := crop_endX w ratio in
  let destRect := Rect 0 0 endX h in
  match NewRGBA (Rect 0 0 w h) with
  | None => None
  | Some canvas => Some (draw_Draw canvas destRect src (mkPoint 0 0))
  end.

(** [cropImageFast] crops the image horizontally based on the ratio. *)
Definition CropImageFast (src : Image) (ratio : spec_float) (algo : ScalingAlgorithm)
    : option Image :=
  match croppedImage src ratio with
  | None => None
  | Some c => Some (RescaleImageFast (RGBA_Image c) algo)
  end.

(** The second image brought to the bounds of the first one. *)
Definition reconcile (img1 img2 : Image) (algo : ScalingAlgorithm) : Image :=
  let bounds := Bounds img1 in
  if negb (Rectangle_Eq (Bounds img2) bounds) then
    let filter := match algo with
                  | NearestNeighbor => imaging_NearestNeighbor
                  | _ => imaging_Linear
                  end in
    imaging_Resize img2 (Dx bounds) (Dy bounds) filter
  else img2.

(** The body of the two loops of [ComputeImageDiffFast] at the pixel
    [(x, y)], on the state [(diff, totalDiff, pixelCount)]. *)
Definition diff_pixel (img1 img22 : Image) (differenceAsMonochrome : bool)
    (x y : Z) (st : RGBAImage * Z * Z) : RGBAImage * Z * Z :=
  let '(diff, totalDiff, pixelCount) := st in
  let c1 := At img1 x y in
  let c2 := At img22 x y in
  let dr := delta (RGBA_r c1) (RGBA_r c2) in
  let dg := delta (RGBA_g c1) (RGBA_g c2) in
  let db := delta (RGBA_b c1) (RGBA_b c2) in
  let ampR := amplify dr in
  let ampG := amplify dg in
  let ampB := amplify db in
  let '(ampR, ampG, ampB) :=
    if differenceAsMonochrome then
      if (dr =? 0) && (dg =? 0) && (db =? 0)
      then (F64.of_Z 0, F64.of_Z 0, F64.of_Z 0)
      else (F64.of_Z 240, F64.of_Z 0, F64.of_Z 0)
    else (ampR, ampG, ampB) in
  (RGBA_Set diff x y
     (mkRGBA (float_to_uint8 ampR) (float_to_uint8 ampG) (float_to_uint8 ampB) 255),
   uint64 (totalDiff + uint64 (uint64 dr + uint64 dg + uint64 db)),
   uint64 (pixelCount + 1)).

(** [computeImageDiff] computes the pixel-wise difference between two
    images.  It returns a new image showing the differences, the mean
    absolute error (MAE) and the number of pixels. *)
Definition ComputeImageDiffFast (img1 img2 : Image) (algo : ScalingAlgorithm)
    (differenceAsMonochrome : bool) : option (RGBAImage * spec_float * Z) :=
  let bounds := Bounds img1 in
  let img22 := reconcile img1 img2 algo in
  match NewRGBA bounds with
  | None => None
  | Some diff0 =>
      let '(diff, totalDiff, pixelCount) :=
        for_range (Y (Min bounds)) (Y (Max bounds)) (fun y st =>
          for_range (X (Min bounds)) (X (Max bounds)) (fun x st =>
            diff_pixel img1 img22 differenceAsMonochrome x y st) st)
          (diff0, 0, 0) in
      let mae := F64.div (F64.of_Z totalDiff) (F64.of_Z (uint64 (pixelCount * 3))) in
      Some (diff, mae, pixelCount)
  end.

End Util.

(** ** Loading: [path/filepath], [os], [os/exec] *)

Local Open Scope string_scope.

(** [filepath.Ext]: the suffix beginning at the final dot in the final
    element of the path; the loop runs from [len(path) - 1] down to [0] and
    stops at a separator.  [n] is [i + 1]. *)
Fixpoint Ext_from (path : string) (n : nat) : string :=
  match n with
  | O => EmptyString
  | S i =>
      match String.get i path with
      | Some c =>
          if Ascii.eqb c "/"%char then EmptyString
          else if Ascii.eqb c "."%char
               then String.substring i (String.length path - i) path
               else Ext_from path i
      | None => EmptyString
      end
  end.

Definition filepath_Ext (path : string) : string :=
  Ext_from path (String.length path).

(** The Go errors that can come out of [LoadImage]. *)
Inductive error :=
  | ErrNotFound (name : string)    (* exec.Error wrapping exec.ErrNotFound *)
  | ExitError (status : Z)         (* exec.ExitError *)
  | ErrNotExist (path : string)    (* fs.PathError wrapping fs.ErrNotExist *)
  | ErrFormat.                     (* the decoder's error *)

(** What the loader does to the outside: the processes it starts. *)
Inductive event := Spawn (path : string) (argv : list string).

(** The file system (path to content) and the processes started so far. *)
Record World := mkWorld { files : gmap string (list Z); trace : list event }.

(** Computations on the world. *)
Definition M (T : Type) : Type := World -> T * World.
Definition ret {T} (x : T) : M T := fun w => (x, w).
Definition bind {T U} (c : M T) (k : T -> M U) : M U :=
  fun w => let '(x, w') := c w in k x w'.

Notation "'let*' x ':=' c 'in' k" := (bind c (fun x => k))
  (at level 10, x name, c at level 100, k at level 200).

(** [exec.Cmd]: the resolved path, the arguments and the error of the
    lookup, which [Run] reports before it starts anything. *)
Record Cmd := mkCmd { Cmd_Path : string; Cmd_Args : list string; Cmd_Err : option error }.

Section Load.

(** The environment: [exec.LookPath] on the [PATH] of the process, what a
    program does to the files and the status it exits with, and the image
    decoder. *)
Variable LookPath : string -> option string.
Variable run_program :
  string -> list string -> gmap string (list Z) -> gmap string (list Z) * Z.
Variable image_Decode : list Z -> option Image.

(** [exec.Command]: a name without separator is resolved with
    [LookPath]; a failure is kept in the field [Err]. *)
Definition exec_Command (name : string) (arg : list string) : Cmd :=
  match LookPath name with
  | Some p => mkCmd p (name :: arg) None
  | None => mkCmd name (name :: arg) (Some (ErrNotFound name))
  end.

(** [Cmd.Run]: nothing is started when the lookup failed; otherwise the
    program runs to its end and a status other than zero is an error. *)
Definition Cmd_Run (c : Cmd) : M (option error) :=
  match Cmd_Err c with
  | Some e => ret (Some e)
  | None =>
      fun w =>
        let '(fs, status) := run_program (Cmd_Path c) (Cmd_Args c) (files w) in
        (if Z.eqb status 0 then None else Some (ExitError status),
         mkWorld fs (trace w ++ [Spawn (Cmd_Path c) (Cmd_Args c)]))
  end.

(** [imaging.Open]: read the file and decode it. *)
Definition imaging_Open (path : string) : M (Image + error) :=
  fun w =>
    match files w !! path with
    | None => (inr (ErrNotExist path), w)
    | Some data =>
        match image_Decode data with
        | Some img => (inl img, w)
        | None => (inr ErrFormat, w)
        end
    end.

(** [os.Remove] *)
Definition os_Remove (path : string) : M (option error) :=
  fun w =>
    match files w !! path with
    | None => (Some (ErrNotExist path), w)
    | Some _ => (None, mkWorld (delete path (files w)) (trace w))
    end.

(** [loadImage] attempts to load an image from the given path.  It
    includes special handling for .jxl files, converting them to PNG using
    the djxl utility.  The deferred [os.Remove] runs once [imaging.Open]
    has returned. *)
Definition LoadImage (path : string) : M (Image + error) :=
  let ext := filepath_Ext path in
  if String.eqb ext ".jxl" then
    let tmpFile := path ++ ".converted.png" in
    let cmd := exec_Command "djxl" [path; tmpFile] in
    let* err := Cmd_Run cmd in
    match err with
    | Some e => ret (inr e)
    | None =>
        let* r := imaging_Open tmpFile in
        let* _ := os_Remove tmpFile in
        ret r
    end
  else imaging_Open path.

End Load.

Local Close Scope string_scope.

(** * Rounding: definitions for the proofs

    [located N D m l] places the fraction [N / D] in the unit interval that
    starts at the integer [m], at the position [l]: on [m], below, at or
    above the midpoint. *)
Definition located (N D m : Z) (l : location) : Prop :=
  match l with
  | loc_Exact => N = m * D
  | loc_Inexact Lt => m * D < N /\ 2 * N < (2 * m + 1) * D
  | loc_Inexact Eq => 2 * N = (2 * m + 1) * D
  | loc_Inexact Gt => (2 * m + 1) * D < 2 * N /\ N < (m + 1) * D
  end.

(** Order on scaled fractions: [qle N1 D1 e1 N2 D2 e2] reads
    [N1 / D1 * 2 ^ e1 <= N2 / D2 * 2 ^ e2] for positive denominators. *)
Definition qle (N1 D1 e1 N2 D2 e2 : Z) : Prop :=
  N1 * D2 * 2 ^ (e1 - Z.min e1 e2) <= N2 * D1 * 2 ^ (e2 - Z.min e1 e2).

(** A positive finite float in canonical form and within the exponent range. *)
Definition pos_canon (prec emax : Z) (x : spec_float) : Prop :=
  match x with
  | S754_finite false m e => bounded prec emax m e = true
  | _ => False
  end.

Definition nonneg_canon (prec emax : Z) (x : spec_float) : Prop :=
  x = S754_zero false \/ pos_canon prec emax x.

(** The canonical float of value [n], for a positive [n] below [2 ^ prec]. *)
Definition exact_float (prec : Z) (n : Z) : spec_float :=
  S754_finite false (Z.to_pos (n * 2 ^ (prec - Zdigits2 n))) (Zdigits2 n - prec).


(** * Well-formed images *)

(** A rectangle of [int] coordinates with [Min <= Max] on both axes, which
    the package [image] calls well-formed. *)
Definition rect_ok (r : Rectangle) : Prop :=
  in_int (X (Min r)) /\ in_int (Y (Min r)) /\
  in_int (X (Max r)) /\ in_int (Y (Max r)) /\
  X (Min r) <= X (Max r) /\ Y (Min r) <= Y (Max r).

Definition width (r : Rectangle) : Z := X (Max r) - X (Min r).
Definition height (r : Rectangle) : Z := Y (Max r) - Y (Min r).

(** The contract of [Color.RGBA]: 16-bit channels. *)
Definition color_ok (c : Color) : Prop :=
  0 <= RGBA_r c <= 65535 /\ 0 <= RGBA_g c <= 65535 /\
  0 <= RGBA_b c <= 65535 /\ 0 <= RGBA_a c <= 65535.

Definition colors_ok (img : Image) : Prop := forall x y, color_ok (At img x y).

(** The invariant of an [image.RGBA] made by [NewRGBA]. *)
Definition wf_rgba (p : RGBAImage) : Prop :=
  rect_ok (RGBA_Rect p) /\
  Stride p = int (4 * width (RGBA_Rect p)) /\
  0 <= width (RGBA_Rect p) /\ 0 <= height (RGBA_Rect p) /\
  Z.of_nat (length (Pix p)) = 4 * width (RGBA_Rect p) * height (RGBA_Rect p) /\
  4 * width (RGBA_Rect p) * height (RGBA_Rect p) < 2 ^ 63.

(** The transparent black pixel of a fresh [image.RGBA]. *)
Definition transparent : RGBA := mkRGBA 0 0 0 0.

(** A store without the bounds check of [Set], as [draw.Draw] writes. *)
Definition poke (p : RGBAImage) (x y : Z) (c : RGBA) : RGBAImage :=
  mkRGBAImage (store4 (Pix p) (PixOffset p x y) c) (Stride p) (RGBA_Rect p).

(** The pixels of a rectangle, row by row, in the order of the loops
    [for y := Min.Y; y < Max.Y; y++ { for x := Min.X; x < Max.X; x++ ] *)
Definition pixels (r : Rectangle) : list (Z * Z) :=
  concat (map (fun y => map (fun x => (x, y)) (seqZ (X (Min r)) (X (Max r) - X (Min r))))
              (seqZ (Y (Min r)) (Y (Max r) - Y (Min r)))).

Definition Zsum (l : list Z) : Z := fold_right Z.add 0 l.

(** The three channel deltas of a pixel, and their sum. *)
Definition delta_r (img1 img22 : Image) (x y : Z) : Z :=
  delta (RGBA_r (At img1 x y)) (RGBA_r (At img22 x y)).
Definition delta_g (img1 img22 : Image) (x y : Z) : Z :=
  delta (RGBA_g (At img1 x y)) (RGBA_g (At img22 x y)).
Definition delta_b (img1 img22 : Image) (x y : Z) : Z :=
  delta (RGBA_b (At img1 x y)) (RGBA_b (At img22 x y)).

Definition pixel_delta (img1 img22 : Image) (x y : Z) : Z :=
  delta_r img1 img22 x y + delta_g img1 img22 x y + delta_b img1 img22 x y.

(** The sum, over all pixels of the bounds, of the three unamplified,
    truncated channel deltas. *)
Definition total_delta (img1 img22 : Image) (r : Rectangle) : Z :=
  Zsum (map (fun q => pixel_delta img1 img22 (fst q) (snd q)) (pixels r)).

(** The colour that the loop body stores at a pixel. *)
Definition diff_color (img1 img22 : Image) (differenceAsMonochrome : bool) (x y : Z) : RGBA :=
  let dr := delta_r img1 img22 x y in
  let dg := delta_g img1 img22 x y in
  let db := delta_b img1 img22 x y in
  if differenceAsMonochrome then
    if (dr =? 0) && (dg =? 0) && (db =? 0)
    then mkRGBA (float_to_uint8 (F64.of_Z 0)) (float_to_uint8 (F64.of_Z 0))
                (float_to_uint8 (F64.of_Z 0)) 255
    else mkRGBA (float_to_uint8 (F64.of_Z 240)) (float_to_uint8 (F64.of_Z 0))
                (float_to_uint8 (F64.of_Z 0)) 255
  else mkRGBA (float_to_uint8 (amplify dr)) (float_to_uint8 (amplify dg))
              (float_to_uint8 (amplify db)) 255.

(** The state after the two loops. *)
Definition diff_loops (img1 img22 : Image) (mono : bool) (diff0 : RGBAImage)
    : RGBAImage * Z * Z :=
  foldl (fun st q => diff_pixel img1 img22 mono (fst q) (snd q) st) (diff0, 0, 0)
        (pixels (Bounds img1)).

(** The three values a call returns. *)
Definition diff_image (r : RGBAImage * spec_float * Z) : RGBAImage := fst (fst r).
Definition mae_of (r : RGBAImage * spec_float * Z) : spec_float := snd (fst r).
Definition count_of (r : RGBAImage * spec_float * Z) : Z := snd r.

(** The contract of a resampler: colours of the result are colours. *)
Definition resize_ok (rz : Image -> Z -> Z -> ResampleFilter -> Image) : Prop :=
  forall img w h f, colors_ok img -> colors_ok (rz img w h f).

(** The amplified delta of the specification, on two 16-bit channels: the
    absolute difference, its low 8 bits dropped, times 5, at most 255. *)
Definition spec_delta (c1 c2 : Z) : Z := Z.abs (c1 - c2) / 2 ^ 8.
Definition spec_amplified (c1 c2 : Z) : Z := Z.min (5 * spec_delta c1 c2) 255.

(** The total difference of the specification: the sum, over the pixels of
    a rectangle, of the deltas [|c1 - c2| / 2 ^ 8] of the red, green and
    blue channels of the two images; the alpha channel is left out. *)
Definition spec_pixel_delta (img1 img22 : Image) (x y : Z) : Z :=
  spec_delta (RGBA_r (At img1 x y)) (RGBA_r (At img22 x y))
  + spec_delta (RGBA_g (At img1 x y)) (RGBA_g (At img22 x y))
  + spec_delta (RGBA_b (At img1 x y)) (RGBA_b (At img22 x y)).

Definition spec_total_delta (img1 img22 : Image) (r : Rectangle) : Z :=
  Zsum (map (fun q => spec_pixel_delta img1 img22 (fst q) (snd q)) (pixels r)).

(** ** Concrete inputs *)

(** A nearest-neighbour resampler, to instantiate the parameter
    [imaging_Resize]: the pixel under the centre of each target pixel. *)
Definition nearest_resize (img : Image) (w h : Z) (f : ResampleFilter) : Image :=
  mkImage (Rect 0 0 w h)
    (fun x y =>
       if Point_In (mkPoint x y) (Rect 0 0 w h)
       then At img (X (Min (Bounds img)) + (2 * x + 1) * Dx (Bounds img) / (2 * w))
                   (Y (Min (Bounds img)) + (2 * y + 1) * Dy (Bounds img) / (2 * h))
       else mkColor 0 0 0 0).

Definition nearest_Resize (w h : Z) (img : Image) (f : InterpolationFunction) : Image :=
  nearest_resize img w h imaging_NearestNeighbor.

Definition white : Color := mkColor 65535 65535 65535 65535.
Definition black : Color := mkColor 0 0 0 65535.

(** One white pixel; a white pixel followed by a black one; two by two
    pixels in two tones. *)
Definition img_white_1x1 : Image := mkImage (Rect 0 0 1 1) (fun _ _ => white).
Definition img_white_black : Image :=
  mkImage (Rect 0 0 2 1) (fun x _ => if x =? 0 then white else black).
Definition img_black_1x1 : Image := mkImage (Rect 0 0 1 1) (fun _ _ => black).
Definition img_grey_2x2 : Image :=
  mkImage (Rect 0 0 2 2) (fun x y => if x =? y then mkColor 4660 4660 4660 65535 else black).

(** An image without pixels. *)
Definition img_empty : Image := mkImage ZR (fun _ _ => mkColor 0 0 0 0).

(** ** Concrete environments for the loader *)

Local Open Scope string_scope.

(** No program is on the [PATH]. *)
Definition LookPath_none (name : string) : option string := None.

(** [djxl] is installed. *)
Definition LookPath_djxl (name : string) : option string :=
  if String.eqb name "djxl" then Some "/usr/bin/djxl" else None.

(** A converter that writes the first bytes of its output file and then
    fails with status 1. *)
Definition djxl_partial (path : string) (argv : list string)
    (fs : gmap string (list Z)) : gmap string (list Z) * Z :=
  match argv with
  | [_; _; out] => (<[out := [137; 80; 78; 71]]> fs, 1)
  | _ => (fs, 2)
  end.

(** A converter that writes its output file and succeeds. *)
Definition djxl_good (path : string) (argv : list string)
    (fs : gmap string (list Z)) : gmap string (list Z) * Z :=
  match argv with
  | [_; _; out] => (<[out := [137; 80; 78; 71; 13; 10; 26; 10]]> fs, 0)
  | _ => (fs, 2)
  end.

(** A decoder that accepts nothing. *)
Definition decode_none (data : list Z) : option Image := None.

(** A world with one file, and no process started yet. *)
Definition world_one_jxl : World :=
  mkWorld {[ "a.jxl" := [255; 10] ]} [].

Local Close Scope string_scope.

(** ** The cropper *)

(** The rectangle [(0,0)-(w,h)]. *)
Definition origin_rect (w h : Z) : Rectangle := mkRectangle (mkPoint 0 0) (mkPoint w h).





(** The ratio one half. *)
Definition ratio_half : spec_float := S754_finite false 4503599627370496 (-53).

(** One opaque pixel away from the origin. *)
Definition img_shifted_1x1 : Image := mkImage (Rect 5 0 6 1) (fun _ _ => white).

(** ** The bounds of the preview *)

(** The local variables [scaleX] and [scaleY] of [GetScaledBounds]. *)
Definition scaleX_of (w : Z) : spec_float := F32.div (F32.of_Z w) (F32.of_Z ImageMaxWidth).
Definition scaleY_of (h : Z) : spec_float := F32.div (F32.of_Z h) (F32.of_Z ImageMaxHeight).

(** A black image with the bounds [(0,0)-(w,h)]. *)
Definition img_of_size (w h : Z) : Image := mkImage (Rect 0 0 w h) (fun _ _ => black).

(** ** Package [strings] and [strconv] *)

(** [len(s)], the number of bytes. *)
Definition len (s : string) : Z := Z.of_nat (String.length s).

(** [strings.Join(elems, sep)] *)
Fixpoint strings_Join (elems : list string) (sep : string) : string :=
  match elems with
  | [] => EmptyString
  | [x] => x
  | x :: rest => (x ++ sep ++ strings_Join rest sep)%string
  end.

(** [strings.Split(s, sep)] for a separator of one byte: the pieces between
    the separators; a string without separator is the only piece. *)
Fixpoint strings_Split (s : string) (sep : ascii) : list string :=
  match s with
  | EmptyString => [EmptyString]
  | String c rest =>
      if Ascii.eqb c sep then EmptyString :: strings_Split rest sep
      else match strings_Split rest sep with
           | part :: parts => String c part :: parts
           | [] => [String c EmptyString]
           end
  end.

(** The decimal digit [d] as a byte. *)
Definition digit_byte (d : Z) : ascii := ascii_of_nat (48 + Z.to_nat d).

(** The loop of [strconv.formatBits] in base 10: the digits of [u] are put
    in front of [acc], the last one first.  A [uint64] has at most 20
    digits. *)
Fixpoint formatBits (fuel : nat) (u : Z) (acc : string) : string :=
  match fuel with
  | O => acc
  | S fuel' =>
      if u <? 10 then String (digit_byte u) acc
      else formatBits fuel' (u / 10) (String (digit_byte (u mod 10)) acc)
  end.

(** [strconv.Itoa(i)]: the decimal representation of an [int]. *)
Definition strconv_Itoa (i : Z) : string :=
  if i <? 0 then String "-"%char (formatBits 20 (- i) EmptyString)
  else formatBits 20 i EmptyString.

(** ** Package [util]: formatting *)

(** The loop [for len(s) > 3] of [FormatIntWithSpaces] on the state
    [(s, parts)]: the last three bytes of [s] move to the front of
    [parts]. *)
Fixpoint group_loop (fuel : nat) (s : string) (parts : list string)
    : string * list string :=
  match fuel with
  | O => (s, parts)
  | S fuel' =>
      if 3 <? len s
      then group_loop fuel'
             (String.substring 0 (String.length s - 3) s)
             (String.substring (String.length s - 3) 3 s :: parts)
      else (s, parts)
  end.

(** [formatIntWithSpaces] takes an integer and returns a string with
    spaces as thousands separators. *)
Definition FormatIntWithSpaces (n : Z) : string :=
  let s := strconv_Itoa (int n) in
  if len s <=? 3 then s
  else
    let '(s, parts) := group_loop (String.length s) s [] in
    strings_Join (s :: parts) " "%string.

(** ** Package [main] (the former [utils.go]): wrapping *)

(** The body of the loop [for i, part := range parts] of
    [wrapStringIntelligently] on the state [(result, currentLineLength)]. *)
Definition wrap_step (maxLength : Z) (i : Z) (part : string) (st : string * Z)
    : string * Z :=
  let '(result, currentLineLength) := st in
  let segmentLength := len part in
  let segmentLength := if 0 <? i then int (segmentLength + 1) else segmentLength in
  let '(result, currentLineLength) :=
    if (0 <? currentLineLength) && (maxLength <? int (currentLineLength + segmentLength))
    then ((result ++ String "010"%char EmptyString)%string, 0)
    else (result, currentLineLength) in
  let '(result, currentLineLength) :=
    if (0 <? i) && (0 <? currentLineLength)
    then ((result ++ "/")%string, int (currentLineLength + 1))
    else (result, currentLineLength) in
  let '(result, currentLineLength) :=
    if (0 <? i) && (currentLineLength =? 0)
    then ((result ++ "/")%string, int (currentLineLength + 1))
    else (result, currentLineLength) in
  ((result ++ part)%string, int (currentLineLength + len part)).

Fixpoint wrap_loop (maxLength : Z) (i : Z) (parts : list string) (st : string * Z)
    : string * Z :=
  match parts with
  | [] => st
  | part :: rest => wrap_loop maxLength (int (i + 1)) rest (wrap_step maxLength i part st)
  end.

(** [wrapStringIntelligently] wraps a string into multiple lines, splitting
    at '/' characters, so that each line does not exceed [maxLength].  It
    prioritizes keeping segments together on a line if possible. *)
Definition wrapStringIntelligently (s : string) (maxLength : Z) : string :=
  if len s <=? maxLength then s
  else
    let parts := strings_Split s "/"%char in
    if Z.of_nat (length parts) <=? 1 then s
    else fst (wrap_loop maxLength 0 parts (EmptyString, 0)).

(** ** Package [util]: the trash *)

Section Trash.

Variable LookPath : string -> option string.
Variable run_program :
  string -> list string -> gmap string (list Z) -> gmap string (list Z) * Z.

(** [MoveFileToTrash] moves the specified file to the system trash.  It
    uses the [trash] command underneath. *)
Definition MoveFileToTrash (path : string) : M (option error) :=
  let cmd := exec_Command LookPath "trash"%string [path] in
  Cmd_Run run_program cmd.

End Trash.

(** ** Definitions for the properties of the strings *)

(** The bytes of [s] other than [c]. *)
Fixpoint remove_byte (c : ascii) (s : string) : string :=
  match s with
  | EmptyString => EmptyString
  | String a rest => if Ascii.eqb a c then remove_byte c rest else String a (remove_byte c rest)
  end.

(** [c] does not occur in [s]. *)
Fixpoint byte_free (c : ascii) (s : string) : Prop :=
  match s with
  | EmptyString => True
  | String a rest => a <> c /\ byte_free c rest
  end.

(** The concatenation of a list of strings. *)
Fixpoint concat_strings (l : list string) : string :=
  match l with
  | [] => EmptyString
  | x :: rest => (x ++ concat_strings rest)%string
  end.

(** Three decimal digits for a number below 1000. *)
Definition pad3 (d : Z) : string :=
  String (digit_byte (d / 100))
    (String (digit_byte (d / 10 mod 10)) (String (digit_byte (d mod 10)) EmptyString)).

(** A line of one path segment: no '/' after the first byte. *)
Definition single_segment (line : string) : Prop :=
  match line with
  | EmptyString => True
  | String _ rest => byte_free "/"%char rest
  end.


(** The grouping of [FormatIntWithSpaces] on the decimal string. *)
Definition grouped (s : string) : string :=
  if len s <=? 3 then s
  else
    let '(s, parts) := group_loop (String.length s) s [] in
    strings_Join (s :: parts) " "%string.

(** The number that a string of decimal digits denotes. *)
Fixpoint digits_value (acc : Z) (s : string) : Z :=
  match s with
  | EmptyString => acc
  | String c rest => digits_value (10 * acc + (Z.of_nat (nat_of_ascii c) - 48)) rest
  end.

(** The line feed, and a string that begins with a given byte. *)
Definition newline : string := String "010"%char EmptyString.

Definition begins_with (c : ascii) (s : string) : Prop :=
  match s with
  | String a _ => a = c
  | EmptyString => False
  end.

(** The pieces of a path each behind its separator. *)
Definition slashed (parts : list string) : list string :=
  map (fun p => String "/"%char p) parts.

(** A decoder that reads every file as one white pixel. *)
Definition decode_white (data : list Z) : option Image := Some img_white_1x1.

(** * Rounding to nearest, ties to even *)

Lemma digits2_pos_size p : digits2_pos p = Pos.size p.
Proof. induction p; simpl; congruence. Qed.

Lemma Zdigits2_nonneg m : 0 <= Zdigits2 m.
Proof. destruct m; simpl; lia. Qed.

Lemma Zdigits2_pos_bounds p :
  2 ^ (Z.pos (digits2_pos p) - 1) <= Z.pos p < 2 ^ Z.pos (digits2_pos p).
Proof.
  rewrite digits2_pos_size. split.
  - pose proof (Pos.size_le p) as H.
    assert (Hz : Z.pos (2 ^ Pos.size p) <= Z.pos p~0) by exact H.
    rewrite Pos2Z.inj_pow in Hz. change (Z.pos p~0) with (2 * Z.pos p) in Hz.
    replace (Z.pos (Pos.size p)) with (Z.succ (Z.pos (Pos.size p) - 1)) in Hz by lia.
    rewrite Z.pow_succ_r in Hz by lia. lia.
  - pose proof (Pos.size_gt p) as H.
    assert (Hz : Z.pos p < Z.pos (2 ^ Pos.size p)) by exact H.
    now rewrite Pos2Z.inj_pow in Hz.
Qed.

Lemma Zdigits2_bounds m : 0 < m -> 2 ^ (Zdigits2 m - 1) <= m < 2 ^ Zdigits2 m.
Proof. destruct m; try lia. intros _. apply Zdigits2_pos_bounds. Qed.

Lemma Zdigits2_unique m d : 0 < d -> 2 ^ (d - 1) <= m < 2 ^ d -> Zdigits2 m = d.
Proof.
  intros Hd [H1 H2].
  assert (Hm : 0 < m) by (pose proof (Z.pow_pos_nonneg 2 (d-1)); lia).
  destruct (Zdigits2_bounds m Hm) as [H3 H4].
  pose proof (Zdigits2_nonneg m).
  destruct (Z.lt_trichotomy (Zdigits2 m) d) as [Hlt|[Heq|Hgt]]; auto; exfalso.
  - assert (2 ^ Zdigits2 m <= 2 ^ (d - 1)) by (apply Z.pow_le_mono_r; lia). lia.
  - assert (2 ^ d <= 2 ^ (Zdigits2 m - 1)) by (apply Z.pow_le_mono_r; lia). lia.
Qed.

Lemma pow2_xO p : 2 ^ Z.pos p~0 = 2 ^ Z.pos p * 2 ^ Z.pos p.
Proof.
  change (Z.pos p~0) with (2 * Z.pos p).
  rewrite <- Z.add_diag, Z.pow_add_r by lia. reflexivity.
Qed.

Lemma pow2_xI p : 2 ^ Z.pos p~1 = 2 * (2 ^ Z.pos p * 2 ^ Z.pos p).
Proof.
  change (Z.pos p~1) with (2 * Z.pos p + 1).
  rewrite <- Z.add_diag, Z.add_comm, Z.pow_add_r by lia.
  rewrite Z.pow_add_r by lia. reflexivity.
Qed.


Lemma located_floor N D m l : 0 < D -> located N D m l -> m * D <= N < (m + 1) * D.
Proof. intros HD H. destruct l as [|[]]; unfold located in H; lia. Qed.

Lemma loc_of_shr_record_of_loc m l : loc_of_shr_record (shr_record_of_loc m l) = l.
Proof. now destruct l as [|[]]. Qed.

Lemma shr_m_record_of_loc m l : shr_m (shr_record_of_loc m l) = m.
Proof. now destruct l as [|[]]. Qed.

Lemma shr_1_located mrs N D :
  0 < D -> 0 <= shr_m mrs ->
  located N D (shr_m mrs) (loc_of_shr_record mrs) ->
  0 <= shr_m (shr_1 mrs) /\
  located N (2 * D) (shr_m (shr_1 mrs)) (loc_of_shr_record (shr_1 mrs)).
Proof.
  destruct mrs as [m r s]. cbn [shr_m].
  intros HD Hm.
  destruct m as [|[p|p|]|p]; try lia;
    destruct r, s; cbn [located shr_1 shr_m loc_of_shr_record orb];
    intros H; split; try lia;
    try (change (Z.pos p~1) with (2 * Z.pos p + 1) in H);
    try (change (Z.pos p~0) with (2 * Z.pos p) in H); lia.
Qed.

Lemma iter_pos_shr_1_located p : forall mrs N D,
  0 < D -> 0 <= shr_m mrs ->
  located N D (shr_m mrs) (loc_of_shr_record mrs) ->
  0 <= shr_m (SpecFloat.iter_pos shr_1 p mrs) /\
  located N (2 ^ Z.pos p * D) (shr_m (SpecFloat.iter_pos shr_1 p mrs))
    (loc_of_shr_record (SpecFloat.iter_pos shr_1 p mrs)).
Proof.
  induction p as [p IH|p IH|]; intros mrs N D HD Hm H; cbn [SpecFloat.iter_pos].
  - destruct (shr_1_located mrs N D HD Hm H) as [H1 H2].
    assert (HD2 : 0 < 2 * D) by lia.
    destruct (IH _ N _ HD2 H1 H2) as [H3 H4].
    assert (HD3 : 0 < 2 ^ Z.pos p * (2 * D)) by (pose proof (Z.pow_pos_nonneg 2 (Z.pos p)); nia).
    destruct (IH _ N _ HD3 H3 H4) as [H5 H6].
    split; auto.
    replace (2 ^ Z.pos p~1 * D) with (2 ^ Z.pos p * (2 ^ Z.pos p * (2 * D))); auto.
    rewrite pow2_xI. ring.
  - destruct (IH _ N _ HD Hm H) as [H3 H4].
    assert (HD3 : 0 < 2 ^ Z.pos p * D) by (pose proof (Z.pow_pos_nonneg 2 (Z.pos p)); nia).
    destruct (IH _ N _ HD3 H3 H4) as [H5 H6].
    split; auto.
    replace (2 ^ Z.pos p~0 * D) with (2 ^ Z.pos p * (2 ^ Z.pos p * D)); auto.
    rewrite pow2_xO. ring.
  - destruct (shr_1_located mrs N D HD Hm H) as [H1 H2]. split; auto.
Qed.

Lemma shr_located mrs e n N D :
  0 < D -> 0 <= shr_m mrs ->
  located N D (shr_m mrs) (loc_of_shr_record mrs) ->
  snd (shr mrs e n) = e + Z.max 0 n /\ 0 <= shr_m (fst (shr mrs e n)) /\
  located N (2 ^ Z.max 0 n * D) (shr_m (fst (shr mrs e n)))
    (loc_of_shr_record (fst (shr mrs e n))).
Proof.
  intros HD Hm H. destruct n as [|p|p]; unfold shr; cbn [fst snd].
  - rewrite Z.max_l, Z.pow_0_r, Z.mul_1_l by lia. repeat split; auto; lia.
  - rewrite Z.max_r by lia.
    destruct (iter_pos_shr_1_located p mrs N D HD Hm H) as [H1 H2].
    repeat split; auto.
  - rewrite Z.max_l, Z.pow_0_r, Z.mul_1_l by lia. repeat split; auto; lia.
Qed.

Lemma pow2_pos k : 0 <= k -> 0 < 2 ^ k.
Proof. intros. apply Z.pow_pos_nonneg; lia. Qed.

Lemma pow2_split a b : 0 <= b <= a -> 2 ^ a = 2 ^ b * 2 ^ (a - b).
Proof. intros. rewrite <- Z.pow_add_r by lia. f_equal. lia. Qed.

Lemma pow2_le a b : 0 <= a <= b -> 2 ^ a <= 2 ^ b.
Proof. intros. apply Z.pow_le_mono_r; lia. Qed.

Lemma pow2_lt a b : 0 <= a < b -> 2 ^ a < 2 ^ b.
Proof. intros. apply Z.pow_lt_mono_r; lia. Qed.

Lemma located_div_pow2 N D k m l m1 l1 :
  0 < D -> 0 <= k -> located N D m l -> located N (2 ^ k * D) m1 l1 ->
  m1 = m / 2 ^ k.
Proof.
  intros HD Hk H H1.
  pose proof (pow2_pos k Hk) as Hp.
  apply located_floor in H; auto.
  apply located_floor in H1; [|nia].
  apply Z.div_unique_pos with (r := m - m1 * 2 ^ k); [|lia].
  split; nia.
Qed.

Lemma Zdigits2_div_pow2 m k :
  0 < m -> 0 <= k -> 0 < m / 2 ^ k -> Zdigits2 (m / 2 ^ k) = Zdigits2 m - k.
Proof.
  intros Hm Hk Hq.
  destruct (Zdigits2_bounds m Hm) as [H1 H2].
  pose proof (pow2_pos k Hk) as Hp.
  assert (Hkd : k < Zdigits2 m).
  { destruct (Z_lt_le_dec k (Zdigits2 m)) as [|Hge]; auto. exfalso.
    pose proof (Zdigits2_nonneg m).
    assert (2 ^ Zdigits2 m <= 2 ^ k) by (apply pow2_le; lia).
    rewrite Z.div_small in Hq by lia. lia. }
  apply Zdigits2_unique; [lia|]. split.
  - apply Z.div_le_lower_bound; auto.
    rewrite (pow2_split (Zdigits2 m - 1) k) in H1 by lia.
    now replace (Zdigits2 m - k - 1) with (Zdigits2 m - 1 - k) by lia.
  - apply Z.div_lt_upper_bound; auto.
    now rewrite (pow2_split (Zdigits2 m) k) in H2 by lia.
Qed.

Lemma Zdigits2_succ m :
  0 < m ->
  (m + 1 < 2 ^ Zdigits2 m /\ Zdigits2 (m + 1) = Zdigits2 m) \/
  (m + 1 = 2 ^ Zdigits2 m /\ Zdigits2 (m + 1) = Zdigits2 m + 1).
Proof.
  intros Hm. destruct (Zdigits2_bounds m Hm) as [H1 H2].
  assert (Hd : 0 < Zdigits2 m) by (destruct m; simpl; lia).
  destruct (Z_lt_le_dec (m + 1) (2 ^ Zdigits2 m)) as [Hlt|Hge]; [left|right]; split; try lia.
  - apply Zdigits2_unique; lia.
  - apply Zdigits2_unique; [lia|].
    replace (Zdigits2 m + 1 - 1) with (Zdigits2 m) by lia.
    split; [lia|]. rewrite Z.pow_add_r by lia. lia.
Qed.

Lemma round_nearest_even_bounds m l : m <= round_nearest_even m l <= m + 1.
Proof. destruct l as [|[]]; simpl; try lia. destruct (Z.even m); lia. Qed.

Section Rounding.

Variables prec emax : Z.
Hypothesis Hprec : 0 < prec.
Hypothesis Hemax : prec < emax.

Local Abbreviation fexp := (SpecFloat.fexp prec emax).
Local Abbreviation emin := (SpecFloat.emin prec emax).

Lemma fexp_mono a b : a <= b -> fexp a <= fexp b.
Proof. unfold SpecFloat.fexp. lia. Qed.

Lemma fexp_ge_emin a : emin <= fexp a.
Proof. unfold SpecFloat.fexp. lia. Qed.

Lemma fexp_cases a : (fexp a = a - prec /\ emin <= a - prec) \/ (fexp a = emin /\ a - prec <= emin).
Proof. unfold SpecFloat.fexp. lia. Qed.

Lemma shr_fexp_located m e l N D :
  0 < D -> 0 <= m -> located N D m l ->
  let k := Z.max 0 (fexp (Zdigits2 m + e) - e) in
  snd (shr_fexp prec emax m e l) = e + k /\
  0 <= shr_m (fst (shr_fexp prec emax m e l)) /\
  located N (2 ^ k * D) (shr_m (fst (shr_fexp prec emax m e l)))
    (loc_of_shr_record (fst (shr_fexp prec emax m e l))).
Proof.
  intros HD Hm H k. unfold shr_fexp.
  apply shr_located; auto.
  - now rewrite shr_m_record_of_loc.
  - now rewrite shr_m_record_of_loc, loc_of_shr_record_of_loc.
Qed.

(** The rounding step of every operation: [m], [e], [l] locate the exact
    result [N / D * 2 ^ e]; the float returned has mantissa [m3] and exponent
    [e3], obtained by truncating to [m1] at the exponent [e1] of the format
    and rounding to nearest, ties to even. *)
Lemma binary_round_aux_spec s m e l N D :
  0 < D -> 0 <= m -> located N D m l ->
  e <= fexp (Zdigits2 m + e) ->
  exists m1 l1 m3 e3,
    located N (2 ^ (fexp (Zdigits2 m + e) - e) * D) m1 l1 /\
    0 <= m1 < 2 ^ prec /\
    (0 < m1 -> Zdigits2 m1 + fexp (Zdigits2 m + e) = Zdigits2 m + e) /\
    (m1 = 0 -> fexp (Zdigits2 m + e) = emin) /\
    fexp (Zdigits2 m + e) <= e3 /\
    m3 * 2 ^ (e3 - fexp (Zdigits2 m + e)) = round_nearest_even m1 l1 /\
    (0 < m3 -> fexp (Zdigits2 m3 + e3) = e3) /\
    binary_round_aux prec emax s m e l =
      match m3 with
      | Z0 => S754_zero s
      | Zpos p => if e3 <=? emax - prec then S754_finite s p e3 else S754_infinity s
      | Zneg _ => S754_nan
      end.
Proof.
  intros HD Hm H He.
  set (d := Zdigits2 m) in *. set (e1 := fexp (d + e)) in *.
  unfold binary_round_aux.
  destruct (shr_fexp_located m e l N D HD Hm H) as (Hs1 & Hm1 & Hl1).
  fold d in Hs1, Hl1. fold e1 in Hs1, Hl1.
  rewrite Z.max_r in Hs1, Hl1 by lia.
  destruct (shr_fexp prec emax m e l) as [mrs1 e1'] eqn:E1.
  cbn [fst snd] in Hs1, Hm1, Hl1.
  assert (e1' = e1) by lia. subst e1'.
  set (m1 := shr_m mrs1) in *. set (l1 := loc_of_shr_record mrs1) in *.
  assert (Hk : 0 <= e1 - e) by lia.
  pose proof (located_div_pow2 _ _ _ _ _ _ _ HD Hk H Hl1) as Hdiv.
  (* digits of the truncated mantissa *)
  assert (Hd1 : 0 < m1 -> Zdigits2 m1 + e1 = d + e).
  { intros Hpos. assert (0 < m) by (destruct (Z.eq_dec m 0) as [->|]; [rewrite Z.div_0_l in Hdiv by (pose proof (pow2_pos _ Hk); lia); lia|lia]).
    rewrite Hdiv. rewrite Zdigits2_div_pow2; auto; try lia. }
  assert (Hm1z : m1 = 0 -> e1 = emin).
  { intros Hz. destruct (fexp_cases (d + e)) as [[Hf Hge]|[Hf _]]; [|exact Hf]. exfalso.
    fold e1 in Hf.
    destruct (Z.eq_dec m 0) as [Hm0|Hm0].
    - subst m. subst d. simpl in *. lia.
    - assert (Hmp : 0 < m) by lia.
      destruct (Zdigits2_bounds m Hmp) as [Hb1 Hb2]. fold d in Hb1, Hb2.
      assert (Hdpos : 0 < d) by (subst d; destruct m; simpl; lia).
      assert (2 ^ (e1 - e) <= m).
      { eapply Z.le_trans; [|exact Hb1]. apply pow2_le. lia. }
      assert (1 <= m / 2 ^ (e1 - e)).
      { apply Z.div_le_lower_bound; [apply pow2_pos; lia|lia]. }
      lia. }
  assert (Hm1p : m1 < 2 ^ prec).
  { destruct (Z.eq_dec m1 0) as [->|Hnz]; [apply pow2_pos; lia|].
    assert (Hpos : 0 < m1) by lia.
    destruct (Zdigits2_bounds m1 Hpos) as [_ Hub].
    eapply Z.lt_le_trans; [exact Hub|]. apply pow2_le.
    pose proof (Zdigits2_nonneg m1). specialize (Hd1 Hpos).
    unfold e1, SpecFloat.fexp in *. lia. }
  assert (He1min : emin <= e1) by apply fexp_ge_emin.
  assert (Hcan1 : 0 < m1 -> fexp (Zdigits2 m1 + e1) = e1).
  { intros Hpos. rewrite (Hd1 Hpos). reflexivity. }
  set (m2 := round_nearest_even m1 l1).
  pose proof (round_nearest_even_bounds m1 l1) as Hm2. fold m2 in Hm2.
  assert (Hm2n : 0 <= m2) by lia.
  assert (Hloc2 : located m2 1 m2 loc_Exact) by (unfold located; lia).
  destruct (shr_fexp_located m2 e1 loc_Exact m2 1 ltac:(lia) Hm2n Hloc2) as (Hs2 & Hm3 & Hl3).
  destruct (shr_fexp prec emax m2 e1 loc_Exact) as [mrs2 e3] eqn:E2.
  cbn [fst snd] in Hs2, Hm3, Hl3.
  set (m3 := shr_m mrs2) in *.
  set (k2 := Z.max 0 (fexp (Zdigits2 m2 + e1) - e1)) in *.
  apply located_floor in Hl3; [|pose proof (pow2_pos k2 ltac:(lia)); lia].
  rewrite Z.mul_1_r in Hl3.
  (* the second shift is by at most one bit, and exact *)
  assert (Hk2 : (k2 = 0 /\ m3 = m2 /\ (0 < m2 -> fexp (Zdigits2 m2 + e1) = e1)) \/
                (k2 = 1 /\ 2 * m3 = m2 /\ 0 < m3 /\ fexp (Zdigits2 m3 + (e1 + 1)) = e1 + 1)).
  { destruct (Z.eq_dec m2 m1) as [Heq|Hne].
    - left. assert (k2 = 0).
      { subst k2. rewrite Heq. destruct (Z.eq_dec m1 0) as [Hz|Hnz].
        - rewrite Hz. simpl Zdigits2. unfold SpecFloat.fexp in *. lia.
        - rewrite Hcan1 by lia. lia. }
      repeat split; try lia.
      + replace k2 with 0 in Hl3 by lia. rewrite Z.pow_0_r in Hl3. lia.
      + intros. rewrite Heq. apply Hcan1. lia.
    - assert (Hsucc : m2 = m1 + 1) by lia.
      destruct (Z.eq_dec m1 0) as [Hz|Hnz].
      + left. assert (k2 = 0).
        { subst k2. rewrite Hsucc, Hz. simpl Zdigits2. specialize (Hm1z Hz).
          unfold SpecFloat.fexp in *. lia. }
        repeat split; try lia.
        * replace k2 with 0 in Hl3 by lia. rewrite Z.pow_0_r in Hl3. lia.
        * intros. rewrite Hsucc, Hz. simpl Zdigits2. specialize (Hm1z Hz).
          unfold SpecFloat.fexp in *. lia.
      + assert (Hpos : 0 < m1) by lia.
        specialize (Hcan1 Hpos).
        destruct (Zdigits2_succ m1 Hpos) as [[Hlt Hdig]|[Heq Hdig]].
        * left. assert (k2 = 0).
          { subst k2. rewrite Hsucc, Hdig, Hcan1. lia. }
          repeat split; try lia.
          -- replace k2 with 0 in Hl3 by lia. rewrite Z.pow_0_r in Hl3. lia.
          -- intros. rewrite Hsucc, Hdig. exact Hcan1.
        * assert (Hdpos : 0 < Zdigits2 m1) by (destruct m1; simpl; lia).
          assert (Hk01 : k2 = 0 \/ k2 = 1).
          { subst k2. rewrite Hsucc, Hdig. unfold SpecFloat.fexp in *. lia. }
          destruct Hk01 as [Hk0|Hk1]; [left|right].
          -- repeat split; try lia.
             ++ rewrite Hk0, Z.pow_0_r in Hl3. lia.
             ++ intros. subst k2. rewrite Hsucc, Hdig in *.
                unfold SpecFloat.fexp in *. lia.
          -- assert (Hev : m2 = 2 * 2 ^ (Zdigits2 m1 - 1)).
             { rewrite Hsucc, Heq. rewrite (pow2_split (Zdigits2 m1) 1) by lia.
               rewrite Z.pow_1_r. reflexivity. }
             rewrite Hk1, Z.pow_1_r in Hl3.
             assert (Hm3v : m3 = 2 ^ (Zdigits2 m1 - 1)) by lia.
             pose proof (pow2_pos (Zdigits2 m1 - 1) ltac:(lia)).
             repeat split; try lia.
             assert (Hd3 : Zdigits2 m3 = Zdigits2 m1).
             { apply Zdigits2_unique; [lia|]. rewrite Hm3v. split; [lia|].
               apply pow2_lt. lia. }
             rewrite Hd3. subst k2. rewrite Hsucc, Hdig in Hk1.
             replace (Zdigits2 m1 + (e1 + 1)) with (Zdigits2 m1 + 1 + e1) by lia.
             lia. }
  exists m1, l1, m3, e3.
  fold m2. 
  repeat split; auto; try lia.
  - destruct Hk2 as [(Hkk & Hv & _)|(Hkk & Hv & _)].
    + replace (e3 - e1) with 0 by lia. rewrite Z.pow_0_r. lia.
    + replace (e3 - e1) with 1 by lia. rewrite Z.pow_1_r. lia.
  - intros Hpos. destruct Hk2 as [(Hkk & Hv & Hc)|(Hkk & Hv & _ & Hc)].
    + replace e3 with e1 by lia. rewrite Hv. apply Hc. lia.
    + replace e3 with (e1 + 1) by lia. exact Hc.
  - replace (e + (e1 - e)) with e1 by lia. rewrite E2. reflexivity.
Qed.

End Rounding.


Lemma qle_at t N1 D1 e1 N2 D2 e2 :
  t <= e1 -> t <= e2 ->
  qle N1 D1 e1 N2 D2 e2 <-> N1 * D2 * 2 ^ (e1 - t) <= N2 * D1 * 2 ^ (e2 - t).
Proof.
  intros H1 H2. unfold qle.
  set (u := Z.min e1 e2).
  assert (Hu : t <= u) by (unfold u; lia).
  assert (Hu1 : u <= e1) by (unfold u; lia).
  assert (Hu2 : u <= e2) by (unfold u; lia).
  rewrite (pow2_split (e1 - t) (u - t)) by lia.
  rewrite (pow2_split (e2 - t) (u - t)) by lia.
  replace (e1 - t - (u - t)) with (e1 - u) by lia.
  replace (e2 - t - (u - t)) with (e2 - u) by lia.
  pose proof (pow2_pos (u - t) ltac:(lia)) as Hp.
  split; intros H; nia.
Qed.

Lemma qle_total N1 D1 e1 N2 D2 e2 :
  qle N1 D1 e1 N2 D2 e2 \/ qle N2 D2 e2 N1 D1 e1.
Proof. unfold qle. rewrite (Z.min_comm e2 e1). lia. Qed.

Lemma round_nearest_even_le N D m l K :
  0 < D -> located N D m l -> N <= K * D -> round_nearest_even m l <= K.
Proof.
  intros HD H HK.
  assert (m <= K) by (apply located_floor in H; auto; nia).
  destruct l as [|[]]; unfold located in H; cbn [round_nearest_even];
    try destruct (Z.even m); nia.
Qed.

Lemma round_nearest_even_ge N D m l K :
  0 < D -> located N D m l -> K * D <= N -> K <= round_nearest_even m l.
Proof.
  intros HD H HK.
  pose proof (round_nearest_even_bounds m l).
  assert (K <= m) by (apply located_floor in H; auto; nia). lia.
Qed.

Lemma scale_chain A B C D E N m1 mb :
  0 < A -> 0 < B -> 0 < C -> 0 < D -> 0 < E ->
  A <= m1 -> m1 * (B * D) <= N -> N * 1 * C <= mb * D * E -> mb < 2 * A ->
  B * C < 2 * E.
Proof.
  intros HA HB HC HD HE H1 H2 H3 H4.
  assert (S0 : 0 < B * D) by nia.
  assert (S1 : A * (B * D) <= N) by nia.
  assert (S2 : A * (B * D) * C <= N * C) by nia.
  assert (S3 : mb * (D * E) < 2 * A * (D * E)) by nia.
  assert (S4 : (A * D) * (B * C) < (A * D) * (2 * E)) by lia.
  apply Z.mul_lt_mono_pos_l in S4; nia.
Qed.

Section Bounds.

Variables prec emax : Z.
Hypothesis Hprec : 0 < prec.
Hypothesis Hemax : prec < emax.

Local Abbreviation fexp := (SpecFloat.fexp prec emax).
Local Abbreviation emin := (SpecFloat.emin prec emax).
Local Abbreviation pos_canon := (pos_canon prec emax).
Local Abbreviation nonneg_canon := (nonneg_canon prec emax).


Lemma bounded_unfold m e :
  bounded prec emax m e = true <->
  fexp (Zdigits2 (Z.pos m) + e) = e /\ e <= emax - prec.
Proof.
  unfold bounded, canonical_mantissa. cbn [Zdigits2].
  rewrite andb_true_iff, Z.eqb_eq, Z.leb_le. reflexivity.
Qed.

Lemma canonical_digits m e :
  0 < m -> fexp (Zdigits2 m + e) = e ->
  m < 2 ^ prec /\ emin <= e /\ (emin < e -> 2 ^ (prec - 1) <= m).
Proof.
  intros Hm Hc. destruct (Zdigits2_bounds m Hm) as [H1 H2].
  pose proof (Zdigits2_nonneg m) as Hd.
  assert (Hdp : 0 < Zdigits2 m) by (destruct m; simpl; lia).
  repeat split.
  - eapply Z.lt_le_trans; [exact H2|]. apply pow2_le. unfold SpecFloat.fexp in Hc. lia.
  - unfold SpecFloat.fexp in Hc. lia.
  - intros He. eapply Z.le_trans; [|exact H1]. apply pow2_le.
    unfold SpecFloat.fexp in Hc. lia.
Qed.

(** On canonical floats the order of the values is the lexicographic order
    on (exponent, mantissa), which is what [SFcompare] computes. *)
Lemma canonical_compare ma ea mb eb :
  0 < ma -> 0 < mb ->
  fexp (Zdigits2 ma + ea) = ea -> fexp (Zdigits2 mb + eb) = eb ->
  qle ma 1 ea mb 1 eb <-> (ea < eb \/ (ea = eb /\ ma <= mb)).
Proof.
  intros Hma Hmb Hca Hcb.
  destruct (canonical_digits ma ea Hma Hca) as (Ha1 & Ha2 & Ha3).
  destruct (canonical_digits mb eb Hmb Hcb) as (Hb1 & Hb2 & Hb3).
  destruct (Z.lt_trichotomy ea eb) as [Hlt|[Heq|Hgt]].
  - split; [auto|intros _].
    apply (qle_at ea); try lia.
    rewrite Z.sub_diag, Z.pow_0_r.
    specialize (Hb3 ltac:(lia)).
    assert (2 <= 2 ^ (eb - ea)).
    { change 2 with (2 ^ 1) at 1. apply pow2_le. lia. }
    rewrite (pow2_split prec 1) in Ha1 by lia. rewrite Z.pow_1_r in Ha1.
    nia.
  - subst eb. rewrite (qle_at ea) by lia. rewrite Z.sub_diag, Z.pow_0_r. lia.
  - split; [intros H; exfalso|lia].
    apply (qle_at eb) in H; try lia.
    rewrite Z.sub_diag, Z.pow_0_r in H.
    specialize (Ha3 ltac:(lia)).
    assert (2 <= 2 ^ (ea - eb)).
    { change 2 with (2 ^ 1) at 1. apply pow2_le. lia. }
    rewrite (pow2_split prec 1) in Hb1 by lia. rewrite Z.pow_1_r in Hb1.
    nia.
Qed.

Lemma SFcompare_pos m1 e1 m2 e2 :
  SFcompare (S754_finite false m1 e1) (S754_finite false m2 e2) =
  Some match e1 ?= e2 with
       | Lt => Lt
       | Gt => Gt
       | Eq => (Z.pos m1 ?= Z.pos m2)
       end.
Proof. reflexivity. Qed.

Lemma SFleb_pos_canon a b :
  pos_canon a -> pos_canon b ->
  SFleb a b = true <->
  match a, b with
  | S754_finite _ ma ea, S754_finite _ mb eb => qle (Z.pos ma) 1 ea (Z.pos mb) 1 eb
  | _, _ => False
  end.
Proof.
  destruct a as [| | |[] ma ea]; try contradiction.
  destruct b as [| | |[] mb eb]; try contradiction.
  cbn [pos_canon]. rewrite !bounded_unfold. intros [Hca _] [Hcb _].
  rewrite (canonical_compare (Z.pos ma) ea (Z.pos mb) eb) by (auto; lia).
  unfold SFleb. rewrite SFcompare_pos.
  destruct (Z.compare_spec ea eb) as [Heq|Hlt|Hgt].
  - destruct (Z.compare_spec (Z.pos ma) (Z.pos mb)); split; intros; try lia; try discriminate; auto.
  - split; auto.
  - split; [discriminate|lia].
Qed.

Lemma SFltb_pos_canon a b :
  pos_canon a -> pos_canon b ->
  SFltb a b = true <-> SFleb b a = false.
Proof.
  destruct a as [| | |[] ma ea]; try contradiction.
  destruct b as [| | |[] mb eb]; try contradiction.
  intros _ _. unfold SFltb, SFleb. rewrite !SFcompare_pos.
  rewrite (Z.compare_antisym ea eb), (Z.compare_antisym (Z.pos ma) (Z.pos mb)).
  destruct (ea ?= eb); cbn [CompOpp]; try (split; [reflexivity|reflexivity]);
    try (split; discriminate).
  destruct (Z.pos ma ?= Z.pos mb); cbn [CompOpp]; split; try reflexivity; discriminate.
Qed.

Lemma SFleb_antisym a b :
  pos_canon a -> pos_canon b -> SFleb a b = true -> SFleb b a = true -> a = b.
Proof.
  destruct a as [| | |[] ma ea]; try contradiction.
  destruct b as [| | |[] mb eb]; try contradiction.
  intros _ _. unfold SFleb. rewrite !SFcompare_pos.
  destruct (Z.compare_spec ea eb); destruct (Z.compare_spec eb ea); try lia; try discriminate.
  destruct (Z.compare_spec (Z.pos ma) (Z.pos mb));
    destruct (Z.compare_spec (Z.pos mb) (Z.pos ma)); try lia; try discriminate.
  intros _ _. congruence.
Qed.

Lemma SFleb_of_compare p e3 mb eb :
  e3 < eb \/ (e3 = eb /\ Z.pos p <= Z.pos mb) ->
  SFleb (S754_finite false p e3) (S754_finite false mb eb) = true.
Proof.
  intros Hq. unfold SFleb. rewrite SFcompare_pos. destruct Hq as [Hlt|[Heq Hle]].
  - rewrite (proj2 (Z.compare_lt_iff _ _)) by lia. reflexivity.
  - subst. rewrite Z.compare_refl.
    destruct (Z.compare_spec (Z.pos p) (Z.pos mb)); auto; lia.
Qed.

(** Rounding is monotone against representable bounds: an exact result at
    most [b] rounds to a float at most [b], and never overflows. *)
Lemma binary_round_aux_le m e l N D mb eb :
  0 < D -> 0 <= m -> located N D m l ->
  e <= fexp (Zdigits2 m + e) ->
  bounded prec emax mb eb = true ->
  qle N D e (Z.pos mb) 1 eb ->
  nonneg_canon (binary_round_aux prec emax false m e l) /\
  SFleb (binary_round_aux prec emax false m e l) (S754_finite false mb eb) = true.
Proof.
  intros HD Hm H He Hb Hle.
  apply bounded_unfold in Hb. destruct Hb as [Hcb Hbe].
  destruct (canonical_digits (Z.pos mb) eb ltac:(lia) Hcb) as (Hb1 & Hb2 & Hb3).
  destruct (binary_round_aux_spec prec emax Hprec false m e l N D HD Hm H He)
    as (m1 & l1 & m3 & e3 & Hl1 & Hm1 & Hd1 & Hz1 & He3 & Hv & Hc3 & Hr).
  set (e1 := fexp (Zdigits2 m + e)) in *.
  rewrite Hr. clear Hr.
  pose proof (round_nearest_even_bounds m1 l1) as Hrb.
  pose proof (pow2_pos (e3 - e1) ltac:(lia)) as Hp3.
  pose proof (pow2_pos (e1 - e) ltac:(lia)) as Hp1.
  assert (Hm3 : 0 <= m3) by nia.
  destruct m3 as [|p|p]; [split; [left|]; reflexivity| |lia].
  assert (He1b : e1 <= eb).
  { destruct (Z_le_gt_dec e1 eb) as [|Hgt]; auto. exfalso.
    assert (Hm1p : 0 < m1) by (destruct (Z.eq_dec m1 0) as [Hz|]; [specialize (Hz1 Hz)|]; lia).
    assert (Hcan1 : fexp (Zdigits2 m1 + e1) = e1) by (rewrite (Hd1 Hm1p); reflexivity).
    destruct (canonical_digits m1 e1 Hm1p Hcan1) as (_ & _ & Hn).
    specialize (Hn ltac:(lia)).
    apply located_floor in Hl1; [|nia].
    set (t := Z.min e eb).
    apply (qle_at t) in Hle; [|unfold t; lia|unfold t; lia].
    pose proof (pow2_pos (e - t) ltac:(unfold t; lia)) as Hpc.
    pose proof (pow2_pos (eb - t) ltac:(unfold t; lia)) as Hpe.
    pose proof (pow2_pos (prec - 1) ltac:(lia)) as Hpa.
    rewrite (pow2_split prec 1) in Hb1 by lia. rewrite Z.pow_1_r in Hb1.
    replace (prec - 1) with (prec - 1) in * by lia.
    set (A := 2 ^ (prec - 1)) in *. set (B := 2 ^ (e1 - e)) in *.
    set (C := 2 ^ (e - t)) in *. set (E := 2 ^ (eb - t)) in *.
    assert (S5 : B * C < 2 * E).
    { apply (scale_chain A B C D E N m1 (Z.pos mb)); auto; lia. }
    unfold B, C, E in S5.
    rewrite <- Z.pow_add_r in S5 by (unfold t; lia).
    replace (2 * 2 ^ (eb - t)) with (2 ^ (eb - t + 1)) in S5
      by (rewrite Z.pow_add_r by (unfold t; lia); rewrite Z.pow_1_r; ring).
    apply Z.pow_lt_mono_r_iff in S5; unfold t in *; lia. }
  assert (Hrne : round_nearest_even m1 l1 <= Z.pos mb * 2 ^ (eb - e1)).
  { apply round_nearest_even_le with (N := N) (D := 2 ^ (e1 - e) * D); auto; [nia|].
    apply (qle_at e) in Hle; [|lia|lia].
    rewrite Z.sub_diag, Z.pow_0_r in Hle.
    rewrite (pow2_split (eb - e) (e1 - e)) in Hle by lia.
    replace (eb - e - (e1 - e)) with (eb - e1) in Hle by lia. lia. }
  assert (Hq : qle (Z.pos p) 1 e3 (Z.pos mb) 1 eb).
  { apply (qle_at e1); lia. }
  apply canonical_compare in Hq; auto; try lia; try (apply Hc3; lia).
  rewrite (proj2 (Z.leb_le _ _)) by lia.
  split.
  - right. cbn [pos_canon]. apply bounded_unfold. split; [apply Hc3|]; lia.
  - now apply SFleb_of_compare.
Qed.

(** ... and an exact result at least [b] rounds to a float at least [b]
    (or overflows to +infinity). *)
Lemma binary_round_aux_ge m e l N D mb eb :
  0 < D -> 0 <= m -> located N D m l ->
  e <= fexp (Zdigits2 m + e) ->
  bounded prec emax mb eb = true ->
  qle (Z.pos mb) 1 eb N D e ->
  (pos_canon (binary_round_aux prec emax false m e l) \/
   binary_round_aux prec emax false m e l = S754_infinity false) /\
  SFleb (S754_finite false mb eb) (binary_round_aux prec emax false m e l) = true.
Proof.
  intros HD Hm H He Hb Hle.
  apply bounded_unfold in Hb. destruct Hb as [Hcb Hbe].
  destruct (canonical_digits (Z.pos mb) eb ltac:(lia) Hcb) as (Hb1 & Hb2 & Hb3).
  destruct (binary_round_aux_spec prec emax Hprec false m e l N D HD Hm H He)
    as (m1 & l1 & m3 & e3 & Hl1 & Hm1 & Hd1 & Hz1 & He3 & Hv & Hc3 & Hr).
  set (e1 := fexp (Zdigits2 m + e)) in *.
  rewrite Hr. clear Hr.
  pose proof (round_nearest_even_bounds m1 l1) as Hrb.
  pose proof (pow2_pos (e3 - e1) ltac:(lia)) as Hp3.
  pose proof (pow2_pos (e1 - e) ltac:(lia)) as Hp1.
  assert (Hq : 0 < m3 /\ qle (Z.pos mb) 1 eb m3 1 e3).
  { destruct (Z_le_gt_dec e1 eb) as [Hle1|Hgt].
    - assert (Hrne : Z.pos mb * 2 ^ (eb - e1) <= round_nearest_even m1 l1).
      { apply round_nearest_even_ge with (N := N) (D := 2 ^ (e1 - e) * D); auto; [nia|].
        apply (qle_at e) in Hle; [|lia|lia].
        rewrite Z.sub_diag, Z.pow_0_r in Hle.
        rewrite (pow2_split (eb - e) (e1 - e)) in Hle by lia.
        replace (eb - e - (e1 - e)) with (eb - e1) in Hle by lia. lia. }
      pose proof (pow2_pos (eb - e1) ltac:(lia)).
      split; [nia|]. apply (qle_at e1); lia.
    - assert (Hm1p : 0 < m1) by (destruct (Z.eq_dec m1 0) as [Hz|]; [specialize (Hz1 Hz)|]; lia).
      assert (Hcan1 : fexp (Zdigits2 m1 + e1) = e1) by (rewrite (Hd1 Hm1p); reflexivity).
      destruct (canonical_digits m1 e1 Hm1p Hcan1) as (_ & _ & Hn).
      specialize (Hn ltac:(lia)).
      pose proof (pow2_pos (prec - 1) ltac:(lia)) as Hpa.
      split; [nia|]. apply (qle_at eb); try lia.
      rewrite Z.sub_diag, Z.pow_0_r.
      rewrite (pow2_split (e3 - eb) (e3 - e1)) by lia.
      replace (e3 - eb - (e3 - e1)) with (e1 - eb) by lia.
      assert (2 <= 2 ^ (e1 - eb)).
      { change 2 with (2 ^ 1) at 1. apply pow2_le. lia. }
      rewrite (pow2_split prec 1) in Hb1 by lia. rewrite Z.pow_1_r in Hb1.
      nia. }
  destruct Hq as [Hm3 Hq].
  destruct m3 as [|p|p]; try lia.
  destruct (Z.leb_spec e3 (emax - prec)) as [Hin|Hout].
  - apply canonical_compare in Hq; auto; try lia; try (apply Hc3; lia).
    split.
    + left. cbn [pos_canon]. apply bounded_unfold. split; [apply Hc3|]; lia.
    + now apply SFleb_of_compare.
  - split; [right|]; reflexivity.
Qed.

End Bounds.

Lemma Pos_iter_xO m d : Z.pos (Pos.iter xO m d) = Z.pos m * 2 ^ Z.pos d.
Proof.
  induction d as [|d IH] using Pos.peano_ind.
  - cbn [Pos.iter]. rewrite Z.pow_1_r.
    change (Z.pos m~0) with (2 * Z.pos m). lia.
  - rewrite Pos.iter_succ, Pos2Z.inj_succ, Z.pow_succ_r by lia.
    change (Z.pos (Pos.iter xO m d)~0) with (2 * Z.pos (Pos.iter xO m d)).
    rewrite IH. ring.
Qed.

Lemma shl_align_spec mx ex ex' :
  snd (shl_align mx ex ex') = Z.min ex ex' /\
  Z.pos (fst (shl_align mx ex ex')) = Z.pos mx * 2 ^ (ex - Z.min ex ex').
Proof.
  unfold shl_align. destruct (ex' - ex) as [|d|d] eqn:E; cbn [fst snd].
  - rewrite Z.min_l by lia. rewrite Z.sub_diag. split; [reflexivity|lia].
  - rewrite Z.min_l by lia. rewrite Z.sub_diag. split; [reflexivity|lia].
  - rewrite Z.min_r by lia. split; [reflexivity|].
    rewrite Pos_iter_xO. f_equal. f_equal. lia.
Qed.

Lemma Zdigits2_mul_pow2 m k :
  0 < m -> 0 <= k -> Zdigits2 (m * 2 ^ k) = Zdigits2 m + k.
Proof.
  intros Hm Hk. destruct (Zdigits2_bounds m Hm) as [H1 H2].
  assert (Hd : 0 < Zdigits2 m) by (destruct m; simpl; lia).
  pose proof (pow2_pos k Hk).
  apply Zdigits2_unique; [lia|].
  replace (Zdigits2 m + k - 1) with (Zdigits2 m - 1 + k) by lia.
  rewrite !Z.pow_add_r by lia. nia.
Qed.


Lemma qle_shift_l k N D e N2 D2 e2 :
  0 <= k -> qle (N * 2 ^ k) D (e - k) N2 D2 e2 <-> qle N D e N2 D2 e2.
Proof.
  intros Hk. set (t := Z.min (e - k) e2).
  rewrite (qle_at t (N * 2 ^ k)) by (unfold t; lia).
  rewrite (qle_at t N) by (unfold t; lia).
  rewrite (pow2_split (e - t) k) by (unfold t; lia).
  replace (e - t - k) with (e - k - t) by lia.
  split; intros; nia.
Qed.

Lemma qle_shift_r k N D e N2 D2 e2 :
  0 <= k -> qle N2 D2 e2 (N * 2 ^ k) D (e - k) <-> qle N2 D2 e2 N D e.
Proof.
  intros Hk. set (t := Z.min (e - k) e2).
  rewrite (qle_at t N2 D2 e2 (N * 2 ^ k)) by (unfold t; lia).
  rewrite (qle_at t N2 D2 e2 N) by (unfold t; lia).
  rewrite (pow2_split (e - t) k) by (unfold t; lia).
  replace (e - t - k) with (e - k - t) by lia.
  split; intros; nia.
Qed.

Section Operations.

Variables prec emax : Z.
Hypothesis Hprec : 0 < prec.
Hypothesis Hemax : prec < emax.

Local Abbreviation fexp := (SpecFloat.fexp prec emax).
Local Abbreviation emin := (SpecFloat.emin prec emax).
Local Abbreviation pos_canon := (pos_canon prec emax).
Local Abbreviation nonneg_canon := (nonneg_canon prec emax).

Lemma binary_round_setup mx ex :
  let mz := fst (shl_align mx ex (fexp (Zdigits2 (Z.pos mx) + ex))) in
  let ez := snd (shl_align mx ex (fexp (Zdigits2 (Z.pos mx) + ex))) in
  binary_round prec emax false mx ex = binary_round_aux prec emax false (Z.pos mz) ez loc_Exact /\
  located (Z.pos mz) 1 (Z.pos mz) loc_Exact /\
  ez <= fexp (Zdigits2 (Z.pos mz) + ez) /\
  ez <= ex /\ Z.pos mz = Z.pos mx * 2 ^ (ex - ez).
Proof.
  intros mz ez.
  destruct (shl_align_spec mx ex (fexp (Zdigits2 (Z.pos mx) + ex))) as [He Hm].
  fold mz in Hm. fold ez in He. rewrite <- He in Hm.
  repeat split.
  - unfold binary_round. cbn [Zdigits2] in mz, ez.
    destruct (shl_align mx ex _) as [a b]. reflexivity.
  - unfold located. lia.
  - rewrite Hm, Zdigits2_mul_pow2 by lia.
    replace (Zdigits2 (Z.pos mx) + (ex - ez) + ez) with (Zdigits2 (Z.pos mx) + ex) by lia.
    lia.
  - lia.
  - exact Hm.
Qed.

Lemma binary_round_le mx ex mb eb :
  bounded prec emax mb eb = true ->
  qle (Z.pos mx) 1 ex (Z.pos mb) 1 eb ->
  nonneg_canon (binary_round prec emax false mx ex) /\
  SFleb (binary_round prec emax false mx ex) (S754_finite false mb eb) = true.
Proof.
  intros Hb Hle.
  destruct (binary_round_setup mx ex) as (-> & Hloc & He & Hex & Hm).
  apply binary_round_aux_le with (N := Z.pos (fst (shl_align mx ex (fexp (Zdigits2 (Z.pos mx) + ex))))) (D := 1); auto; try lia.
  rewrite Hm.
  set (ez := snd (shl_align mx ex (fexp (Zdigits2 (Z.pos mx) + ex)))) in *.
  replace ez with (ex - (ex - ez)) at 2 by lia.
  apply qle_shift_l; [lia|exact Hle].
Qed.

Lemma binary_round_ge mx ex mb eb :
  bounded prec emax mb eb = true ->
  qle (Z.pos mb) 1 eb (Z.pos mx) 1 ex ->
  (pos_canon (binary_round prec emax false mx ex) \/
   binary_round prec emax false mx ex = S754_infinity false) /\
  SFleb (S754_finite false mb eb) (binary_round prec emax false mx ex) = true.
Proof.
  intros Hb Hle.
  destruct (binary_round_setup mx ex) as (-> & Hloc & He & Hex & Hm).
  apply binary_round_aux_ge with (N := Z.pos (fst (shl_align mx ex (fexp (Zdigits2 (Z.pos mx) + ex))))) (D := 1); auto; try lia.
  rewrite Hm.
  set (ez := snd (shl_align mx ex (fexp (Zdigits2 (Z.pos mx) + ex)))) in *.
  replace ez with (ex - (ex - ez)) at 2 by lia.
  apply qle_shift_r; [lia|exact Hle].
Qed.




Lemma new_location_located my q r :
  0 < my -> 0 <= r < my ->
  located (my * q + r) my q (new_location my r).
Proof.
  intros Hmy Hr. unfold new_location, new_location_even, new_location_odd.
  destruct (Z.even my) eqn:Hev.
  - destruct (Z.eqb_spec r 0) as [->|Hnz]; [unfold located; lia|].
    destruct (Z.compare_spec (2 * r) my); unfold located; lia.
  - assert (Hodd : Z.odd my = true) by (rewrite <- Z.negb_even, Hev; reflexivity).
    apply Z.odd_spec in Hodd. destruct Hodd as [k Hk].
    destruct (Z.eqb_spec r 0) as [->|Hnz]; [unfold located; lia|].
    destruct (Z.compare_spec (2 * r + 1) my); unfold located; lia.
Qed.

Lemma shiftl_or_zero m s :
  0 <= s ->
  match s with Z.pos _ => Z.shiftl m s | 0 => m | Z.neg _ => 0 end = m * 2 ^ s.
Proof.
  intros Hs. destruct s as [|p|p]; try lia.
  apply Z.shiftl_mul_pow2. lia.
Qed.

Lemma SFdiv_core_setup mx ex my ey q e' l :
  SFdiv_core_binary prec emax (Z.pos mx) ex (Z.pos my) ey = (q, e', l) ->
  0 <= q /\ e' <= ex - ey /\
  located (Z.pos mx * 2 ^ (ex - ey - e')) (Z.pos my) q l /\
  e' <= fexp (Zdigits2 q + e').
Proof.
  unfold SFdiv_core_binary. cbv zeta.
  set (d1 := Zdigits2 (Z.pos mx)). set (d2 := Zdigits2 (Z.pos my)).
  set (e0 := Z.min (fexp (d1 + ex - (d2 + ey))) (ex - ey)).
  set (s := ex - ey - e0).
  assert (Hs : 0 <= s) by (unfold s, e0; lia).
  rewrite shiftl_or_zero by exact Hs.
  pose proof (Z_div_mod (Z.pos mx * 2 ^ s) (Z.pos my) ltac:(lia)) as Hdm.
  destruct (Z.div_eucl (Z.pos mx * 2 ^ s) (Z.pos my)) as [q0 r]. destruct Hdm as [Hdm Hr].
  intros Heq. injection Heq as <- <- <-.
  pose proof (pow2_pos s Hs) as Hps.
  assert (Hq : 0 <= q0) by nia.
  repeat split; auto; try (unfold e0; lia).
  - fold s. rewrite Hdm. apply new_location_located; lia.
  - destruct (Z_le_gt_dec e0 emin) as [Hle|Hgt].
    + pose proof (fexp_ge_emin prec emax (Zdigits2 q0 + e0)). lia.
    + assert (Hs' : prec - d1 + d2 <= s).
      { unfold s, e0, SpecFloat.fexp in *. lia. }
      destruct (Zdigits2_pos_bounds mx) as [X1 X2]. fold (Zdigits2 (Z.pos mx)) in X1, X2.
      destruct (Zdigits2_pos_bounds my) as [Y1 Y2]. fold (Zdigits2 (Z.pos my)) in Y1, Y2.
      fold d1 in X1, X2. fold d2 in Y1, Y2.
      assert (Hd1 : 0 < d1) by (unfold d1; simpl; lia).
      assert (Hd2 : 0 < d2) by (unfold d2; simpl; lia).
      assert (Hpq : 2 ^ (prec - 1) <= q0).
      { assert (Hc : 2 ^ (prec - 1 + d2) <= 2 ^ (d1 - 1 + s)) by (apply pow2_le; lia).
        rewrite !Z.pow_add_r in Hc by lia.
        pose proof (pow2_pos (prec - 1) ltac:(lia)).
        pose proof (pow2_pos (d1 - 1) ltac:(lia)).
        pose proof (pow2_pos d2 ltac:(lia)).
        set (P := 2 ^ (prec - 1)) in *. set (Q := 2 ^ d2) in *.
        set (R := 2 ^ (d1 - 1)) in *. set (S := 2 ^ s) in *.
        assert (R * S <= Z.pos mx * S) by nia.
        assert (Z.pos mx * S < (q0 + 1) * Q) by nia.
        assert (P * Q < (q0 + 1) * Q) by lia.
        nia. }
      assert (Hqpos : 0 < q0) by (pose proof (pow2_pos (prec - 1) ltac:(lia)); lia).
      destruct (Zdigits2_bounds q0 Hqpos) as [_ Q2].
      pose proof (Zdigits2_nonneg q0).
      assert (prec - 1 < Zdigits2 q0).
      { apply (Z.pow_lt_mono_r_iff 2); lia. }
      unfold SpecFloat.fexp. lia.
Qed.

Lemma SFdiv_le mx ex my ey mb eb :
  bounded prec emax mb eb = true ->
  qle (Z.pos mx) (Z.pos my) (ex - ey) (Z.pos mb) 1 eb ->
  nonneg_canon (SFdiv prec emax (S754_finite false mx ex) (S754_finite false my ey)) /\
  SFleb (SFdiv prec emax (S754_finite false mx ex) (S754_finite false my ey))
        (S754_finite false mb eb) = true.
Proof.
  intros Hb Hle. cbn [SFdiv xorb].
  destruct (SFdiv_core_binary prec emax (Z.pos mx) ex (Z.pos my) ey) as [[q e'] l] eqn:Ec.
  destruct (SFdiv_core_setup mx ex my ey q e' l Ec) as (Hq & He & Hloc & Hfe).
  apply binary_round_aux_le with (N := Z.pos mx * 2 ^ (ex - ey - e')) (D := Z.pos my);
    auto; try lia.
  replace e' with (ex - ey - (ex - ey - e')) at 2 by lia.
  apply qle_shift_l; [lia|exact Hle].
Qed.

Lemma SFdiv_ge mx ex my ey mb eb :
  bounded prec emax mb eb = true ->
  qle (Z.pos mb) 1 eb (Z.pos mx) (Z.pos my) (ex - ey) ->
  (pos_canon (SFdiv prec emax (S754_finite false mx ex) (S754_finite false my ey)) \/
   SFdiv prec emax (S754_finite false mx ex) (S754_finite false my ey) = S754_infinity false) /\
  SFleb (S754_finite false mb eb)
        (SFdiv prec emax (S754_finite false mx ex) (S754_finite false my ey)) = true.
Proof.
  intros Hb Hle. cbn [SFdiv xorb].
  destruct (SFdiv_core_binary prec emax (Z.pos mx) ex (Z.pos my) ey) as [[q e'] l] eqn:Ec.
  destruct (SFdiv_core_setup mx ex my ey q e' l Ec) as (Hq & He & Hloc & Hfe).
  apply binary_round_aux_ge with (N := Z.pos mx * 2 ^ (ex - ey - e')) (D := Z.pos my);
    auto; try lia.
  replace e' with (ex - ey - (ex - ey - e')) at 2 by lia.
  apply qle_shift_r; [lia|exact Hle].
Qed.

End Operations.

(** ** Conversions from integers and exact operations *)

Section Exact.

Variables prec emax : Z.
Hypothesis Hprec : 0 < prec.
Hypothesis Hemax : prec < emax.

Local Abbreviation fexp := (SpecFloat.fexp prec emax).
Local Abbreviation emin := (SpecFloat.emin prec emax).
Local Abbreviation pos_canon := (pos_canon prec emax).
Local Abbreviation nonneg_canon := (nonneg_canon prec emax).
Local Abbreviation of_Z n := (binary_normalize prec emax n 0 false).
Local Abbreviation exact_float := (exact_float prec).

Lemma exact_float_mantissa n :
  0 < n < 2 ^ prec ->
  0 <= prec - Zdigits2 n /\
  Z.pos (Z.to_pos (n * 2 ^ (prec - Zdigits2 n))) = n * 2 ^ (prec - Zdigits2 n).
Proof.
  intros [Hn Hlt].
  destruct (Zdigits2_bounds n Hn) as [H1 H2].
  assert (Hd : 0 < Zdigits2 n) by (destruct n; simpl; lia).
  assert (Hk : 0 <= prec - Zdigits2 n).
  { assert (Zdigits2 n - 1 < prec); [|lia].
    apply (Z.pow_lt_mono_r_iff 2); lia. }
  split; auto.
  pose proof (pow2_pos _ Hk). rewrite Z2Pos.id; nia.
Qed.

Lemma exact_float_bounded n :
  0 < n < 2 ^ prec ->
  bounded prec emax (Z.to_pos (n * 2 ^ (prec - Zdigits2 n))) (Zdigits2 n - prec) = true.
Proof.
  intros Hn. destruct (exact_float_mantissa n Hn) as [Hk Hm].
  assert (Hd : 0 < Zdigits2 n) by (destruct n; simpl; lia).
  apply bounded_unfold. rewrite Hm, Zdigits2_mul_pow2 by lia.
  unfold SpecFloat.fexp, SpecFloat.emin. lia.
Qed.

Lemma one_bounded : bounded prec emax (Z.to_pos (2 ^ (prec - 1))) (1 - prec) = true.
Proof.
  assert (H1 : 0 < 1 < 2 ^ prec).
  { split; [lia|]. change 1 with (2 ^ 0) at 1. apply pow2_lt. lia. }
  pose proof (exact_float_bounded 1 H1) as Hb.
  simpl Zdigits2 in Hb. rewrite Z.mul_1_l in Hb. exact Hb.
Qed.

(** A positive integer within a representable bound converts to a positive
    canonical float. *)
Lemma of_Z_pos_canon n mb eb :
  0 < n -> bounded prec emax mb eb = true -> qle n 1 0 (Z.pos mb) 1 eb ->
  pos_canon (of_Z n) /\ SFleb (of_Z n) (S754_finite false mb eb) = true.
Proof.
  intros Hn Hb Hle. destruct n as [|p|p]; try lia. cbn [binary_normalize].
  destruct (binary_round_le prec emax Hprec p 0 mb eb Hb Hle) as [Hc Hl].
  split; auto.
  assert (Hone : qle (Z.pos (Z.to_pos (2 ^ (prec - 1)))) 1 (1 - prec) (Z.pos p) 1 0).
  { pose proof (pow2_pos (prec - 1) ltac:(lia)).
    rewrite Z2Pos.id by lia. apply (qle_at (1 - prec)); try lia.
    rewrite Z.sub_diag, Z.pow_0_r. replace (0 - (1 - prec)) with (prec - 1) by lia. nia. }
  destruct (binary_round_ge prec emax Hprec p 0 _ _ one_bounded Hone) as [[Hp|Hinf] _]; auto.
  rewrite Hinf in Hc. destruct Hc as [Hc|Hc]; [discriminate|contradiction].
Qed.

Lemma of_Z_exact n : 0 < n < 2 ^ prec -> of_Z n = exact_float n.
Proof.
  intros Hn. destruct (exact_float_mantissa n Hn) as [Hk Hm].
  pose proof (exact_float_bounded n Hn) as Hb.
  assert (Hle : qle n 1 0 (Z.pos (Z.to_pos (n * 2 ^ (prec - Zdigits2 n)))) 1 (Zdigits2 n - prec)).
  { rewrite Hm. apply (qle_at (Zdigits2 n - prec)); try lia.
    rewrite Z.sub_diag, Z.pow_0_r.
    replace (0 - (Zdigits2 n - prec)) with (prec - Zdigits2 n) by lia. lia. }
  assert (Hge : qle (Z.pos (Z.to_pos (n * 2 ^ (prec - Zdigits2 n)))) 1 (Zdigits2 n - prec) n 1 0).
  { rewrite Hm. apply (qle_at (Zdigits2 n - prec)); try lia.
    rewrite Z.sub_diag, Z.pow_0_r.
    replace (0 - (Zdigits2 n - prec)) with (prec - Zdigits2 n) by lia. lia. }
  destruct (of_Z_pos_canon n _ _ ltac:(lia) Hb Hle) as [Hc Hl].
  destruct n as [|p|p]; try lia. cbn [binary_normalize] in *.
  destruct (binary_round_ge prec emax Hprec p 0 _ _ Hb Hge) as [_ Hg].
  apply (SFleb_antisym prec emax); auto.
Qed.

Lemma SFtrunc_exact n : 0 < n < 2 ^ prec -> SFtrunc (exact_float n) = n.
Proof.
  intros Hn. destruct (exact_float_mantissa n Hn) as [Hk Hm].
  unfold exact_float, SFtrunc. rewrite Hm.
  destruct (Z.leb_spec 0 (Zdigits2 n - prec)) as [Hz|Hneg].
  - replace (prec - Zdigits2 n) with 0 by lia.
    replace (Zdigits2 n - prec) with 0 by lia. rewrite !Z.pow_0_r. lia.
  - replace (- (Zdigits2 n - prec)) with (prec - Zdigits2 n) by lia.
    apply Z.div_mul. pose proof (pow2_pos _ Hk). lia.
Qed.


(** The quotient of two positive integers, both exactly representable,
    against an integer bound. *)
Lemma SFdiv_of_Z_le a b c :
  0 < a < 2 ^ prec -> 0 < b < 2 ^ prec -> 0 < c < 2 ^ prec ->
  a <= c * b ->
  nonneg_canon (SFdiv prec emax (of_Z a) (of_Z b)) /\
  SFleb (SFdiv prec emax (of_Z a) (of_Z b)) (of_Z c) = true.
Proof.
  intros Ha Hb Hc Hle.
  rewrite (of_Z_exact a Ha), (of_Z_exact b Hb), (of_Z_exact c Hc).
  destruct (exact_float_mantissa a Ha) as [Ka Ma].
  destruct (exact_float_mantissa b Hb) as [Kb Mb].
  destruct (exact_float_mantissa c Hc) as [Kc Mc].
  unfold exact_float.
  apply (SFdiv_le prec emax Hprec); [apply exact_float_bounded; lia|].
  rewrite Ma, Mb, Mc.
  set (ka := prec - Zdigits2 a) in *. set (kb := prec - Zdigits2 b) in *.
  set (kc := prec - Zdigits2 c) in *.
  apply (qle_at (- ka - kc)); try lia.
  replace (Zdigits2 a - prec - (Zdigits2 b - prec) - (- ka - kc)) with (kb + kc) by lia.
  replace (Zdigits2 c - prec - (- ka - kc)) with ka by lia.
  rewrite Z.pow_add_r by lia.
  pose proof (pow2_pos ka Ka). pose proof (pow2_pos kb Kb). pose proof (pow2_pos kc Kc).
  set (A := 2 ^ ka) in *. set (B := 2 ^ kb) in *. set (C := 2 ^ kc) in *.
  replace (a * A * 1 * (B * C)) with (a * (A * B * C)) by ring.
  replace (c * C * (b * B) * A) with (c * b * (A * B * C)) by ring.
  apply Z.mul_le_mono_nonneg_r; nia.
Qed.

End Exact.

(** ** A quotient of positive floats is never a NaN *)

Section NotNaN.

Variables prec emax : Z.
Hypothesis Hprec : 0 < prec.
Hypothesis Hemax : prec < emax.

Local Abbreviation fexp := (SpecFloat.fexp prec emax).

Lemma binary_round_aux_not_nan m e l N D :
  0 < D -> 0 <= m -> located N D m l ->
  e <= fexp (Zdigits2 m + e) ->
  binary_round_aux prec emax false m e l <> S754_nan.
Proof.
  intros HD Hm H He.
  destruct (binary_round_aux_spec prec emax Hprec false m e l N D HD Hm H He)
    as (m1 & l1 & m3 & e3 & Hl1 & Hm1 & Hd1 & Hz1 & He3 & Hv & Hc3 & Hr).
  rewrite Hr.
  pose proof (round_nearest_even_bounds m1 l1) as Hrb.
  pose proof (pow2_pos (e3 - fexp (Zdigits2 m + e)) ltac:(lia)) as Hp3.
  assert (Hm3 : 0 <= m3) by nia.
  destruct m3 as [|p|p]; try lia; [discriminate|].
  destruct (e3 <=? emax - prec); discriminate.
Qed.

Lemma SFdiv_pos_not_nan mx ex my ey :
  SFdiv prec emax (S754_finite false mx ex) (S754_finite false my ey) <> S754_nan.
Proof.
  cbn [SFdiv xorb].
  destruct (SFdiv_core_binary prec emax (Z.pos mx) ex (Z.pos my) ey) as [[q e'] l] eqn:Ec.
  destruct (SFdiv_core_setup prec emax Hprec mx ex my ey q e' l Ec) as (Hq & He & Hloc & Hfe).
  apply binary_round_aux_not_nan with (N := Z.pos mx * 2 ^ (ex - ey - e')) (D := Z.pos my);
    auto; lia.
Qed.

End NotNaN.

(** * Integers, rectangles and pixel buffers *)

Lemma int_small z : in_int z -> int z = z.
Proof.
  unfold in_int, int. intros H. rewrite Z.mod_small; lia.
Qed.

Lemma uint64_small z : 0 <= z < 2 ^ 64 -> uint64 z = z.
Proof. intros. unfold uint64. now apply Z.mod_small. Qed.

Lemma int_range z : in_int (int z).
Proof.
  unfold in_int, int. pose proof (Z.mod_pos_bound (z + 2 ^ 63) (2 ^ 64) ltac:(lia)). lia.
Qed.

Lemma Point_In_spec x y r :
  Point_In (mkPoint x y) r = true <->
  X (Min r) <= x < X (Max r) /\ Y (Min r) <= y < Y (Max r).
Proof.
  unfold Point_In. cbn [X Y].
  rewrite !andb_true_iff, !Z.leb_le, !Z.ltb_lt. lia.
Qed.

(** What the size check of [NewRGBA] establishes. *)
Lemma NewRGBA_Some r p :
  rect_ok r -> NewRGBA r = Some p ->
  p = mkRGBAImage (replicate (Z.to_nat (4 * width r * height r)) 0) (int (4 * width r)) r /\
  Dx r = width r /\ Dy r = height r /\
  0 <= width r /\ 0 <= height r /\ 4 * width r * height r < 2 ^ 63.
Proof.
  intros (H1 & H2 & H3 & H4 & H5 & H6). unfold NewRGBA, mul3NonNeg, Dx, Dy, width, height.
  unfold in_int in *.
  set (w := X (Max r) - X (Min r)) in *. set (h := Y (Max r) - Y (Min r)) in *.
  assert (Hw : int w = w \/ int w < 0).
  { destruct (Z_lt_le_dec w (2 ^ 63)); [left; apply int_small; unfold in_int; lia|right].
    unfold int. replace (w + 2 ^ 63) with (w - 2 ^ 63 + 1 * 2 ^ 64) by lia.
    rewrite Z.mod_add by lia. rewrite Z.mod_small; lia. }
  assert (Hh : int h = h \/ int h < 0).
  { destruct (Z_lt_le_dec h (2 ^ 63)); [left; apply int_small; unfold in_int; lia|right].
    unfold int. replace (h + 2 ^ 63) with (h - 2 ^ 63 + 1 * 2 ^ 64) by lia.
    rewrite Z.mod_add by lia. rewrite Z.mod_small; lia. }
  destruct (4 <? 0) eqn:E4; [discriminate|]. cbn [orb].
  destruct (Z.ltb_spec (int w) 0) as [Hn|Hp]; cbn [orb]; [discriminate|].
  destruct (Z.ltb_spec (int h) 0) as [Hn'|Hp']; [discriminate|].
  destruct Hw as [Hw|Hw]; [|lia]. destruct Hh as [Hh|Hh]; [|lia].
  rewrite Hw, Hh.
  destruct (Z.leb_spec (2 ^ 64) (4 * w)); [discriminate|].
  destruct (Z.leb_spec (2 ^ 64) (4 * w * h)); [discriminate|].
  destruct (Z.leb_spec (2 ^ 63) (4 * w * h)); [discriminate|].
  destruct (Z.ltb_spec (4 * w * h) 0) as [Hneg|Hnn]; [discriminate|].
  intros [= <-].
  split_and!; auto; lia.
Qed.


Lemma NewRGBA_wf r p :
  rect_ok r -> NewRGBA r = Some p ->
  wf_rgba p /\ RGBA_Rect p = r /\ Dx r = width r /\ Dy r = height r /\
  forall i, (i < length (Pix p))%nat -> Pix p !!! i = 0.
Proof.
  intros Hr Hp. destruct (NewRGBA_Some r p Hr Hp) as (-> & Hx & Hy & Hw & Hh & Hs).
  unfold wf_rgba. cbn [RGBA_Rect Stride Pix]. rewrite length_replicate.
  split_and!; auto; try lia.
  intros i Hi. now apply lookup_total_replicate_2.
Qed.

(** Offsets of the pixels of a well-formed image. *)
Lemma PixOffset_in p x y :
  wf_rgba p -> Point_In (mkPoint x y) (RGBA_Rect p) = true ->
  PixOffset p x y =
    4 * ((y - Y (Min (RGBA_Rect p))) * width (RGBA_Rect p) + (x - X (Min (RGBA_Rect p)))) /\
  0 <= (y - Y (Min (RGBA_Rect p))) * width (RGBA_Rect p) + (x - X (Min (RGBA_Rect p)))
    < width (RGBA_Rect p) * height (RGBA_Rect p).
Proof.
  intros (Hr & Hst & Hw & Hh & Hlen & Hsz) Hin.
  apply Point_In_spec in Hin. destruct Hin as [Hx Hy].
  destruct Hr as (H1 & H2 & H3 & H4 & H5 & H6).
  unfold PixOffset, width, height, in_int in *.
  set (w := X (Max (RGBA_Rect p)) - X (Min (RGBA_Rect p))) in *.
  set (h := Y (Max (RGBA_Rect p)) - Y (Min (RGBA_Rect p))) in *.
  set (dx := x - X (Min (RGBA_Rect p))). set (dy := y - Y (Min (RGBA_Rect p))).
  assert (Hdx : 0 <= dx < w) by (unfold dx, w; lia).
  assert (Hdy : 0 <= dy < h) by (unfold dy, h; lia).
  assert (Hrow : dy * w + w <= w * h) by nia.
  assert (Hst' : Stride p = 4 * w).
  { rewrite Hst. apply int_small. unfold in_int. nia. }
  rewrite Hst'.
  rewrite (int_small dy) by (unfold in_int; nia).
  rewrite (int_small dx) by (unfold in_int; nia).
  rewrite (int_small (dy * (4 * w))) by (unfold in_int; nia).
  rewrite (int_small (dx * 4)) by (unfold in_int; nia).
  rewrite int_small by (unfold in_int; nia).
  split; nia.
Qed.

Lemma pixel_index_inj w x y x' y' :
  0 <= x < w -> 0 <= x' < w -> 0 <= y -> 0 <= y' ->
  y * w + x = y' * w + x' -> x = x' /\ y = y'.
Proof.
  intros Hx Hx' Hy Hy' He.
  assert (y = y') by nia. subst. lia.
Qed.

Lemma length_store4 pix i c : length (store4 pix i c) = length pix.
Proof. unfold store4. now rewrite !length_insert. Qed.

Lemma load4_store4_same pix i c :
  0 <= i -> (Z.to_nat (i + 3) < length pix)%nat ->
  load4 (store4 pix i c) i = c.
Proof.
  intros Hi Hlen. unfold load4, store4. destruct c as [r g b a]. cbn [R G B A].
  f_equal.
  - rewrite !list_lookup_total_insert_ne by lia.
    apply list_lookup_total_insert_eq. lia.
  - rewrite !list_lookup_total_insert_ne by lia.
    apply list_lookup_total_insert_eq. rewrite !length_insert. lia.
  - rewrite !list_lookup_total_insert_ne by lia.
    apply list_lookup_total_insert_eq. rewrite !length_insert. lia.
  - apply list_lookup_total_insert_eq. rewrite !length_insert. lia.
Qed.

Lemma load4_store4_other pix i j c :
  0 <= i -> 0 <= j -> (i + 4 <= j \/ j + 4 <= i) ->
  load4 (store4 pix i c) j = load4 pix j.
Proof.
  intros Hi Hj Hd. unfold load4, store4.
  f_equal; rewrite !list_lookup_total_insert_ne by lia; reflexivity.
Qed.

Lemma PixOffset_poke p x y c x' y' : PixOffset (poke p x y c) x' y' = PixOffset p x' y'.
Proof. reflexivity. Qed.

Lemma RGBA_Set_poke p x y c :
  Point_In (mkPoint x y) (RGBA_Rect p) = true -> RGBA_Set p x y c = poke p x y c.
Proof. intros H. unfold RGBA_Set. now rewrite H. Qed.

(** A store at a pixel of the rectangle changes this pixel and no other. *)
Lemma poke_spec p x y c :
  wf_rgba p -> Point_In (mkPoint x y) (RGBA_Rect p) = true ->
  wf_rgba (poke p x y c) /\ RGBA_Rect (poke p x y c) = RGBA_Rect p /\
  forall x' y',
    RGBAAt (poke p x y c) x' y' =
    if (x' =? x) && (y' =? y) then c else RGBAAt p x' y'.
Proof.
  intros Hwf Hin.
  destruct (PixOffset_in p x y Hwf Hin) as [Hoff Hidx].
  pose proof Hwf as (Hr & Hst & Hw & Hh & Hlen & Hsz).
  split_and!.
  - unfold wf_rgba, poke. cbn [RGBA_Rect Stride Pix]. rewrite length_store4. auto.
  - reflexivity.
  - intros x' y'. unfold RGBAAt. cbn [RGBA_Rect poke Pix].
    fold (poke p x y c). rewrite PixOffset_poke.
    destruct (Point_In (mkPoint x' y') (RGBA_Rect p)) eqn:Hin'.
    + destruct (PixOffset_in p x' y' Hwf Hin') as [Hoff' Hidx'].
      apply Point_In_spec in Hin, Hin'.
      destruct ((x' =? x) && (y' =? y)) eqn:E.
      * apply andb_true_iff in E. destruct E as [Ex Ey].
        apply Z.eqb_eq in Ex, Ey. subst x' y'.
        apply load4_store4_same; lia.
      * apply load4_store4_other; try lia.
        rewrite Hoff, Hoff'.
        assert (Hne : (y - Y (Min (RGBA_Rect p))) * width (RGBA_Rect p) + (x - X (Min (RGBA_Rect p)))
                   <> (y' - Y (Min (RGBA_Rect p))) * width (RGBA_Rect p) + (x' - X (Min (RGBA_Rect p)))).
        { intros Heq. apply pixel_index_inj in Heq; unfold width; lia. }
        lia.
    + destruct ((x' =? x) && (y' =? y)) eqn:E; auto.
      apply andb_true_iff in E. destruct E as [Ex Ey].
      apply Z.eqb_eq in Ex, Ey. subst x' y'. congruence.
Qed.

Lemma RGBA_Set_spec p x y c :
  wf_rgba p -> Point_In (mkPoint x y) (RGBA_Rect p) = true ->
  wf_rgba (RGBA_Set p x y c) /\ RGBA_Rect (RGBA_Set p x y c) = RGBA_Rect p /\
  forall x' y',
    RGBAAt (RGBA_Set p x y c) x' y' =
    if (x' =? x) && (y' =? y) then c else RGBAAt p x' y'.
Proof. intros Hwf Hin. rewrite RGBA_Set_poke by assumption. now apply poke_spec. Qed.

(** ** Loops over the pixels of a rectangle *)

Lemma foldl_proj {S T E : Type} (f : S -> E -> S) (g : T -> E -> T) (pr : S -> T) :
  (forall s e, pr (f s e) = g (pr s) e) ->
  forall l s, pr (foldl f s l) = foldl g (pr s) l.
Proof.
  intros H l. induction l as [|e l IH]; intros s; cbn [foldl]; [reflexivity|].
  now rewrite IH, H.
Qed.

Lemma foldl_ext_in {S E : Type} (f g : S -> E -> S) (l : list E) (s : S) :
  (forall s e, In e l -> f s e = g s e) -> foldl f s l = foldl g s l.
Proof.
  revert s. induction l as [|e l IH]; intros s H; cbn [foldl]; [reflexivity|].
  rewrite H by (left; reflexivity). apply IH. intros. apply H. now right.
Qed.

(** Two nested [for] loops are one loop over the pixels. *)
Lemma for_range_pixels {S : Type} (r : Rectangle) (body : Z -> Z -> S -> S) (s : S) :
  for_range (Y (Min r)) (Y (Max r))
    (fun y s => for_range (X (Min r)) (X (Max r)) (fun x s => body x y s) s) s =
  foldl (fun s q => body (fst q) (snd q) s) s (pixels r).
Proof.
  unfold for_range, pixels.
  generalize (seqZ (Y (Min r)) (Y (Max r) - Y (Min r))) as ys.
  generalize (seqZ (X (Min r)) (X (Max r) - X (Min r))) as xs.
  intros xs ys. revert s.
  induction ys as [|y ys IH]; intros s; cbn [foldl map concat]; [reflexivity|].
  rewrite foldl_app, <- IH. f_equal.
  clear. revert s. induction xs as [|x xs IHx]; intros s; cbn [foldl map]; [reflexivity|].
  apply IHx.
Qed.

Lemma In_pixels r x y :
  In (x, y) (pixels r) <-> Point_In (mkPoint x y) r = true.
Proof.
  rewrite Point_In_spec. unfold pixels. rewrite in_concat. split.
  - intros (l & Hl & Hin). apply in_map_iff in Hl. destruct Hl as (y0 & <- & Hy).
    apply in_map_iff in Hin. destruct Hin as (x0 & [= <- <-] & Hx).
    apply list_elem_of_In, elem_of_seqZ in Hx, Hy. lia.
  - intros [Hx Hy].
    exists (map (fun x => (x, y)) (seqZ (X (Min r)) (X (Max r) - X (Min r)))). split.
    + apply in_map_iff. exists y. split; auto.
      apply list_elem_of_In, elem_of_seqZ. lia.
    + apply in_map_iff. exists x. split; auto.
      apply list_elem_of_In, elem_of_seqZ. lia.
Qed.

Lemma length_pixels r :
  rect_ok r -> Z.of_nat (length (pixels r)) = width r * height r.
Proof.
  intros (_ & _ & _ & _ & Hx & Hy). unfold pixels, width, height.
  generalize (length_seqZ (Y (Min r)) (Y (Max r) - Y (Min r))).
  generalize (length_seqZ (X (Min r)) (X (Max r) - X (Min r))).
  generalize (seqZ (Y (Min r)) (Y (Max r) - Y (Min r))) as ys.
  generalize (seqZ (X (Min r)) (X (Max r) - X (Min r))) as xs.
  intros xs ys Hlx Hly.
  assert (Hc : forall ys : list Z,
             length (concat (map (fun y : Z => map (fun x : Z => (x, y)) xs) ys))
             = (length ys * length xs)%nat).
  { clear. induction ys as [|y ys IH]; cbn [map concat]; [reflexivity|].
    rewrite length_app, IH, length_map. simpl. lia. }
  rewrite Hc, Hlx, Hly. nia.
Qed.

Lemma classic_in (x y : Z) (ps : list (Z * Z)) : In (x, y) ps \/ ~ In (x, y) ps.
Proof.
  destruct (in_dec (fun a b : Z * Z => decide (a = b)) (x, y) ps); auto.
Qed.

(** Painting: every pixel of the list receives its colour, the other
    pixels keep theirs. *)
Section Paint.

Variable W : RGBAImage -> Z -> Z -> RGBA -> RGBAImage.
Hypothesis W_spec : forall p x y c,
  wf_rgba p -> Point_In (mkPoint x y) (RGBA_Rect p) = true ->
  wf_rgba (W p x y c) /\ RGBA_Rect (W p x y c) = RGBA_Rect p /\
  forall x' y',
    RGBAAt (W p x y c) x' y' = if (x' =? x) && (y' =? y) then c else RGBAAt p x' y'.

Variable col : Z -> Z -> RGBA.

Lemma paint_spec ps : forall p,
  wf_rgba p ->
  (forall x y, In (x, y) ps -> Point_In (mkPoint x y) (RGBA_Rect p) = true) ->
  let p' := foldl (fun p q => W p (fst q) (snd q) (col (fst q) (snd q))) p ps in
  wf_rgba p' /\ RGBA_Rect p' = RGBA_Rect p /\
  (forall x y, In (x, y) ps -> RGBAAt p' x y = col x y) /\
  (forall x y, ~ In (x, y) ps -> RGBAAt p' x y = RGBAAt p x y).
Proof.
  induction ps as [|[a b] ps IH]; intros p Hwf Hin; cbn [foldl fst snd].
  - split_and!; auto. intros x y [].
  - destruct (W_spec p a b (col a b) Hwf (Hin a b (or_introl eq_refl)))
      as (Hwf1 & Hr1 & Hat1).
    specialize (IH (W p a b (col a b)) Hwf1).
    destruct IH as (Hwf2 & Hr2 & Hin2 & Hout2).
    { intros x y Hxy. rewrite Hr1. apply Hin. now right. }
    split_and!; auto; try congruence.
    + intros x y Hxy.
      destruct (classic_in x y ps) as [Hi|Hni]; [now apply Hin2|].
      rewrite (Hout2 x y Hni), Hat1.
      destruct Hxy as [[= <- <-]|Hxy]; [|contradiction].
      now rewrite !Z.eqb_refl.
    + intros x y Hxy.
      rewrite (Hout2 x y) by (intros Hc; apply Hxy; now right).
      rewrite Hat1.
      destruct ((x =? a) && (y =? b)) eqn:E; auto.
      apply andb_true_iff in E. rewrite !Z.eqb_eq in E. destruct E as [-> ->].
      exfalso. apply Hxy. now left.
Qed.

End Paint.

(** * The difference engine *)

Lemma absDiff_sym a b : absDiff a b = absDiff b a.
Proof.
  unfold absDiff.
  destruct (Z.ltb_spec b a), (Z.ltb_spec a b); try reflexivity; try lia.
  assert (a = b) by lia. subst. reflexivity.
Qed.

Lemma delta_sym a b : delta a b = delta b a.
Proof. unfold delta. now rewrite absDiff_sym. Qed.

(** A delta of two 16-bit channels is an 8-bit value. *)
Lemma delta_range a b : 0 <= a <= 65535 -> 0 <= b <= 65535 -> 0 <= delta a b <= 255.
Proof.
  intros Ha Hb. unfold delta, absDiff, uint32.
  rewrite Z.shiftr_div_pow2 by lia.
  destruct (Z.ltb_spec b a).
  - rewrite Z.mod_small by lia.
    assert ((a - b) / 2 ^ 8 < 256) by (apply Z.div_lt_upper_bound; lia).
    assert (0 <= (a - b) / 2 ^ 8) by (apply Z.div_pos; lia). lia.
  - rewrite Z.mod_small by lia.
    assert ((b - a) / 2 ^ 8 < 256) by (apply Z.div_lt_upper_bound; lia).
    assert (0 <= (b - a) / 2 ^ 8) by (apply Z.div_pos; lia). lia.
Qed.

Lemma pixel_delta_range img1 img22 x y :
  colors_ok img1 -> colors_ok img22 ->
  0 <= delta_r img1 img22 x y <= 255 /\
  0 <= delta_g img1 img22 x y <= 255 /\
  0 <= delta_b img1 img22 x y <= 255.
Proof.
  intros H1 H2. destruct (H1 x y) as (Hr & Hg & Hb & _).
  destruct (H2 x y) as (Hr' & Hg' & Hb' & _).
  unfold delta_r, delta_g, delta_b. split_and!; apply delta_range; lia.
Qed.

(** The three components of the loop state evolve on their own. *)
Lemma diff_pixel_image img1 img22 mono x y st :
  fst (fst (diff_pixel img1 img22 mono x y st)) =
  RGBA_Set (fst (fst st)) x y (diff_color img1 img22 mono x y).
Proof.
  destruct st as [[d t] n]. unfold diff_pixel, diff_color, delta_r, delta_g, delta_b.
  destruct mono; [|reflexivity].
  destruct ((_ =? 0) && (_ =? 0) && (_ =? 0)); reflexivity.
Qed.

Lemma diff_pixel_total img1 img22 mono x y st :
  snd (fst (diff_pixel img1 img22 mono x y st)) =
  uint64 (snd (fst st) +
          uint64 (uint64 (delta_r img1 img22 x y) + uint64 (delta_g img1 img22 x y)
                  + uint64 (delta_b img1 img22 x y))).
Proof.
  destruct st as [[d t] n]. unfold diff_pixel, delta_r, delta_g, delta_b.
  destruct mono; [|reflexivity].
  destruct ((_ =? 0) && (_ =? 0) && (_ =? 0)); reflexivity.
Qed.

Lemma diff_pixel_count img1 img22 mono x y st :
  snd (diff_pixel img1 img22 mono x y st) = uint64 (snd st + 1).
Proof.
  destruct st as [[d t] n]. unfold diff_pixel.
  destruct mono; [|reflexivity].
  destruct ((_ =? 0) && (_ =? 0) && (_ =? 0)); reflexivity.
Qed.

Lemma ComputeImageDiffFast_unfold rz img1 img2 algo mono :
  ComputeImageDiffFast rz img1 img2 algo mono =
  match NewRGBA (Bounds img1) with
  | None => None
  | Some diff0 =>
      let st := diff_loops img1 (reconcile rz img1 img2 algo) mono diff0 in
      Some (fst (fst st),
            F64.div (F64.of_Z (snd (fst st))) (F64.of_Z (uint64 (snd st * 3))),
            snd st)
  end.
Proof.
  unfold ComputeImageDiffFast, diff_loops.
  destruct (NewRGBA (Bounds img1)) as [diff0|]; [|reflexivity].
  rewrite (for_range_pixels (Bounds img1)
             (fun x y st => diff_pixel img1 (reconcile rz img1 img2 algo) mono x y st)).
  destruct (foldl _ _ _) as [[d t] n]. reflexivity.
Qed.

Lemma diff_loops_image img1 img22 mono diff0 :
  fst (fst (diff_loops img1 img22 mono diff0)) =
  foldl (fun p q => RGBA_Set p (fst q) (snd q) (diff_color img1 img22 mono (fst q) (snd q)))
        diff0 (pixels (Bounds img1)).
Proof.
  unfold diff_loops.
  rewrite (foldl_proj _ (fun p q => RGBA_Set p (fst q) (snd q)
                                      (diff_color img1 img22 mono (fst q) (snd q)))
                      (fun st => fst (fst st))); [reflexivity|].
  intros s e. apply diff_pixel_image.
Qed.

Lemma diff_loops_total img1 img22 mono diff0 :
  snd (fst (diff_loops img1 img22 mono diff0)) =
  foldl (fun t q => uint64 (t + uint64 (uint64 (delta_r img1 img22 (fst q) (snd q))
                                        + uint64 (delta_g img1 img22 (fst q) (snd q))
                                        + uint64 (delta_b img1 img22 (fst q) (snd q)))))
        0 (pixels (Bounds img1)).
Proof.
  unfold diff_loops.
  rewrite (foldl_proj _ (fun t q => uint64 (t + uint64 (uint64 (delta_r img1 img22 (fst q) (snd q))
                                        + uint64 (delta_g img1 img22 (fst q) (snd q))
                                        + uint64 (delta_b img1 img22 (fst q) (snd q)))))
                      (fun st => snd (fst st))); [reflexivity|].
  intros s e. apply diff_pixel_total.
Qed.

Lemma diff_loops_count img1 img22 mono diff0 :
  snd (diff_loops img1 img22 mono diff0) =
  foldl (fun n (_ : Z * Z) => uint64 (n + 1)) 0 (pixels (Bounds img1)).
Proof.
  unfold diff_loops.
  rewrite (foldl_proj _ (fun n (_ : Z * Z) => uint64 (n + 1)) snd); [reflexivity|].
  intros s e. apply diff_pixel_count.
Qed.

Lemma count_loop {E : Type} (l : list E) n0 :
  0 <= n0 -> n0 + Z.of_nat (length l) < 2 ^ 64 ->
  foldl (fun n (_ : E) => uint64 (n + 1)) n0 l = n0 + Z.of_nat (length l).
Proof.
  revert n0. induction l as [|e l IH]; intros n0 H0 Hb; cbn [foldl length] in *.
  - lia.
  - rewrite Nat2Z.inj_succ in *. rewrite uint64_small by lia.
    rewrite IH by lia. lia.
Qed.

Lemma total_loop {E : Type} (f : E -> Z) (g : E -> Z) (l : list E) t0 :
  (forall e, In e l -> g e = f e /\ 0 <= f e <= 765) ->
  0 <= t0 -> t0 + 765 * Z.of_nat (length l) < 2 ^ 64 ->
  foldl (fun t e => uint64 (t + g e)) t0 l = t0 + Zsum (map f l) /\
  0 <= Zsum (map f l) <= 765 * Z.of_nat (length l).
Proof.
  revert t0. induction l as [|e l IH]; intros t0 Hf H0 Hb; cbn [foldl length map Zsum fold_right] in *.
  - lia.
  - rewrite Nat2Z.inj_succ in *.
    destruct (Hf e (or_introl eq_refl)) as [Hg Hr].
    rewrite Hg, uint64_small by lia.
    destruct (IH (t0 + f e)) as [IH1 IH2]; try lia.
    { intros e' He'. apply Hf. now right. }
    fold (Zsum (map f l)). rewrite IH1. lia.
Qed.

(** * The cropper *)






(** ** Amplification *)

Lemma forallb_seqZ (P : Z -> bool) lo n :
  forallb P (seqZ lo n) = true -> forall d, lo <= d < lo + n -> P d = true.
Proof.
  intros H d Hd. rewrite forallb_forall in H. apply H.
  apply list_elem_of_In, elem_of_seqZ. lia.
Qed.

(** [uint8(math.Min(float64(d) * 5.0, 255))] on an 8-bit delta. *)
Lemma amplify_spec d :
  0 <= d <= 255 -> float_to_uint8 (amplify d) = Z.min (5 * d) 255.
Proof.
  intros Hd. apply Z.eqb_eq.
  apply (forallb_seqZ (fun d => float_to_uint8 (amplify d) =? Z.min (5 * d) 255) 0 256);
    [vm_compute; reflexivity|lia].
Qed.

Lemma delta_spec a b :
  0 <= a <= 65535 -> 0 <= b <= 65535 -> delta a b = spec_delta a b.
Proof.
  intros Ha Hb. unfold delta, spec_delta, absDiff, uint32.
  rewrite Z.shiftr_div_pow2 by lia.
  destruct (Z.ltb_spec b a).
  - rewrite Z.mod_small by lia. f_equal. lia.
  - rewrite Z.mod_small by lia. f_equal. lia.
Qed.

Lemma reconcile_colors_ok rz img1 img2 algo :
  resize_ok rz -> colors_ok img2 -> colors_ok (reconcile rz img1 img2 algo).
Proof.
  intros Hrz H2. unfold reconcile.
  destruct (negb _); [apply Hrz|]; assumption.
Qed.

(** The visualization: every pixel of the bounds holds the colour of the
    loop body at this pixel. *)
Lemma ComputeImageDiffFast_pixels rz img1 img2 algo mono :
  rect_ok (Bounds img1) -> NewRGBA (Bounds img1) <> None ->
  exists r, ComputeImageDiffFast rz img1 img2 algo mono = Some r /\
    RGBA_Rect (diff_image r) = Bounds img1 /\
    forall x y, Point_In (mkPoint x y) (Bounds img1) = true ->
      RGBAAt (diff_image r) x y = diff_color img1 (reconcile rz img1 img2 algo) mono x y.
Proof.
  intros Hr Hnew. rewrite ComputeImageDiffFast_unfold.
  destruct (NewRGBA (Bounds img1)) as [diff0|] eqn:E; [|congruence].
  destruct (NewRGBA_wf _ _ Hr E) as (Hwf & Hrect & _).
  eexists. split; [reflexivity|]. unfold diff_image. cbn [fst snd].
  rewrite diff_loops_image.
  destruct (paint_spec RGBA_Set RGBA_Set_spec
              (diff_color img1 (reconcile rz img1 img2 algo) mono)
              (pixels (Bounds img1)) diff0 Hwf) as (_ & Hr' & Hin & _).
  { intros x y Hxy. rewrite Hrect. now apply In_pixels. }
  split; [congruence|].
  intros x y Hxy. apply Hin. now apply In_pixels.
Qed.

(** ** The concrete inputs are well-formed *)

Ltac color_ok_tac := cbv; intuition discriminate.

Lemma colors_ok_white_1x1 : colors_ok img_white_1x1.
Proof. intros x y. color_ok_tac. Qed.

Lemma colors_ok_black_1x1 : colors_ok img_black_1x1.
Proof. intros x y. color_ok_tac. Qed.

Lemma colors_ok_white_black : colors_ok img_white_black.
Proof. intros x y. cbn [At img_white_black]. destruct (x =? 0); color_ok_tac. Qed.

Lemma colors_ok_grey_2x2 : colors_ok img_grey_2x2.
Proof. intros x y. cbn [At img_grey_2x2]. destruct (x =? y); color_ok_tac. Qed.

Lemma colors_ok_empty : colors_ok img_empty.
Proof. intros x y. color_ok_tac. Qed.

Lemma resize_ok_nearest : resize_ok nearest_resize.
Proof.
  intros img w h f H x y. cbn [At nearest_resize].
  destruct (Point_In _ _); [apply H|color_ok_tac].
Qed.

Lemma rect_ok_Rect w h : 0 <= w < 2 ^ 62 -> 0 <= h < 2 ^ 62 -> rect_ok (Rect 0 0 w h).
Proof.
  intros Hw Hh. unfold Rect.
  destruct (Z.ltb_spec w 0); [lia|]. destruct (Z.ltb_spec h 0); [lia|].
  unfold rect_ok, in_int. cbn [X Y Min Max]. lia.
Qed.

(** * The difference engine *)

(** C1.  For every pair of images and every pixel inside the bounds of the
    first one, the difference image computed without the monochrome flag
    holds, per channel, the amplified delta
    [min (5 * (|c1 - c2| >> 8)) 255] of the two 16-bit channel values, the
    shift dropping the low bits, and its alpha is 255.  The call returns
    whenever the difference image can be allocated. *)
Theorem C1_amplified_difference rz img1 img2 algo :
  rect_ok (Bounds img1) -> NewRGBA (Bounds img1) <> None ->
  resize_ok rz -> colors_ok img1 -> colors_ok img2 ->
  exists r, ComputeImageDiffFast rz img1 img2 algo false = Some r /\
    forall x y, Point_In (mkPoint x y) (Bounds img1) = true ->
      let c1 := At img1 x y in
      let c2 := At (reconcile rz img1 img2 algo) x y in
      RGBAAt (diff_image r) x y =
      mkRGBA (spec_amplified (RGBA_r c1) (RGBA_r c2))
             (spec_amplified (RGBA_g c1) (RGBA_g c2))
             (spec_amplified (RGBA_b c1) (RGBA_b c2))
             255.
Proof.
  intros Hr Hnew Hrz H1 H2.
  pose proof (reconcile_colors_ok rz img1 img2 algo Hrz H2) as H22.
  destruct (ComputeImageDiffFast_pixels rz img1 img2 algo false Hr Hnew) as (r & Hc & _ & Hpix).
  exists r. split; [exact Hc|].
  intros x y Hxy c1 c2. rewrite (Hpix x y Hxy).
  destruct (pixel_delta_range img1 _ x y H1 H22) as (Dr & Dg & Db).
  destruct (H1 x y) as (Hr1 & Hg1 & Hb1 & _).
  destruct (H22 x y) as (Hr2 & Hg2 & Hb2 & _).
  unfold diff_color, spec_amplified.
  rewrite !amplify_spec by assumption.
  unfold delta_r, delta_g, delta_b.
  rewrite !delta_spec by assumption. reflexivity.
Qed.


Lemma C1_witness :
  rect_ok (Bounds img_grey_2x2) /\ NewRGBA (Bounds img_grey_2x2) <> None /\
  resize_ok nearest_resize /\ colors_ok img_grey_2x2 /\ colors_ok img_black_1x1 /\
  exists r,
    ComputeImageDiffFast nearest_resize img_grey_2x2 img_black_1x1 Bilinear false = Some r /\
    forall x y, Point_In (mkPoint x y) (Bounds img_grey_2x2) = true ->
      let c1 := At img_grey_2x2 x y in
      let c2 := At (reconcile nearest_resize img_grey_2x2 img_black_1x1 Bilinear) x y in
      RGBAAt (diff_image r) x y =
      mkRGBA (spec_amplified (RGBA_r c1) (RGBA_r c2))
             (spec_amplified (RGBA_g c1) (RGBA_g c2))
             (spec_amplified (RGBA_b c1) (RGBA_b c2))
             255.
Proof.
  assert (H1 : rect_ok (Bounds img_grey_2x2)) by (apply rect_ok_Rect; lia).
  assert (H2 : NewRGBA (Bounds img_grey_2x2) <> None) by (vm_compute; discriminate).
  split_and!; auto using resize_ok_nearest, colors_ok_grey_2x2, colors_ok_black_1x1.
  apply (C1_amplified_difference nearest_resize img_grey_2x2 img_black_1x1 Bilinear);
    auto using resize_ok_nearest, colors_ok_grey_2x2, colors_ok_black_1x1.
Defined.

(** C3.  With the monochrome flag, every pixel of the difference image is
    black when its three truncated channel deltas are zero, and is the fixed
    colour (240, 0, 0) as soon as one of them is not, whatever its
    magnitude; the alpha is 255 in both cases. *)
Theorem C3_monochrome_highlight rz img1 img2 algo :
  rect_ok (Bounds img1) -> NewRGBA (Bounds img1) <> None ->
  resize_ok rz -> colors_ok img1 -> colors_ok img2 ->
  exists r, ComputeImageDiffFast rz img1 img2 algo true = Some r /\
    forall x y, Point_In (mkPoint x y) (Bounds img1) = true ->
      let c1 := At img1 x y in
      let c2 := At (reconcile rz img1 img2 algo) x y in
      RGBAAt (diff_image r) x y =
      if (spec_delta (RGBA_r c1) (RGBA_r c2) =? 0)
         && (spec_delta (RGBA_g c1) (RGBA_g c2) =? 0)
         && (spec_delta (RGBA_b c1) (RGBA_b c2) =? 0)
      then mkRGBA 0 0 0 255
      else mkRGBA 240 0 0 255.
Proof.
  intros Hr Hnew Hrz H1 H2.
  pose proof (reconcile_colors_ok rz img1 img2 algo Hrz H2) as H22.
  destruct (ComputeImageDiffFast_pixels rz img1 img2 algo true Hr Hnew) as (r & Hc & _ & Hpix).
  exists r. split; [exact Hc|].
  intros x y Hxy c1 c2. rewrite (Hpix x y Hxy).
  destruct (H1 x y) as (Hr1 & Hg1 & Hb1 & _).
  destruct (H22 x y) as (Hr2 & Hg2 & Hb2 & _).
  unfold diff_color, delta_r, delta_g, delta_b.
  rewrite !delta_spec by assumption. fold c1 c2.
  destruct (_ && _); reflexivity.
Qed.

Lemma C3_witness :
  rect_ok (Bounds img_grey_2x2) /\ NewRGBA (Bounds img_grey_2x2) <> None /\
  resize_ok nearest_resize /\ colors_ok img_grey_2x2 /\ colors_ok img_black_1x1 /\
  exists r,
    ComputeImageDiffFast nearest_resize img_grey_2x2 img_black_1x1 Bilinear true = Some r /\
    forall x y, Point_In (mkPoint x y) (Bounds img_grey_2x2) = true ->
      let c1 := At img_grey_2x2 x y in
      let c2 := At (reconcile nearest_resize img_grey_2x2 img_black_1x1 Bilinear) x y in
      RGBAAt (diff_image r) x y =
      if (spec_delta (RGBA_r c1) (RGBA_r c2) =? 0)
         && (spec_delta (RGBA_g c1) (RGBA_g c2) =? 0)
         && (spec_delta (RGBA_b c1) (RGBA_b c2) =? 0)
      then mkRGBA 0 0 0 255
      else mkRGBA 240 0 0 255.
Proof.
  assert (H1 : rect_ok (Bounds img_grey_2x2)) by (apply rect_ok_Rect; lia).
  assert (H2 : NewRGBA (Bounds img_grey_2x2) <> None) by (vm_compute; discriminate).
  split_and!; auto using resize_ok_nearest, colors_ok_grey_2x2, colors_ok_black_1x1.
  apply (C3_monochrome_highlight nearest_resize img_grey_2x2 img_black_1x1 Bilinear);
    auto using resize_ok_nearest, colors_ok_grey_2x2, colors_ok_black_1x1.
Defined.

(** C10.  The monochrome flag changes the difference image only: with and
    without it, a call returns the same mean absolute error and the same
    pixel count (and panics on the same inputs). *)
Theorem C10_monochrome_keeps_metric rz img1 img2 algo :
  option_map (fun r => (mae_of r, count_of r))
             (ComputeImageDiffFast rz img1 img2 algo true) =
  option_map (fun r => (mae_of r, count_of r))
             (ComputeImageDiffFast rz img1 img2 algo false).
Proof.
  rewrite !ComputeImageDiffFast_unfold.
  destruct (NewRGBA (Bounds img1)) as [diff0|]; [|reflexivity].
  cbn [option_map]. unfold mae_of, count_of. cbn [fst snd].
  rewrite !diff_loops_total, !diff_loops_count. reflexivity.
Qed.

Lemma Rectangle_Eq_refl r : Rectangle_Eq r r = true.
Proof.
  unfold Rectangle_Eq, Rectangle_eqb, Point_eqb. now rewrite !Z.eqb_refl.
Qed.

(** C9.  When the two images have the same bounds, no resampling
    takes place and the two orders of the arguments return the same mean
    absolute error and the same pixel count. *)
Theorem C9_symmetric_on_equal_bounds rz imgA imgB algo mono :
  Bounds imgA = Bounds imgB ->
  option_map (fun r => (mae_of r, count_of r))
             (ComputeImageDiffFast rz imgA imgB algo mono) =
  option_map (fun r => (mae_of r, count_of r))
             (ComputeImageDiffFast rz imgB imgA algo mono).
Proof.
  intros Hb. rewrite !ComputeImageDiffFast_unfold.
  unfold reconcile. rewrite <- Hb, Rectangle_Eq_refl. cbn [negb].
  destruct (NewRGBA (Bounds imgA)) as [diff0|]; [|reflexivity].
  cbn [option_map]. unfold mae_of, count_of. cbn [fst snd].
  rewrite !diff_loops_total, !diff_loops_count. rewrite <- Hb.
  do 4 f_equal.
  apply foldl_ext_in. intros t [x y] _. unfold delta_r, delta_g, delta_b. cbn [fst snd].
  now rewrite (delta_sym (RGBA_r _)), (delta_sym (RGBA_g _)), (delta_sym (RGBA_b _)).
Qed.

Lemma C9_witness :
  Bounds img_white_1x1 = Bounds img_black_1x1 /\
  option_map (fun r => (mae_of r, count_of r))
             (ComputeImageDiffFast nearest_resize img_white_1x1 img_black_1x1 Bilinear false) =
  option_map (fun r => (mae_of r, count_of r))
             (ComputeImageDiffFast nearest_resize img_black_1x1 img_white_1x1 Bilinear false).
Proof.
  split; [reflexivity|].
  apply (C9_symmetric_on_equal_bounds nearest_resize img_white_1x1 img_black_1x1 Bilinear false).
  reflexivity.
Defined.

(** C9 without the equal bounds: the second image is brought to the bounds
    of the first one, so the two orders compare other pixels.  With the
    nearest-neighbour filter, a one-pixel white image against a two-pixel
    image, white then black, gives 255 over one pixel; the other order
    gives 127.5 over two pixels. *)
Lemma C9_counterexample :
  option_map mae_of
    (ComputeImageDiffFast nearest_resize img_white_1x1 img_white_black NearestNeighbor false)
  = Some (F64.of_Z 255) /\
  option_map mae_of
    (ComputeImageDiffFast nearest_resize img_white_black img_white_1x1 NearestNeighbor false)
  = Some (F64.div (F64.of_Z 255) (F64.of_Z 2)) /\
  option_map mae_of
    (ComputeImageDiffFast nearest_resize img_white_1x1 img_white_black NearestNeighbor false)
  <> option_map mae_of
    (ComputeImageDiffFast nearest_resize img_white_black img_white_1x1 NearestNeighbor false).
Proof.
  split_and!; [vm_compute; reflexivity|vm_compute; reflexivity|vm_compute; discriminate].
Qed.

Lemma F64_prec_pos : 0 < F64.prec.
Proof. reflexivity. Qed.

Lemma F64_prec_emax : F64.prec < F64.emax.
Proof. reflexivity. Qed.

Lemma NewRGBA_fits r :
  rect_ok r -> width r < 2 ^ 61 -> height r < 2 ^ 61 ->
  4 * width r * height r < 2 ^ 63 -> NewRGBA r <> None.
Proof.
  intros (H1 & H2 & H3 & H4 & H5 & H6) Hw Hh Hs.
  unfold NewRGBA, mul3NonNeg, Dx, Dy. unfold width, height in *.
  set (w := X (Max r) - X (Min r)) in *. set (h := Y (Max r) - Y (Min r)) in *.
  rewrite (int_small w), (int_small h) by (unfold in_int; lia).
  destruct (Z.ltb_spec w 0); [lia|]. destruct (Z.ltb_spec h 0); [lia|]. cbn [orb].
  change (4 <? 0) with false. cbn [orb].
  destruct (Z.leb_spec (2 ^ 64) (4 * w)); [lia|].
  destruct (Z.leb_spec (2 ^ 64) (4 * w * h)); [lia|].
  destruct (Z.leb_spec (2 ^ 63) (4 * w * h)); [lia|].
  destruct (Z.ltb_spec (4 * w * h) 0); [nia|]. discriminate.
Qed.

(** The counters after the loops, when nothing wraps around. *)
Lemma diff_loops_counters img1 img22 mono diff0 :
  rect_ok (Bounds img1) ->
  765 * (width (Bounds img1) * height (Bounds img1)) < 2 ^ 64 ->
  colors_ok img1 -> colors_ok img22 ->
  snd (diff_loops img1 img22 mono diff0) = width (Bounds img1) * height (Bounds img1) /\
  snd (fst (diff_loops img1 img22 mono diff0)) = total_delta img1 img22 (Bounds img1) /\
  0 <= total_delta img1 img22 (Bounds img1)
    <= 765 * (width (Bounds img1) * height (Bounds img1)).
Proof.
  intros Hr Hs H1 H22.
  pose proof (length_pixels _ Hr) as Hlen.
  assert (Hwh : 0 <= width (Bounds img1) * height (Bounds img1)) by lia.
  split.
  - rewrite diff_loops_count, count_loop; lia.
  - rewrite diff_loops_total. unfold total_delta.
    destruct (total_loop (fun q => pixel_delta img1 img22 (fst q) (snd q))
                (fun q => uint64 (uint64 (delta_r img1 img22 (fst q) (snd q))
                                  + uint64 (delta_g img1 img22 (fst q) (snd q))
                                  + uint64 (delta_b img1 img22 (fst q) (snd q))))
                (pixels (Bounds img1)) 0) as [Ht Hb]; try lia.
    { intros [x y] _. cbn [fst snd].
      destruct (pixel_delta_range img1 img22 x y H1 H22) as (Dr & Dg & Db).
      unfold pixel_delta.
      rewrite (uint64_small (delta_r img1 img22 x y)),
              (uint64_small (delta_g img1 img22 x y)),
              (uint64_small (delta_b img1 img22 x y)) by lia.
      rewrite uint64_small by lia. lia. }
Qed.

(** What the loops accumulate is the total difference of the
    specification: on 16-bit channels the code's [absDiff] and shift give
    [|c1 - c2| / 2 ^ 8]. *)
Lemma total_delta_spec img1 img22 r :
  colors_ok img1 -> colors_ok img22 ->
  total_delta img1 img22 r = spec_total_delta img1 img22 r.
Proof.
  intros H1 H22. unfold total_delta, spec_total_delta. f_equal.
  apply map_ext. intros [x y]. cbn [fst snd].
  destruct (H1 x y) as (Hr1 & Hg1 & Hb1 & _).
  destruct (H22 x y) as (Hr2 & Hg2 & Hb2 & _).
  unfold pixel_delta, spec_pixel_delta, delta_r, delta_g, delta_b.
  rewrite !delta_spec by assumption. reflexivity.
Qed.

(** C2.  For every pair of images whose first image has non-empty bounds,
    the call returns [pixelCount] equal to width times height of these
    bounds and [meanAbsoluteError] equal to the [float64] quotient of
    [totalDiff] by [pixelCount * 3], where [totalDiff] is the sum, over all
    pixels of these bounds, of the unamplified deltas [|c1 - c2| / 2 ^ 8]
    of the red, green and blue channels of the first image and of the
    second image brought to the first one's bounds; this value lies
    between 0 and 255.  The images have 16-bit channels and at most
    [2 ^ 43] pixels, so that the sum converts to [float64] exactly. *)
Theorem C2_metric rz img1 img2 algo mono :
  rect_ok (Bounds img1) ->
  0 < width (Bounds img1) -> 0 < height (Bounds img1) ->
  width (Bounds img1) * height (Bounds img1) <= 2 ^ 43 ->
  resize_ok rz -> colors_ok img1 -> colors_ok img2 ->
  exists r, ComputeImageDiffFast rz img1 img2 algo mono = Some r /\
    count_of r = width (Bounds img1) * height (Bounds img1) /\
    mae_of r =
      F64.div (F64.of_Z (spec_total_delta img1 (reconcile rz img1 img2 algo) (Bounds img1)))
              (F64.of_Z (count_of r * 3)) /\
    SFleb (F64.of_Z 0) (mae_of r) = true /\
    SFleb (mae_of r) (F64.of_Z 255) = true.
Proof.
  intros Hr Hw Hh Hs Hrz H1 H2.
  pose proof (reconcile_colors_ok rz img1 img2 algo Hrz H2) as H22.
  set (img22 := reconcile rz img1 img2 algo) in *.
  set (P := width (Bounds img1) * height (Bounds img1)) in *.
  assert (HP : 0 < P) by (unfold P; nia).
  assert (Hnew : NewRGBA (Bounds img1) <> None).
  { apply NewRGBA_fits; auto; try (unfold P in *; nia). }
  rewrite ComputeImageDiffFast_unfold. fold img22.
  destruct (NewRGBA (Bounds img1)) as [diff0|]; [|congruence].
  destruct (diff_loops_counters img1 img22 mono diff0 Hr ltac:(fold P; lia) H1 H22)
    as (Hc & Ht & Hb).
  fold P in Hc, Hb.
  rewrite <- (total_delta_spec img1 img22 (Bounds img1) H1 H22).
  set (T := total_delta img1 img22 (Bounds img1)) in *.
  eexists. split; [reflexivity|]. unfold count_of, mae_of. cbn [fst snd].
  rewrite Hc, Ht, uint64_small by lia.
  split; [reflexivity|]. split; [reflexivity|].
  assert (H3P : 0 < P * 3 < 2 ^ F64.prec) by (unfold F64.prec; lia).
  destruct (Z.eq_dec T 0) as [HT0|HTn].
  - rewrite HT0. unfold F64.div, F64.of_Z at 1 3.
    cbn [binary_normalize]. unfold F64.of_Z.
    rewrite (of_Z_exact F64.prec F64.emax F64_prec_pos F64_prec_emax (P * 3) H3P).
    unfold exact_float. cbn [SFdiv xorb]. split; reflexivity.
  - assert (HT : 0 < T < 2 ^ F64.prec) by (unfold F64.prec; lia).
    destruct (SFdiv_of_Z_le F64.prec F64.emax F64_prec_pos F64_prec_emax T (P * 3) 255 HT H3P)
      as [Hnn Hle]; [unfold F64.prec; lia|lia|].
    split; [|exact Hle].
    unfold F64.div, F64.of_Z.
    destruct Hnn as [Hz|Hp]; [rewrite Hz; reflexivity|].
    destruct (SFdiv _ _ _ _) as [| | |[] m e]; try contradiction. reflexivity.
Qed.

Lemma C2_witness :
  rect_ok (Bounds img_grey_2x2) /\
  0 < width (Bounds img_grey_2x2) /\ 0 < height (Bounds img_grey_2x2) /\
  width (Bounds img_grey_2x2) * height (Bounds img_grey_2x2) <= 2 ^ 43 /\
  resize_ok nearest_resize /\ colors_ok img_grey_2x2 /\ colors_ok img_white_black /\
  exists r,
    ComputeImageDiffFast nearest_resize img_grey_2x2 img_white_black Bilinear false = Some r /\
    count_of r = width (Bounds img_grey_2x2) * height (Bounds img_grey_2x2) /\
    mae_of r =
      F64.div (F64.of_Z (spec_total_delta img_grey_2x2
                           (reconcile nearest_resize img_grey_2x2 img_white_black Bilinear)
                           (Bounds img_grey_2x2)))
              (F64.of_Z (count_of r * 3)) /\
    SFleb (F64.of_Z 0) (mae_of r) = true /\
    SFleb (mae_of r) (F64.of_Z 255) = true.
Proof.
  assert (H1 : rect_ok (Bounds img_grey_2x2)) by (apply rect_ok_Rect; lia).
  assert (H2 : 0 < width (Bounds img_grey_2x2)) by (vm_compute; reflexivity).
  assert (H3 : 0 < height (Bounds img_grey_2x2)) by (vm_compute; reflexivity).
  assert (H4 : width (Bounds img_grey_2x2) * height (Bounds img_grey_2x2) <= 2 ^ 43)
    by (vm_compute; discriminate).
  split_and!; auto using resize_ok_nearest, colors_ok_grey_2x2, colors_ok_white_black.
  apply (C2_metric nearest_resize img_grey_2x2 img_white_black Bilinear false);
    auto using resize_ok_nearest, colors_ok_grey_2x2, colors_ok_white_black.
Defined.

Lemma total_loop_range {E : Type} (g : E -> Z) (l : list E) t0 :
  0 <= t0 < 2 ^ 64 -> 0 <= foldl (fun t e => uint64 (t + g e)) t0 l < 2 ^ 64.
Proof.
  revert t0. induction l as [|e l IH]; intros t0 H0; cbn [foldl]; [exact H0|].
  apply IH. unfold uint64. apply Z.mod_pos_bound. lia.
Qed.

(** An integer of 64 bits converts to zero or to a positive float. *)
Lemma F64_of_Z_uint64 n :
  0 < n < 2 ^ 64 -> pos_canon F64.prec F64.emax (F64.of_Z n).
Proof.
  intros Hn.
  assert (Hb : bounded F64.prec F64.emax (2 ^ 52) 12 = true) by (vm_compute; reflexivity).
  apply (of_Z_pos_canon F64.prec F64.emax F64_prec_pos F64_prec_emax n _ _ ltac:(lia) Hb).
  apply (qle_at 0); lia.
Qed.

(** C8.  For every pair of images whose first image has non-empty
    bounds, the number of pixels returned is positive and the mean absolute
    error is not a NaN: the division is by a non-zero count. *)
Theorem C8_mae_defined_on_nonempty_bounds rz img1 img2 algo mono :
  rect_ok (Bounds img1) -> NewRGBA (Bounds img1) <> None ->
  0 < width (Bounds img1) -> 0 < height (Bounds img1) ->
  exists r, ComputeImageDiffFast rz img1 img2 algo mono = Some r /\
    0 < count_of r /\ mae_of r <> S754_nan.
Proof.
  intros Hr Hnew Hw Hh.
  rewrite ComputeImageDiffFast_unfold.
  destruct (NewRGBA (Bounds img1)) as [diff0|] eqn:E; [|congruence].
  destruct (NewRGBA_Some _ _ Hr E) as (_ & _ & _ & _ & _ & Hs).
  set (img22 := reconcile rz img1 img2 algo).
  set (P := width (Bounds img1) * height (Bounds img1)) in *.
  assert (HP : 0 < P) by (unfold P; nia).
  pose proof (length_pixels _ Hr) as Hlen. fold P in Hlen.
  eexists. split; [reflexivity|]. unfold count_of, mae_of. cbn [fst snd].
  rewrite diff_loops_count, count_loop, diff_loops_total by lia.
  rewrite Hlen, Z.add_0_l. split; [exact HP|].
  rewrite uint64_small by lia.
  match goal with |- context [F64.of_Z (foldl ?f 0 ?l)] =>
    pose proof (total_loop_range
                  (fun q => uint64 (uint64 (delta_r img1 img22 (fst q) (snd q))
                                    + uint64 (delta_g img1 img22 (fst q) (snd q))
                                    + uint64 (delta_b img1 img22 (fst q) (snd q))))
                  l 0 ltac:(lia)) as HT;
    set (T := foldl f 0 l) in *
  end.
  pose proof (F64_of_Z_uint64 (P * 3) ltac:(lia)) as Hden.
  unfold F64.div.
  destruct (F64.of_Z (P * 3)) as [| | |[] my ey]; try contradiction.
  destruct (Z.eq_dec T 0) as [HT0|HTn].
  - rewrite HT0. discriminate.
  - pose proof (F64_of_Z_uint64 T ltac:(lia)) as Hnum.
    destruct (F64.of_Z T) as [| | |[] mx ex]; try contradiction.
    apply SFdiv_pos_not_nan; solve [apply F64_prec_pos|apply F64_prec_emax].
Qed.

Lemma C8_witness :
  rect_ok (Bounds img_grey_2x2) /\ NewRGBA (Bounds img_grey_2x2) <> None /\
  0 < width (Bounds img_grey_2x2) /\ 0 < height (Bounds img_grey_2x2) /\
  exists r,
    ComputeImageDiffFast nearest_resize img_grey_2x2 img_white_black Bilinear true = Some r /\
    0 < count_of r /\ mae_of r <> S754_nan.
Proof.
  assert (H1 : rect_ok (Bounds img_grey_2x2)) by (apply rect_ok_Rect; lia).
  assert (H2 : NewRGBA (Bounds img_grey_2x2) <> None) by (vm_compute; discriminate).
  assert (H3 : 0 < width (Bounds img_grey_2x2)) by (vm_compute; reflexivity).
  assert (H4 : 0 < height (Bounds img_grey_2x2)) by (vm_compute; reflexivity).
  split_and!; auto.
  apply (C8_mae_defined_on_nonempty_bounds nearest_resize img_grey_2x2 img_white_black
           Bilinear true); auto.
Defined.

(** C8 on empty bounds: nothing in [ComputeImageDiffFast] tests for them; on
    an image without pixels the loops do not run, the function divides 0 by
    0 and returns a NaN with a count of zero. *)
Lemma C8_counterexample :
  option_map (fun r => (mae_of r, count_of r))
    (ComputeImageDiffFast nearest_resize img_empty img_empty Bilinear false)
  = Some (S754_nan, 0) /\
  ~ (exists r, ComputeImageDiffFast nearest_resize img_empty img_empty Bilinear false = Some r /\
       mae_of r <> S754_nan).
Proof.
  split; [vm_compute; reflexivity|].
  intros (r & Hr & Hn). apply Hn.
  assert (H : option_map mae_of
                (ComputeImageDiffFast nearest_resize img_empty img_empty Bilinear false)
              = Some S754_nan) by (vm_compute; reflexivity).
  rewrite Hr in H. cbn [option_map] in H. congruence.
Qed.

(** ** The cropper *)








(** Truncation of a positive float, on a common scale [2 ^ t]. *)
Lemma SFtrunc_floor m e t :
  t <= e -> t <= 0 ->
  SFtrunc (S754_finite false m e) = Z.pos m * 2 ^ (e - t) / 2 ^ (- t).
Proof.
  intros He Ht. unfold SFtrunc.
  destruct (Z.leb_spec 0 e).
  - rewrite (pow2_split (e - t) (- t)) by lia. replace (e - t - - t) with e by lia.
    rewrite (Z.mul_comm (2 ^ (- t))), Z.mul_assoc, Z.div_mul; [reflexivity|].
    pose proof (pow2_pos (- t)); lia.
  - rewrite (pow2_split (- t) (e - t)) by lia. replace (- t - (e - t)) with (- e) by lia.
    rewrite (Z.mul_comm (2 ^ (e - t))), Z.div_mul_cancel_r; [reflexivity|..].
    + pose proof (pow2_pos (- e)); lia.
    + pose proof (pow2_pos (e - t)); lia.
Qed.

Lemma SFtrunc_nonneg m e : 0 <= SFtrunc (S754_finite false m e).
Proof.
  unfold SFtrunc. destruct (Z.leb_spec 0 e).
  - apply Z.mul_nonneg_nonneg; [lia|apply Z.pow_nonneg; lia].
  - apply Z.div_pos; [lia|apply Z.pow_pos_nonneg; lia].
Qed.

Lemma SFtrunc_mono ma ea mb eb :
  qle (Z.pos ma) 1 ea (Z.pos mb) 1 eb ->
  SFtrunc (S754_finite false ma ea) <= SFtrunc (S754_finite false mb eb).
Proof.
  intros H. set (t := Z.min (Z.min ea eb) 0).
  rewrite (SFtrunc_floor ma ea t), (SFtrunc_floor mb eb t) by lia.
  apply Z.div_le_mono; [apply pow2_pos; lia|].
  apply -> (qle_at t) in H; lia.
Qed.






(** The ratio one half keeps one of three columns. *)
Lemma crop_endX_half : crop_endX 3 ratio_half = 1.
Proof. vm_compute. reflexivity. Qed.

(** A source whose bounds do not start at the origin is read at the
    coordinates of the canvas: its only pixel is not copied. *)
Lemma croppedImage_off_origin :
  exists c, croppedImage img_shifted_1x1 (F64.of_Z 1) = Some c /\
    RGBA_Rect c = origin_rect 1 1 /\ RGBAAt c 0 0 = transparent.
Proof. eexists. split; [vm_compute; reflexivity|]. split; reflexivity. Qed.


(** ** The bounds of the preview *)

Section Cross.

Variables prec emax : Z.
Hypothesis Hprec : 0 < prec.
Hypothesis Hemax : prec < emax.

(** [c <= a / s] gives [s <= a / c]. *)
Lemma qle_div_swap ma ea mc ec ms es :
  qle mc 1 ec ma ms (ea - es) -> qle ms 1 es ma mc (ea - ec).
Proof.
  intros H. set (t := Z.min ec (ea - es)).
  apply -> (qle_at t) in H; [|lia..].
  apply <- (qle_at (t + es - ec)); [|lia..].
  replace (es - (t + es - ec)) with (ec - t) by lia.
  replace (ea - ec - (t + es - ec)) with (ea - es - t) by lia.
  lia.
Qed.

(** When the rounded quotient [a / c] is below a float [s], the rounded
    quotient [a / s] is at most [c]. *)
Lemma SFdiv_cross ma ea mc ec ms es :
  bounded prec emax ma ea = true -> bounded prec emax mc ec = true ->
  bounded prec emax ms es = true ->
  SFltb (SFdiv prec emax (S754_finite false ma ea) (S754_finite false mc ec))
        (S754_finite false ms es) = true ->
  nonneg_canon prec emax
    (SFdiv prec emax (S754_finite false ma ea) (S754_finite false ms es)) /\
  SFleb (SFdiv prec emax (S754_finite false ma ea) (S754_finite false ms es))
        (S754_finite false mc ec) = true.
Proof.
  intros Ha Hc Hs Hlt.
  destruct (qle_total (Z.pos ma) (Z.pos ms) (ea - es) (Z.pos mc) 1 ec) as [Hq|Hq].
  - now apply SFdiv_le.
  - exfalso. apply qle_div_swap in Hq.
    destruct (SFdiv_ge prec emax Hprec ma ea mc ec ms es Hs Hq) as [[Hp|Hinf] Hge].
    + apply (SFltb_pos_canon prec emax) in Hlt; [congruence|exact Hp|exact Hs].
    + rewrite Hinf in Hlt. discriminate.
Qed.

Lemma SFltb_asym a b :
  pos_canon prec emax a -> pos_canon prec emax b -> SFltb a b = true -> SFltb b a = false.
Proof.
  destruct a as [| | |[] ma ea]; try contradiction.
  destruct b as [| | |[] mb eb]; try contradiction.
  intros _ _. unfold SFltb. rewrite !SFcompare_pos.
  rewrite (Z.compare_antisym ea eb), (Z.compare_antisym (Z.pos ma) (Z.pos mb)).
  destruct (ea ?= eb); cbn [CompOpp]; try discriminate; try reflexivity.
  destruct (Z.pos ma ?= Z.pos mb); cbn [CompOpp]; try discriminate; reflexivity.
Qed.

Lemma SFltb_irrefl a : pos_canon prec emax a -> SFltb a a = false.
Proof.
  destruct a as [| | |[] ma ea]; try contradiction.
  intros _. unfold SFltb. rewrite SFcompare_pos, !Z.compare_refl. reflexivity.
Qed.

(** Two positive canonical floats are equal or ordered. *)
Lemma SFltb_trichotomy a b :
  pos_canon prec emax a -> pos_canon prec emax b ->
  SFltb a b = true \/ SFltb b a = true \/ a = b.
Proof.
  intros Ha Hb.
  destruct (SFleb b a) eqn:E1.
  - destruct (SFleb a b) eqn:E2.
    + right. right. now apply (SFleb_antisym prec emax).
    + right. left. now apply (SFltb_pos_canon prec emax).
  - left. now apply (SFltb_pos_canon prec emax).
Qed.

End Cross.

Lemma F32_prec_pos : 0 < F32.prec.
Proof. reflexivity. Qed.

Lemma F32_prec_emax : F32.prec < F32.emax.
Proof. reflexivity. Qed.

(** An [int] that is positive converts to a float32 between 1 and [2 ^ 63]. *)
Lemma F32_of_Z_int n :
  0 < n < 2 ^ 63 ->
  exists m e, F32.of_Z n = S754_finite false m e /\
    bounded F32.prec F32.emax m e = true /\
    qle 8388608 1 (-23) (Z.pos m) 1 e /\ qle (Z.pos m) 1 e 8388608 1 40.
Proof.
  intros Hn.
  assert (Hb1 : bounded F32.prec F32.emax 8388608 (-23) = true) by reflexivity.
  assert (Hb2 : bounded F32.prec F32.emax 8388608 40 = true) by reflexivity.
  assert (Hu : qle n 1 0 (Z.pos 8388608) 1 40).
  { apply <- (qle_at 0); [|lia..]. change (2 ^ (0 - 0)) with 1.
    change (Z.pos 8388608 * 1 * 2 ^ (40 - 0)) with (2 ^ 63). lia. }
  destruct (of_Z_pos_canon F32.prec F32.emax F32_prec_pos F32_prec_emax n _ _
              ltac:(lia) Hb2 Hu) as [Hc Hle].
  fold (F32.of_Z n) in Hc, Hle.
  destruct n as [|p|p]; try lia.
  assert (Hl : qle (Z.pos 8388608) 1 (-23) (Z.pos p) 1 0).
  { apply <- (qle_at (-23)); [|lia..]. change (2 ^ (-23 - -23)) with 1.
    change (2 ^ (0 - -23)) with 8388608. lia. }
  destruct (binary_round_ge F32.prec F32.emax F32_prec_pos p 0 _ _ Hb1 Hl) as [_ Hge].
  change (binary_round F32.prec F32.emax false p 0) with (F32.of_Z (Z.pos p)) in Hge.
  destruct (F32.of_Z (Z.pos p)) as [| | |s m e]; try contradiction.
  destruct s; [contradiction|]. cbn [pos_canon] in Hc.
  exists m, e. split; [reflexivity|]. split; [exact Hc|].
  split.
  - apply (SFleb_pos_canon F32.prec F32.emax F32_prec_pos) in Hge; auto.
  - apply (SFleb_pos_canon F32.prec F32.emax F32_prec_pos) in Hle; auto.
Qed.

Lemma F32_400 : F32.of_Z 400 = S754_finite false 13107200 (-15).
Proof. reflexivity. Qed.

(** The scale factor of a positive size is a positive float32. *)
Lemma scale_pos_canon n :
  0 < n < 2 ^ 63 ->
  pos_canon F32.prec F32.emax (F32.div (F32.of_Z n) (F32.of_Z 400)).
Proof.
  intros Hn. destruct (F32_of_Z_int n Hn) as (m & e & -> & Hb & Hl & Hu).
  rewrite F32_400. unfold F32.div.
  assert (Hb1 : bounded F32.prec F32.emax 8388608 (-32) = true) by reflexivity.
  assert (Hb2 : bounded F32.prec F32.emax 8388608 40 = true) by reflexivity.
  assert (HP : 0 < 2 ^ (e - Z.min e (-32))) by (apply pow2_pos; lia).
  assert (HQ : 0 < 2 ^ (40 - Z.min e (-32))) by (apply pow2_pos; lia).
  assert (HR : 0 < 2 ^ (-32 - Z.min e (-32))) by (apply pow2_pos; lia).
  assert (E1 : 2 ^ (e - -15 - Z.min e (-32)) = 32768 * 2 ^ (e - Z.min e (-32))).
  { replace (e - -15 - Z.min e (-32)) with (15 + (e - Z.min e (-32))) by lia.
    rewrite Z.pow_add_r by lia. reflexivity. }
  assert (E2 : 2 ^ (-23 - Z.min e (-32)) = 512 * 2 ^ (-32 - Z.min e (-32))).
  { replace (-23 - Z.min e (-32)) with (9 + (-32 - Z.min e (-32))) by lia.
    rewrite Z.pow_add_r by lia. reflexivity. }
  apply -> (qle_at (Z.min e (-32))) in Hl; [|lia..].
  apply -> (qle_at (Z.min e (-32))) in Hu; [|lia..].
  rewrite E2 in Hl.
  assert (Hq1 : qle (Z.pos m) (Z.pos 13107200) (e - -15) (Z.pos 8388608) 1 40).
  { apply <- (qle_at (Z.min e (-32))); [|lia..]. rewrite E1. lia. }
  assert (Hq2 : qle (Z.pos 8388608) 1 (-32) (Z.pos m) (Z.pos 13107200) (e - -15)).
  { apply <- (qle_at (Z.min e (-32))); [|lia..]. rewrite E1. lia. }
  destruct (SFdiv_le F32.prec F32.emax F32_prec_pos m e 13107200 (-15) _ _ Hb2 Hq1)
    as [Hnn _].
  destruct (SFdiv_ge F32.prec F32.emax F32_prec_pos m e 13107200 (-15) _ _ Hb1 Hq2)
    as [[Hp|Hinf] _]; [exact Hp|].
  rewrite Hinf in Hnn. destruct Hnn as [Hnn|Hnn]; [discriminate|contradiction].
Qed.

(** C5.  For every image of positive width [w] and height [h],
    [GetScaledBounds] returns the two sizes unchanged, as exact float32,
    when both are at most 400.  Otherwise at least one returned dimension
    is exactly 400: the width when [scaleX > scaleY], the height when not;
    the other dimension is the float32 quotient of its size by the larger
    scale factor, and it is at most 400 whenever the two scale factors
    differ.  The two scale factors are always ordered or equal. *)
Theorem C5_scaled_bounds img w h :
  Dx (Bounds img) = w -> Dy (Bounds img) = h -> 0 < w -> 0 < h ->
  (w <= 400 -> h <= 400 ->
     GetScaledBounds img = (exact_float 24 w, exact_float 24 h) /\
     SFtrunc (exact_float 24 w) = w /\ SFtrunc (exact_float 24 h) = h) /\
  (400 < w \/ 400 < h ->
     (fst (GetScaledBounds img) = F32.of_Z 400 \/
      snd (GetScaledBounds img) = F32.of_Z 400) /\
     (SFltb (scaleY_of h) (scaleX_of w) = true ->
        GetScaledBounds img = (F32.of_Z 400, F32.div (F32.of_Z h) (scaleX_of w)) /\
        SFleb (F32.div (F32.of_Z h) (scaleX_of w)) (F32.of_Z 400) = true) /\
     (SFltb (scaleX_of w) (scaleY_of h) = true ->
        GetScaledBounds img = (F32.div (F32.of_Z w) (scaleY_of h), F32.of_Z 400) /\
        SFleb (F32.div (F32.of_Z w) (scaleY_of h)) (F32.of_Z 400) = true) /\
     (scaleX_of w = scaleY_of h ->
        GetScaledBounds img = (F32.div (F32.of_Z w) (scaleY_of h), F32.of_Z 400)) /\
     (SFltb (scaleY_of h) (scaleX_of w) = true \/
      SFltb (scaleX_of w) (scaleY_of h) = true \/
      scaleX_of w = scaleY_of h)).
Proof.
  intros Hdx Hdy Hw Hh.
  assert (Hw63 : 0 < w < 2 ^ 63).
  { split; [exact Hw|]. rewrite <- Hdx. unfold Dx. apply int_range. }
  assert (Hh63 : 0 < h < 2 ^ 63).
  { split; [exact Hh|]. rewrite <- Hdy. unfold Dy. apply int_range. }
  pose proof (scale_pos_canon w Hw63) as HsX.
  pose proof (scale_pos_canon h Hh63) as HsY.
  change (F32.div (F32.of_Z w) (F32.of_Z 400)) with (scaleX_of w) in HsX.
  change (F32.div (F32.of_Z h) (F32.of_Z 400)) with (scaleY_of h) in HsY.
  unfold GetScaledBounds. rewrite Hdx, Hdy.
  change (F32.div (F32.of_Z w) (F32.of_Z ImageMaxWidth)) with (scaleX_of w).
  change (F32.div (F32.of_Z h) (F32.of_Z ImageMaxHeight)) with (scaleY_of h).
  change ImageMaxWidth with 400. change ImageMaxHeight with 400.
  split.
  - intros Hw4 Hh4.
    destruct (Z.ltb_spec 400 w); [lia|]. destruct (Z.ltb_spec 400 h); [lia|].
    cbn [orb].
    assert (Hw' : 0 < w < 2 ^ F32.prec) by (change (2 ^ F32.prec) with 16777216; lia).
    assert (Hh' : 0 < h < 2 ^ F32.prec) by (change (2 ^ F32.prec) with 16777216; lia).
    unfold F32.of_Z.
    rewrite !(of_Z_exact F32.prec F32.emax F32_prec_pos F32_prec_emax) by assumption.
    split; [reflexivity|].
    split; apply (SFtrunc_exact F32.prec F32_prec_pos); assumption.
  - intros Hbig.
    replace ((400 <? w) || (400 <? h)) with true
      by (symmetry; apply orb_true_iff; rewrite !Z.ltb_lt; exact Hbig).
    destruct (F32_of_Z_int w Hw63) as (mw & ew & Ew & Hbw & _).
    destruct (F32_of_Z_int h Hh63) as (mh & eh & Eh & Hbh & _).
    assert (Hb4 : bounded F32.prec F32.emax 13107200 (-15) = true) by reflexivity.
    split_and!.
    + destruct (SFltb (scaleY_of h) (scaleX_of w)); [left|right]; reflexivity.
    + intros Hlt. rewrite Hlt. split; [reflexivity|].
      destruct (scaleX_of w) as [| | |sx mx ex] eqn:EX; try contradiction.
      destruct sx; [contradiction|]. cbn [pos_canon] in HsX.
      unfold scaleY_of in Hlt. change ImageMaxHeight with 400 in Hlt.
      rewrite Eh, F32_400 in *.
      apply (SFdiv_cross F32.prec F32.emax F32_prec_pos mh eh 13107200 (-15) mx ex);
        assumption.
    + intros Hlt.
      rewrite (SFltb_asym F32.prec F32.emax _ _ HsX HsY Hlt). split; [reflexivity|].
      destruct (scaleY_of h) as [| | |sy my ey] eqn:EY; try contradiction.
      destruct sy; [contradiction|]. cbn [pos_canon] in HsY.
      unfold scaleX_of in Hlt. change ImageMaxWidth with 400 in Hlt.
      rewrite Ew, F32_400 in *.
      apply (SFdiv_cross F32.prec F32.emax F32_prec_pos mw ew 13107200 (-15) my ey);
        assumption.
    + intros Heq. rewrite Heq, (SFltb_irrefl F32.prec F32.emax _ HsY). reflexivity.
    + destruct (SFltb_trichotomy F32.prec F32.emax _ _ HsX HsY) as [H|[H|H]]; auto.
Qed.

Lemma C5_witness :
  Dx (Bounds (img_of_size 800 600)) = 800 /\ Dy (Bounds (img_of_size 800 600)) = 600 /\
  0 < 800 /\ 0 < 600 /\
  (800 <= 400 -> 600 <= 400 ->
     GetScaledBounds (img_of_size 800 600) = (exact_float 24 800, exact_float 24 600) /\
     SFtrunc (exact_float 24 800) = 800 /\ SFtrunc (exact_float 24 600) = 600) /\
  (400 < 800 \/ 400 < 600 ->
     (fst (GetScaledBounds (img_of_size 800 600)) = F32.of_Z 400 \/
      snd (GetScaledBounds (img_of_size 800 600)) = F32.of_Z 400) /\
     (SFltb (scaleY_of 600) (scaleX_of 800) = true ->
        GetScaledBounds (img_of_size 800 600) =
          (F32.of_Z 400, F32.div (F32.of_Z 600) (scaleX_of 800)) /\
        SFleb (F32.div (F32.of_Z 600) (scaleX_of 800)) (F32.of_Z 400) = true) /\
     (SFltb (scaleX_of 800) (scaleY_of 600) = true ->
        GetScaledBounds (img_of_size 800 600) =
          (F32.div (F32.of_Z 800) (scaleY_of 600), F32.of_Z 400) /\
        SFleb (F32.div (F32.of_Z 800) (scaleY_of 600)) (F32.of_Z 400) = true) /\
     (scaleX_of 800 = scaleY_of 600 ->
        GetScaledBounds (img_of_size 800 600) =
          (F32.div (F32.of_Z 800) (scaleY_of 600), F32.of_Z 400)) /\
     (SFltb (scaleY_of 600) (scaleX_of 800) = true \/
      SFltb (scaleX_of 800) (scaleY_of 600) = true \/
      scaleX_of 800 = scaleY_of 600)).
Proof.
  split; [reflexivity|]. split; [reflexivity|]. split; [lia|]. split; [lia|].
  apply (C5_scaled_bounds (img_of_size 800 600) 800 600); [reflexivity|reflexivity|lia|lia].
Defined.

(** An image of 800 by 600 pixels is shown with 400 by 300. *)
Lemma GetScaledBounds_800x600 :
  GetScaledBounds (img_of_size 800 600) = (F32.of_Z 400, F32.of_Z 300).
Proof. vm_compute. reflexivity. Qed.

(** A square image beyond the box comes back with both dimensions on their
    bound, not with exactly one. *)
Lemma C5_counterexample :
  Dx (Bounds (img_of_size 800 800)) = 800 /\ Dy (Bounds (img_of_size 800 800)) = 800 /\
  GetScaledBounds (img_of_size 800 800) = (F32.of_Z ImageMaxWidth, F32.of_Z ImageMaxHeight) /\
  ~ (fst (GetScaledBounds (img_of_size 800 800)) = F32.of_Z ImageMaxWidth <->
     snd (GetScaledBounds (img_of_size 800 800)) <> F32.of_Z ImageMaxHeight).
Proof.
  split; [reflexivity|]. split; [reflexivity|]. split; [vm_compute; reflexivity|].
  intros [H _]. apply H; vm_compute; reflexivity.
Qed.

(** With equal scale factors the quotient is rounded twice: for 418 by 418
    pixels the width is the float32 next above 400. *)
Lemma GetScaledBounds_418x418 :
  GetScaledBounds (img_of_size 418 418) =
    (S754_finite false 13107201 (-15), F32.of_Z 400) /\
  SFltb (F32.of_Z 400) (fst (GetScaledBounds (img_of_size 418 418))) = true /\
  float_to_uint (fst (GetScaledBounds (img_of_size 418 418))) = 400.
Proof. vm_compute. auto. Qed.

(** * The loader *)

Local Open Scope string_scope.

(** After a conversion that succeeded, the temporary file is gone, whatever
    the decoder says. *)
Lemma LoadImage_removes_tmp_after_conversion LookPath run decode path w p fs' :
  filepath_Ext path = ".jxl" ->
  LookPath "djxl" = Some p ->
  run p ["djxl"; path; path ++ ".converted.png"] (files w) = (fs', 0) ->
  files (snd (LoadImage LookPath run decode path w)) !! (path ++ ".converted.png") = None.
Proof.
  intros Hext Hlook Hrun. unfold LoadImage. rewrite Hext.
  change (String.eqb ".jxl" ".jxl") with true. cbv iota.
  unfold exec_Command. rewrite Hlook.
  unfold bind, Cmd_Run. cbn [Cmd_Err Cmd_Path Cmd_Args]. rewrite Hrun.
  change (0 =? 0)%Z with true. cbv iota.
  unfold imaging_Open, os_Remove, ret. cbn [files trace].
  destruct (fs' !! (path ++ ".converted.png")) as [data|] eqn:E.
  - destruct (decode data); cbn [files snd]; rewrite E; cbn [files snd];
      apply lookup_delete_eq.
  - cbn [files snd]. rewrite E. cbn [files snd]. exact E.
Qed.

(** C6.  The code at a conversion that fails after it has started to write
    its output: [LoadImage] returns the error of the process before the
    deferred [os.Remove] is registered, and the temporary file stays. *)
Theorem C6_failed_conversion_leaves_temp_file :
  LoadImage LookPath_djxl djxl_partial decode_none "a.jxl" world_one_jxl =
    (inr (ExitError 1),
     mkWorld (<["a.jxl.converted.png" := [137; 80; 78; 71]%Z]> (files world_one_jxl))
             [Spawn "/usr/bin/djxl" ["djxl"; "a.jxl"; "a.jxl.converted.png"]]) /\
  files (snd (LoadImage LookPath_djxl djxl_partial decode_none "a.jxl" world_one_jxl))
    !! "a.jxl.converted.png" = Some [137; 80; 78; 71]%Z.
Proof.
  split.
  - reflexivity.
  - vm_compute. reflexivity.
Qed.

(** C7.  When the converter is not on the [PATH], the lookup made by
    [exec.Command] at the call site fails, [Run] returns the error
    [exec.ErrNotFound] without starting anything, and [LoadImage] returns
    this error: no process is started and no file is written, the world is
    the one before the call. *)
Theorem C7_missing_converter LookPath run decode path w :
  filepath_Ext path = ".jxl" ->
  LookPath "djxl" = None ->
  LoadImage LookPath run decode path w = (inr (ErrNotFound "djxl"), w).
Proof.
  intros Hext Hlook. unfold LoadImage. rewrite Hext.
  change (String.eqb ".jxl" ".jxl") with true. cbv iota.
  unfold exec_Command. rewrite Hlook. reflexivity.
Qed.

Lemma C7_witness :
  filepath_Ext "a.jxl" = ".jxl" /\
  LookPath_none "djxl" = None /\
  LoadImage LookPath_none djxl_good decode_none "a.jxl" world_one_jxl
    = (inr (ErrNotFound "djxl"), world_one_jxl).
Proof.
  split; [reflexivity|]. split; [reflexivity|].
  apply (C7_missing_converter LookPath_none djxl_good decode_none "a.jxl" world_one_jxl);
    reflexivity.
Defined.

Local Close Scope string_scope.

(** * Further properties of the difference engine *)

(** X1.  [absDiff] returns the distance of its two arguments: on two
    [uint32] the subtraction it chooses never wraps around, and the result
    is zero only for equal arguments. *)
Theorem X1_absDiff_distance a b :
  0 <= a < 2 ^ 32 -> 0 <= b < 2 ^ 32 ->
  absDiff a b = Z.abs (a - b) /\ 0 <= absDiff a b < 2 ^ 32 /\
  (absDiff a b = 0 <-> a = b).
Proof.
  intros Ha Hb. unfold absDiff, uint32.
  destruct (Z.ltb_spec b a); rewrite Z.mod_small by lia; lia.
Qed.

Lemma X1_witness :
  0 <= 7 < 2 ^ 32 /\ 0 <= 65535 < 2 ^ 32 /\
  absDiff 7 65535 = Z.abs (7 - 65535) /\ 0 <= absDiff 7 65535 < 2 ^ 32 /\
  (absDiff 7 65535 = 0 <-> 7 = 65535).
Proof.
  split; [lia|]. split; [lia|].
  apply (X1_absDiff_distance 7 65535); lia.
Defined.

(** The truncated delta of two 16-bit channels is zero exactly when they
    are less than 256 apart. *)
Lemma delta_zero a b :
  0 <= a <= 65535 -> 0 <= b <= 65535 -> (delta a b = 0 <-> Z.abs (a - b) < 256).
Proof.
  intros Ha Hb. rewrite delta_spec by assumption. unfold spec_delta.
  change (2 ^ 8) with 256. split; intros H.
  - apply Z.div_small_iff in H; lia.
  - apply Z.div_small. lia.
Qed.

Lemma Zsum_zero (l : list Z) :
  (forall z, In z l -> 0 <= z) -> (Zsum l = 0 <-> forall z, In z l -> z = 0).
Proof.
  induction l as [|a l IH]; intros Hnn; cbn [Zsum fold_right].
  - split; [intros _ z []|reflexivity].
  - assert (Ha : 0 <= a) by (apply Hnn; now left).
    assert (Hl : forall z, In z l -> 0 <= z) by (intros z Hz; apply Hnn; now right).
    fold (Zsum l).
    assert (Hs : 0 <= Zsum l).
    { clear IH Hnn. induction l as [|c l IHl]; cbn [Zsum fold_right]; [lia|].
      fold (Zsum l). specialize (IHl (fun z Hz => Hl z (or_intror Hz))).
      specialize (Hl c (or_introl eq_refl)). lia. }
    specialize (IH Hl). split.
    + intros H z [<-|Hz]; [lia|]. apply IH; [lia|exact Hz].
    + intros H. rewrite (H a (or_introl eq_refl)).
      rewrite (proj2 IH); [reflexivity|]. intros z Hz. apply H. now right.
Qed.

(** The values a call returns, for images whose sum of deltas converts to
    [float64] exactly. *)
Lemma ComputeImageDiffFast_metric rz img1 img2 algo mono :
  rect_ok (Bounds img1) ->
  0 < width (Bounds img1) -> 0 < height (Bounds img1) ->
  width (Bounds img1) * height (Bounds img1) <= 2 ^ 43 ->
  colors_ok img1 -> colors_ok (reconcile rz img1 img2 algo) ->
  exists r, ComputeImageDiffFast rz img1 img2 algo mono = Some r /\
    RGBA_Rect (diff_image r) = Bounds img1 /\
    (forall x y, Point_In (mkPoint x y) (Bounds img1) = true ->
       RGBAAt (diff_image r) x y = diff_color img1 (reconcile rz img1 img2 algo) mono x y) /\
    count_of r = width (Bounds img1) * height (Bounds img1) /\
    mae_of r =
      F64.div (F64.of_Z (total_delta img1 (reconcile rz img1 img2 algo) (Bounds img1)))
              (F64.of_Z (width (Bounds img1) * height (Bounds img1) * 3)) /\
    0 <= total_delta img1 (reconcile rz img1 img2 algo) (Bounds img1)
      <= 765 * (width (Bounds img1) * height (Bounds img1)).
Proof.
  intros Hr Hw Hh Hs H1 H22.
  set (img22 := reconcile rz img1 img2 algo) in *.
  set (P := width (Bounds img1) * height (Bounds img1)) in *.
  assert (HP : 0 < P) by (unfold P; nia).
  assert (Hnew : NewRGBA (Bounds img1) <> None).
  { apply NewRGBA_fits; auto; try (unfold P in *; nia). }
  destruct (ComputeImageDiffFast_pixels rz img1 img2 algo mono Hr Hnew)
    as (r & Hc & Hrect & Hpix).
  exists r. split; [exact Hc|]. split; [exact Hrect|]. split; [exact Hpix|].
  rewrite ComputeImageDiffFast_unfold in Hc. fold img22 in Hc.
  destruct (NewRGBA (Bounds img1)) as [diff0|]; [|congruence].
  destruct (diff_loops_counters img1 img22 mono diff0 Hr ltac:(fold P; lia) H1 H22)
    as (Hcnt & Ht & Hb).
  fold P in Hcnt, Hb.
  injection Hc as <-. unfold count_of, mae_of. cbn [fst snd].
  rewrite Hcnt, Ht, uint64_small by lia.
  split; [reflexivity|]. split; [reflexivity|exact Hb].
Qed.

(** A quotient of two positive integers below [2 ^ 53] whose value is at
    least [2 ^ -46] is not zero. *)
Lemma F64_div_nonzero T Q :
  0 < T < 2 ^ 53 -> 0 < Q <= 2 ^ 46 ->
  F64.div (F64.of_Z T) (F64.of_Z Q) <> S754_zero false.
Proof.
  intros HT HQ.
  assert (HT' : 0 < T < 2 ^ F64.prec) by (change (2 ^ F64.prec) with (2 ^ 53); lia).
  assert (HQ' : 0 < Q < 2 ^ F64.prec) by (change (2 ^ F64.prec) with (2 ^ 53); lia).
  unfold F64.div, F64.of_Z.
  rewrite (of_Z_exact F64.prec F64.emax F64_prec_pos F64_prec_emax T HT').
  rewrite (of_Z_exact F64.prec F64.emax F64_prec_pos F64_prec_emax Q HQ').
  destruct (exact_float_mantissa F64.prec F64_prec_pos T HT') as [KT MT].
  destruct (exact_float_mantissa F64.prec F64_prec_pos Q HQ') as [KQ MQ].
  unfold exact_float.
  assert (Hb : bounded F64.prec F64.emax 4503599627370496 (-98) = true) by reflexivity.
  set (kT := F64.prec - Zdigits2 T) in *. set (kQ := F64.prec - Zdigits2 Q) in *.
  assert (Hq : qle (Z.pos 4503599627370496) 1 (-98)
                 (Z.pos (Z.to_pos (T * 2 ^ kT))) (Z.pos (Z.to_pos (Q * 2 ^ kQ)))
                 (Zdigits2 T - F64.prec - (Zdigits2 Q - F64.prec))).
  { rewrite MT, MQ. apply <- (qle_at (-98 - kT)); [|lia..].
    replace (-98 - (-98 - kT)) with kT by lia.
    replace (Zdigits2 T - F64.prec - (Zdigits2 Q - F64.prec) - (-98 - kT))
      with (kQ + 98) by lia.
    rewrite (Z.pow_add_r 2 kQ 98) by lia.
    pose proof (pow2_pos kT KT). pose proof (pow2_pos kQ KQ).
    set (A := 2 ^ kT) in *. set (B := 2 ^ kQ) in *.
    change (Z.pos 4503599627370496) with (2 ^ 52).
    replace (2 ^ 52 * (Q * B) * A) with (2 ^ 52 * Q * (A * B)) by ring.
    replace (T * A * 1 * (B * 2 ^ 98)) with (T * 2 ^ 98 * (A * B)) by ring.
    apply Z.mul_le_mono_nonneg_r; [nia|].
    change (2 ^ 98) with (2 ^ 52 * 2 ^ 46). nia. }
  destruct (SFdiv_ge F64.prec F64.emax F64_prec_pos _ _ _ _ _ _ Hb Hq) as [_ Hge].
  intros Hz. rewrite Hz in Hge. discriminate.
Qed.

Lemma reconcile_same rz img algo : reconcile rz img img algo = img.
Proof. unfold reconcile. now rewrite Rectangle_Eq_refl. Qed.

Lemma delta_same c : delta c c = 0.
Proof.
  unfold delta, absDiff. rewrite Z.ltb_irrefl, Z.sub_diag. reflexivity.
Qed.

Lemma Zsum_map_zero {E : Type} (f : E -> Z) (l : list E) :
  (forall e, In e l -> f e = 0) -> Zsum (map f l) = 0.
Proof.
  induction l as [|a l IH]; intros H; cbn [map Zsum fold_right]; [reflexivity|].
  fold (Zsum (map f l)). rewrite (H a (or_introl eq_refl)), IH; [reflexivity|].
  intros e He. apply H. now right.
Qed.

(** X2.  An image compared with itself: the resampler is not called, the
    mean absolute error is zero, the count is the number of pixels and every
    pixel of the difference image is opaque black, with and without the
    monochrome flag. *)
Theorem X2_self_comparison rz img algo mono :
  rect_ok (Bounds img) ->
  0 < width (Bounds img) -> 0 < height (Bounds img) ->
  width (Bounds img) * height (Bounds img) <= 2 ^ 43 ->
  colors_ok img ->
  exists r, ComputeImageDiffFast rz img img algo mono = Some r /\
    mae_of r = S754_zero false /\
    count_of r = width (Bounds img) * height (Bounds img) /\
    forall x y, Point_In (mkPoint x y) (Bounds img) = true ->
      RGBAAt (diff_image r) x y = mkRGBA 0 0 0 255.
Proof.
  intros Hr Hw Hh Hs Hc.
  destruct (ComputeImageDiffFast_metric rz img img algo mono Hr Hw Hh Hs Hc)
    as (r & Hres & _ & Hpix & Hcnt & Hmae & _).
  { now rewrite reconcile_same. }
  rewrite reconcile_same in *.
  exists r. split; [exact Hres|]. split; [|split; [exact Hcnt|]].
  - rewrite Hmae. unfold total_delta.
    rewrite Zsum_map_zero.
    + set (P := width (Bounds img) * height (Bounds img)) in *.
      assert (H3P : 0 < P * 3 < 2 ^ F64.prec) by (unfold F64.prec, P; nia).
      unfold F64.div, F64.of_Z.
      rewrite (of_Z_exact F64.prec F64.emax F64_prec_pos F64_prec_emax (P * 3) H3P).
      reflexivity.
    + intros q _. unfold pixel_delta, delta_r, delta_g, delta_b.
      now rewrite !delta_same.
  - intros x y Hxy. rewrite (Hpix x y Hxy).
    unfold diff_color, delta_r, delta_g, delta_b. rewrite !delta_same.
    destruct mono; reflexivity.
Qed.

Lemma X2_witness :
  rect_ok (Bounds img_grey_2x2) /\
  0 < width (Bounds img_grey_2x2) /\ 0 < height (Bounds img_grey_2x2) /\
  width (Bounds img_grey_2x2) * height (Bounds img_grey_2x2) <= 2 ^ 43 /\
  colors_ok img_grey_2x2 /\
  exists r, ComputeImageDiffFast nearest_resize img_grey_2x2 img_grey_2x2 Bilinear true = Some r /\
    mae_of r = S754_zero false /\
    count_of r = width (Bounds img_grey_2x2) * height (Bounds img_grey_2x2) /\
    forall x y, Point_In (mkPoint x y) (Bounds img_grey_2x2) = true ->
      RGBAAt (diff_image r) x y = mkRGBA 0 0 0 255.
Proof.
  assert (H1 : rect_ok (Bounds img_grey_2x2)) by (apply rect_ok_Rect; lia).
  assert (H2 : 0 < width (Bounds img_grey_2x2)) by (vm_compute; reflexivity).
  assert (H3 : 0 < height (Bounds img_grey_2x2)) by (vm_compute; reflexivity).
  assert (H4 : width (Bounds img_grey_2x2) * height (Bounds img_grey_2x2) <= 2 ^ 43)
    by (vm_compute; discriminate).
  split_and!; auto using colors_ok_grey_2x2.
  apply (X2_self_comparison nearest_resize img_grey_2x2 Bilinear true);
    auto using colors_ok_grey_2x2.
Defined.

(** X3.  The mean absolute error is zero exactly when, at every pixel of
    the first image's bounds, the red, the green and the blue channels of
    the two images are less than 256 apart on the 16-bit scale; the alpha
    channel plays no role. *)
Theorem X3_mae_zero_iff rz img1 img2 algo mono :
  rect_ok (Bounds img1) ->
  0 < width (Bounds img1) -> 0 < height (Bounds img1) ->
  width (Bounds img1) * height (Bounds img1) <= 2 ^ 43 ->
  resize_ok rz -> colors_ok img1 -> colors_ok img2 ->
  exists r, ComputeImageDiffFast rz img1 img2 algo mono = Some r /\
    (mae_of r = S754_zero false <->
     forall x y, Point_In (mkPoint x y) (Bounds img1) = true ->
       let c1 := At img1 x y in
       let c2 := At (reconcile rz img1 img2 algo) x y in
       Z.abs (RGBA_r c1 - RGBA_r c2) < 256 /\
       Z.abs (RGBA_g c1 - RGBA_g c2) < 256 /\
       Z.abs (RGBA_b c1 - RGBA_b c2) < 256).
Proof.
  intros Hr Hw Hh Hs Hrz H1 H2.
  pose proof (reconcile_colors_ok rz img1 img2 algo Hrz H2) as H22.
  destruct (ComputeImageDiffFast_metric rz img1 img2 algo mono Hr Hw Hh Hs H1 H22)
    as (r & Hres & _ & _ & _ & Hmae & Hb).
  set (img22 := reconcile rz img1 img2 algo) in *.
  set (P := width (Bounds img1) * height (Bounds img1)) in *.
  assert (HP : 0 < P) by (unfold P; nia).
  set (T := total_delta img1 img22 (Bounds img1)) in *.
  exists r. split; [exact Hres|].
  assert (HT : mae_of r = S754_zero false <-> T = 0).
  { rewrite Hmae. split.
    - intros Hz. destruct (Z.eq_dec T 0) as [|HTn]; [assumption|].
      exfalso. revert Hz. apply F64_div_nonzero; lia.
    - intros ->.
      assert (H3P : 0 < P * 3 < 2 ^ F64.prec) by (unfold F64.prec; lia).
      unfold F64.div, F64.of_Z.
      rewrite (of_Z_exact F64.prec F64.emax F64_prec_pos F64_prec_emax (P * 3) H3P).
      reflexivity. }
  rewrite HT. unfold T, total_delta.
  rewrite Zsum_zero.
  - split.
    + intros Hall x y Hxy. cbv zeta.
      assert (Hz : pixel_delta img1 img22 x y = 0).
      { apply Hall. apply in_map_iff. exists (x, y). split; [reflexivity|].
        now apply In_pixels. }
      destruct (pixel_delta_range img1 img22 x y H1 H22) as (Dr & Dg & Db).
      destruct (H1 x y) as (Hr1 & Hg1 & Hb1 & _).
      destruct (H22 x y) as (Hr2 & Hg2 & Hb2 & _).
      unfold pixel_delta in Hz.
      unfold delta_r, delta_g, delta_b in *.
      split_and!; apply delta_zero; auto; lia.
    + intros Hall z Hz. apply in_map_iff in Hz. destruct Hz as ([x y] & <- & Hin).
      apply In_pixels in Hin. cbn [fst snd].
      destruct (Hall x y Hin) as (Ar & Ag & Ab). cbv zeta in Ar, Ag, Ab.
      destruct (H1 x y) as (Hr1 & Hg1 & Hb1 & _).
      destruct (H22 x y) as (Hr2 & Hg2 & Hb2 & _).
      unfold pixel_delta, delta_r, delta_g, delta_b.
      rewrite (proj2 (delta_zero _ _ Hr1 Hr2) Ar), (proj2 (delta_zero _ _ Hg1 Hg2) Ag),
              (proj2 (delta_zero _ _ Hb1 Hb2) Ab).
      reflexivity.
  - intros z Hz. apply in_map_iff in Hz. destruct Hz as ([x y] & <- & _). cbn [fst snd].
    destruct (pixel_delta_range img1 img22 x y H1 H22) as (Dr & Dg & Db).
    unfold pixel_delta. lia.
Qed.

Lemma X3_witness :
  rect_ok (Bounds img_grey_2x2) /\
  0 < width (Bounds img_grey_2x2) /\ 0 < height (Bounds img_grey_2x2) /\
  width (Bounds img_grey_2x2) * height (Bounds img_grey_2x2) <= 2 ^ 43 /\
  resize_ok nearest_resize /\ colors_ok img_grey_2x2 /\ colors_ok img_white_black /\
  exists r,
    ComputeImageDiffFast nearest_resize img_grey_2x2 img_white_black Bilinear false = Some r /\
    (mae_of r = S754_zero false <->
     forall x y, Point_In (mkPoint x y) (Bounds img_grey_2x2) = true ->
       let c1 := At img_grey_2x2 x y in
       let c2 := At (reconcile nearest_resize img_grey_2x2 img_white_black Bilinear) x y in
       Z.abs (RGBA_r c1 - RGBA_r c2) < 256 /\
       Z.abs (RGBA_g c1 - RGBA_g c2) < 256 /\
       Z.abs (RGBA_b c1 - RGBA_b c2) < 256).
Proof.
  assert (H1 : rect_ok (Bounds img_grey_2x2)) by (apply rect_ok_Rect; lia).
  assert (H2 : 0 < width (Bounds img_grey_2x2)) by (vm_compute; reflexivity).
  assert (H3 : 0 < height (Bounds img_grey_2x2)) by (vm_compute; reflexivity).
  assert (H4 : width (Bounds img_grey_2x2) * height (Bounds img_grey_2x2) <= 2 ^ 43)
    by (vm_compute; discriminate).
  split_and!; auto using resize_ok_nearest, colors_ok_grey_2x2, colors_ok_white_black.
  apply (X3_mae_zero_iff nearest_resize img_grey_2x2 img_white_black Bilinear false);
    auto using resize_ok_nearest, colors_ok_grey_2x2, colors_ok_white_black.
Defined.

(** * Strings *)

Local Open Scope string_scope.

Lemma str_app_cons c s t : String c s ++ t = String c (s ++ t).
Proof. reflexivity. Qed.

Lemma str_app_nil_l s : "" ++ s = s.
Proof. reflexivity. Qed.

Lemma str_app_nil_r s : s ++ "" = s.
Proof.
  induction s as [|c s IH]; [reflexivity|]. now rewrite str_app_cons, IH.
Qed.

Lemma str_app_assoc a b c : (a ++ b) ++ c = a ++ (b ++ c).
Proof.
  induction a as [|x a IH]; [reflexivity|]. now rewrite !str_app_cons, IH.
Qed.

Lemma str_length_app a b : String.length (a ++ b) = (String.length a + String.length b)%nat.
Proof.
  induction a as [|x a IH]; [reflexivity|].
  rewrite str_app_cons. cbn [String.length Nat.add]. now rewrite IH.
Qed.

Lemma len_app a b : len (a ++ b) = len a + len b.
Proof. unfold len. rewrite str_length_app. lia. Qed.

Lemma len_nonneg s : 0 <= len s.
Proof. unfold len. lia. Qed.

Lemma len_String c s : len (String c s) = 1 + len s.
Proof. unfold len. cbn [String.length]. lia. Qed.

Lemma substring_all s : String.substring 0 (String.length s) s = s.
Proof.
  induction s as [|c s IH]; [reflexivity|].
  cbn [String.length String.substring]. now rewrite IH.
Qed.

Lemma substring_app_l a b : String.substring 0 (String.length a) (a ++ b) = a.
Proof.
  induction a as [|x a IH].
  - rewrite str_app_nil_l. destruct b; reflexivity.
  - rewrite str_app_cons. cbn [String.length String.substring]. now rewrite IH.
Qed.

Lemma substring_app_r a b n :
  String.substring (String.length a) n (a ++ b) = String.substring 0 n b.
Proof.
  induction a as [|x a IH]; [reflexivity|].
  rewrite str_app_cons. cbn [String.length String.substring]. exact IH.
Qed.

(** A string longer than [n] splits after its first [n] bytes. *)
Lemma substring_split s n :
  (n <= String.length s)%nat ->
  s = String.substring 0 n s ++ String.substring n (String.length s - n) s /\
  String.length (String.substring 0 n s) = n /\
  String.length (String.substring n (String.length s - n) s) = (String.length s - n)%nat.
Proof.
  revert n. induction s as [|c s IH]; intros [|n] Hn.
  - cbn. auto.
  - cbn [String.length] in Hn. lia.
  - rewrite Nat.sub_0_r, substring_all. cbn [String.substring String.length].
    rewrite str_app_nil_l. auto.
  - cbn [String.length] in Hn. destruct (IH n ltac:(lia)) as (E & L1 & L2).
    cbn [String.substring Nat.sub String.length]. rewrite str_app_cons.
    cbn [String.length]. rewrite <- E, L1, L2. auto.
Qed.

(** ** The bytes of a string *)

Lemma remove_byte_app c a b : remove_byte c (a ++ b) = remove_byte c a ++ remove_byte c b.
Proof.
  induction a as [|x a IH]; [reflexivity|].
  rewrite str_app_cons. cbn [remove_byte].
  destruct (Ascii.eqb x c); [exact IH|]. now rewrite str_app_cons, IH.
Qed.

Lemma remove_byte_free c s : byte_free c s -> remove_byte c s = s.
Proof.
  induction s as [|x s IH]; cbn [remove_byte byte_free]; [reflexivity|]. intros [Hx Hs].
  destruct (Ascii.eqb_spec x c); [contradiction|]. now rewrite IH.
Qed.

Lemma byte_free_app c a b : byte_free c (a ++ b) <-> byte_free c a /\ byte_free c b.
Proof.
  induction a as [|x a IH].
  - rewrite str_app_nil_l. cbn [byte_free]. tauto.
  - rewrite str_app_cons. cbn [byte_free]. rewrite IH. tauto.
Qed.

(** ** [strconv.Itoa] *)

Lemma digit_byte_value d : 0 <= d <= 9 -> Z.of_nat (nat_of_ascii (digit_byte d)) - 48 = d.
Proof.
  intros Hd. unfold digit_byte. rewrite nat_ascii_embedding; lia.
Qed.

Lemma digit_byte_range d c :
  0 <= d <= 9 -> (nat_of_ascii c < 48)%nat -> digit_byte d <> c.
Proof.
  intros Hd Hc E. pose proof (digit_byte_value d Hd) as Hv. rewrite E in Hv. lia.
Qed.

Lemma formatBits_acc fuel u acc :
  formatBits fuel u acc = formatBits fuel u "" ++ acc.
Proof.
  revert u acc. induction fuel as [|f IH]; intros u acc; cbn [formatBits]; [reflexivity|].
  destruct (u <? 10)%Z; [reflexivity|].
  rewrite (IH _ (String _ acc)), (IH _ (String _ "")), str_app_assoc. reflexivity.
Qed.

Lemma formatBits_fuel f1 f2 u acc :
  0 <= u < 10 ^ Z.of_nat (S f1) -> 0 <= u < 10 ^ Z.of_nat (S f2) ->
  formatBits (S f1) u acc = formatBits (S f2) u acc.
Proof.
  revert f2 u acc. induction f1 as [|f1 IH]; intros f2 u acc H1 H2.
  - change (10 ^ Z.of_nat 1) with 10 in H1. cbn [formatBits].
    destruct (Z.ltb_spec u 10); [reflexivity|lia].
  - cbn [formatBits]. destruct (Z.ltb_spec u 10); [reflexivity|].
    destruct f2 as [|f2]; [change (10 ^ Z.of_nat 1) with 10 in H2; lia|].
    rewrite (Nat2Z.inj_succ (S f1)), (Nat2Z.inj_succ (S f2)), !Z.pow_succ_r in * by lia.
    apply IH; split; try (apply Z.div_pos; lia);
      apply Z.div_lt_upper_bound; lia.
Qed.

(** The last digit comes last. *)
Lemma formatBits_step u :
  10 <= u < 2 ^ 64 ->
  formatBits 20 u "" = formatBits 20 (u / 10) "" ++ String (digit_byte (u mod 10)) "".
Proof.
  intros Hu.
  assert (E : formatBits 20 u "" =
              if (u <? 10)%Z then String (digit_byte u) ""
              else formatBits 19 (u / 10) (String (digit_byte (u mod 10)) ""))
    by reflexivity.
  rewrite E. destruct (Z.ltb_spec u 10); [lia|].
  rewrite (formatBits_acc 19).
  assert (Hq : 0 <= u / 10 < 10 ^ 19).
  { split; [apply Z.div_pos; lia|apply Z.div_lt_upper_bound; lia]. }
  rewrite (formatBits_fuel 18 19 (u / 10) "").
  - reflexivity.
  - change (10 ^ Z.of_nat 19) with (10 ^ 19). exact Hq.
  - change (10 ^ Z.of_nat 20) with (10 ^ 20). lia.
Qed.

Lemma formatBits_small u : 0 <= u < 10 -> formatBits 20 u "" = String (digit_byte u) "".
Proof.
  intros Hu.
  assert (E : formatBits 20 u "" =
              if (u <? 10)%Z then String (digit_byte u) ""
              else formatBits 19 (u / 10) (String (digit_byte (u mod 10)) ""))
    by reflexivity.
  rewrite E. destruct (Z.ltb_spec u 10); [reflexivity|lia].
Qed.

(** Induction on the decimal digits of a number. *)
Lemma decimal_ind (P : Z -> Prop) :
  (forall u, 0 <= u < 10 -> P u) ->
  (forall u, 10 <= u -> P (u / 10) -> P u) ->
  forall u, 0 <= u -> P u.
Proof.
  intros Hs Hl u. induction u as [u IH] using (well_founded_induction (Z.lt_wf 0)).
  intros Hu. destruct (Z_lt_le_dec u 10); [apply Hs; lia|].
  apply Hl; [lia|]. apply IH.
  - split; [apply Z.div_pos; lia|apply Z.div_lt; lia].
  - apply Z.div_pos; lia.
Qed.

Lemma formatBits_free c u :
  0 <= u < 2 ^ 64 -> (nat_of_ascii c < 48)%nat -> byte_free c (formatBits 20 u "").
Proof.
  intros [Hu Hlt] Hc. revert Hlt. pattern u. apply decimal_ind; [| |exact Hu]; clear u Hu.
  - intros u Hu _. rewrite formatBits_small by lia. cbn [byte_free].
    split; [apply digit_byte_range; [lia|exact Hc]|exact I].
  - intros u Hu IH Hlt. rewrite formatBits_step by lia.
    apply byte_free_app. split.
    + apply IH. assert (u / 10 <= u) by (apply Z.div_le_upper_bound; lia). lia.
    + cbn [byte_free]. split; [|exact I].
      apply digit_byte_range; [|exact Hc].
      pose proof (Z.mod_pos_bound u 10 ltac:(lia)). lia.
Qed.

Lemma formatBits_nonempty u : 0 <= u < 2 ^ 64 -> 1 <= len (formatBits 20 u "").
Proof.
  intros Hu. destruct (Z_lt_le_dec u 10).
  - rewrite formatBits_small by lia. rewrite len_String. pose proof (len_nonneg ""). lia.
  - rewrite formatBits_step by lia. rewrite len_app, len_String.
    pose proof (len_nonneg (formatBits 20 (u / 10) "")). pose proof (len_nonneg ""). lia.
Qed.

Lemma digits_value_app acc s t :
  digits_value acc (s ++ t) = digits_value (digits_value acc s) t.
Proof.
  revert acc. induction s as [|c s IH]; intros acc; [reflexivity|].
  rewrite str_app_cons. cbn [digits_value]. apply IH.
Qed.

(** The digits that [formatBits] writes denote the number: the 20 rounds
    are enough for a [uint64]. *)
Lemma formatBits_value u : 0 <= u < 2 ^ 64 -> digits_value 0 (formatBits 20 u "") = u.
Proof.
  intros [Hu Hlt]. revert Hlt. pattern u. apply decimal_ind; [| |exact Hu]; clear u Hu.
  - intros u Hu _. rewrite formatBits_small by lia. cbn [digits_value].
    rewrite digit_byte_value; lia.
  - intros u Hu IH Hlt. rewrite formatBits_step by lia.
    rewrite digits_value_app, IH.
    + cbn [digits_value]. pose proof (Z.mod_pos_bound u 10 ltac:(lia)).
      rewrite digit_byte_value by lia. pose proof (Z.div_mod u 10 ltac:(lia)). lia.
    + assert (u / 10 <= u) by (apply Z.div_le_upper_bound; lia). lia.
Qed.

Lemma Itoa_nonneg i : 0 <= i -> strconv_Itoa i = formatBits 20 i "".
Proof. intros Hi. unfold strconv_Itoa. destruct (Z.ltb_spec i 0); [lia|reflexivity]. Qed.

Lemma Itoa_neg i : i < 0 -> strconv_Itoa i = String "-" (strconv_Itoa (- i)).
Proof.
  intros Hi. unfold strconv_Itoa.
  destruct (Z.ltb_spec i 0); [|lia]. destruct (Z.ltb_spec (- i) 0); [lia|reflexivity].
Qed.

(** [Itoa] writes digits and the sign only. *)
Lemma Itoa_free c i :
  - 2 ^ 63 <= i < 2 ^ 63 -> (nat_of_ascii c < 45)%nat -> byte_free c (strconv_Itoa i).
Proof.
  intros Hi Hc. unfold strconv_Itoa. destruct (Z.ltb_spec i 0).
  - cbn [byte_free]. split.
    + intros <-. cbv in Hc. lia.
    + apply formatBits_free; lia.
  - apply formatBits_free; lia.
Qed.

Lemma Itoa_nonempty i : - 2 ^ 63 <= i < 2 ^ 63 -> 1 <= len (strconv_Itoa i).
Proof.
  intros Hi. unfold strconv_Itoa. destruct (Z.ltb_spec i 0).
  - rewrite len_String. pose proof (len_nonneg (formatBits 20 (- i) "")). lia.
  - apply formatBits_nonempty. lia.
Qed.

(** The last three digits of a number from 1000 on. *)
Lemma Itoa_thousands n :
  1000 <= n < 2 ^ 63 -> strconv_Itoa n = strconv_Itoa (n / 1000) ++ pad3 (n mod 1000).
Proof.
  intros Hn.
  assert (H1 : 100 <= n / 10) by (apply Z.div_le_lower_bound; lia).
  assert (H2 : 10 <= n / 10 / 10) by (apply Z.div_le_lower_bound; lia).
  assert (H3 : 0 <= n / 10 / 10 / 10) by (apply Z.div_pos; lia).
  assert (L1 : n / 10 <= n) by (apply Z.div_le_upper_bound; lia).
  assert (L2 : n / 10 / 10 <= n) by (apply Z.div_le_upper_bound; lia).
  rewrite !Itoa_nonneg by (try apply Z.div_pos; lia).
  rewrite (formatBits_step n), (formatBits_step (n / 10)),
          (formatBits_step (n / 10 / 10)) by lia.
  rewrite !str_app_assoc, !str_app_cons, !str_app_nil_l.
  replace (n / 10 / 10 / 10) with (n / 1000) by (rewrite !Z.div_div by lia; reflexivity).
  assert (E2 : n / 10 / 10 mod 10 = n mod 1000 / 100)
    by (Z.to_euclidean_division_equations; lia).
  assert (E1 : n / 10 mod 10 = n mod 1000 / 10 mod 10)
    by (Z.to_euclidean_division_equations; lia).
  assert (E0 : n mod 10 = n mod 1000 mod 10)
    by (Z.to_euclidean_division_equations; lia).
  unfold pad3. rewrite E2, E1, E0. reflexivity.
Qed.

(** ** The grouping loop *)

Lemma group_loop_stop f s parts : len s <= 3 -> group_loop f s parts = (s, parts).
Proof.
  intros Hs. destruct f as [|f]; [reflexivity|]. cbn [group_loop].
  destruct (Z.ltb_spec 3 (len s)); [lia|reflexivity].
Qed.

(** One round moves the last three bytes to the parts. *)
Lemma group_loop_step f t g parts :
  (1 <= String.length t)%nat -> String.length g = 3%nat ->
  group_loop (S f) (t ++ g) parts = group_loop f t (g :: parts).
Proof.
  intros Ht Hg. cbn [group_loop].
  destruct (Z.ltb_spec 3 (len (t ++ g))) as [_|H].
  - rewrite str_length_app, Hg.
    replace (String.length t + 3 - 3)%nat with (String.length t) by lia.
    rewrite substring_app_l, substring_app_r, <- Hg, substring_all. reflexivity.
  - rewrite len_app in H. unfold len in H. lia.
Qed.

Lemma split_last3 s :
  (3 < String.length s)%nat ->
  exists t g, s = t ++ g /\ String.length g = 3%nat /\
    String.length t = (String.length s - 3)%nat.
Proof.
  intros Hs.
  destruct (substring_split s (String.length s - 3) ltac:(lia)) as (E & L1 & L2).
  eexists _, _. split; [exact E|]. split; [rewrite L2; lia|exact L1].
Qed.

Lemma group_loop_acc f s ps qs :
  group_loop f s (ps ++ qs)%list =
  (fst (group_loop f s ps), (snd (group_loop f s ps) ++ qs)%list).
Proof.
  revert s ps. induction f as [|f IH]; intros s ps; cbn [group_loop]; [reflexivity|].
  destruct (3 <? len s)%Z; [|reflexivity].
  rewrite app_comm_cons. apply IH.
Qed.

Lemma group_loop_fuel f1 f2 s ps :
  (String.length s <= f1)%nat -> (String.length s <= f2)%nat ->
  group_loop f1 s ps = group_loop f2 s ps.
Proof.
  revert f2 s ps. induction f1 as [|f1 IH]; intros f2 s ps H1 H2.
  - rewrite !group_loop_stop; [reflexivity|unfold len; lia..].
  - destruct (le_lt_dec (String.length s) 3) as [Hs|Hs].
    + rewrite !group_loop_stop; [reflexivity|unfold len; lia..].
    + destruct f2 as [|f2]; [lia|].
      destruct (split_last3 s Hs) as (t & g & -> & Hg & Ht).
      rewrite str_length_app in *.
      rewrite !group_loop_step by lia. apply IH; lia.
Qed.

Lemma strings_Join_cons x l sep :
  l <> [] -> strings_Join (x :: l) sep = x ++ sep ++ strings_Join l sep.
Proof. destruct l; [congruence|reflexivity]. Qed.

Lemma strings_Join_snoc l g sep :
  l <> [] -> strings_Join (l ++ [g])%list sep = strings_Join l sep ++ sep ++ g.
Proof.
  induction l as [|x l IH]; [congruence|]. intros _.
  destruct l as [|y l].
  - reflexivity.
  - change ((x :: y :: l) ++ [g])%list with (x :: ((y :: l) ++ [g])%list).
    rewrite strings_Join_cons by (destruct l; discriminate).
    rewrite IH by discriminate.
    rewrite (strings_Join_cons x (y :: l)) by discriminate.
    now rewrite !str_app_assoc.
Qed.

Lemma concat_strings_app l1 l2 :
  concat_strings (l1 ++ l2)%list = concat_strings l1 ++ concat_strings l2.
Proof.
  induction l1 as [|x l1 IH]; [reflexivity|].
  cbn [concat_strings app]. now rewrite IH, str_app_assoc.
Qed.

(** What the loop leaves: a first group of one to three bytes and groups
    of three bytes, which together are the string. *)
Lemma group_loop_spec f s :
  (String.length s <= f)%nat -> (1 <= String.length s)%nat ->
  exists first rest, group_loop f s [] = (first, rest) /\
    concat_strings (first :: rest) = s /\
    1 <= len first <= 3 /\ Forall (fun g => len g = 3) rest.
Proof.
  revert s. induction f as [|f IH]; intros s Hf Hs; [lia|].
  destruct (le_lt_dec (String.length s) 3) as [H3|H3].
  - exists s, []. rewrite group_loop_stop by (unfold len; lia).
    split; [reflexivity|]. cbn [concat_strings]. rewrite str_app_nil_r.
    split; [reflexivity|]. split; [unfold len; lia|constructor].
  - destruct (split_last3 s H3) as (t & g & -> & Hg & Ht).
    rewrite str_length_app in *.
    rewrite group_loop_step by lia.
    destruct (IH t ltac:(lia) ltac:(lia)) as (first & rest & E & Hc & Hfirst & Hrest).
    assert (E' : group_loop f t [g] = (first, (rest ++ [g])%list)).
    { change (group_loop f t [g]) with (group_loop f t ([] ++ [g])%list).
      rewrite group_loop_acc, E. reflexivity. }
    exists first, (rest ++ [g])%list.
    split; [exact E'|]. split; [|split; [exact Hfirst|]].
    + change (first :: (rest ++ [g])%list) with ((first :: rest) ++ [g])%list.
      rewrite concat_strings_app, Hc. cbn [concat_strings]. now rewrite str_app_nil_r.
    + apply Forall_app. split; [exact Hrest|]. constructor; [unfold len; lia|constructor].
Qed.

Lemma grouped_short s : len s <= 3 -> grouped s = s.
Proof. intros H. unfold grouped. destruct (Z.leb_spec (len s) 3); [reflexivity|lia]. Qed.

Lemma grouped_long s :
  3 < len s ->
  grouped s = strings_Join (fst (group_loop (String.length s) s []) ::
                            snd (group_loop (String.length s) s [])) " ".
Proof.
  intros H. unfold grouped. destruct (Z.leb_spec (len s) 3); [lia|].
  destruct (group_loop (String.length s) s []). reflexivity.
Qed.

(** The grouped string in both cases. *)
Lemma grouped_Join s :
  grouped s = strings_Join (fst (group_loop (String.length s) s []) ::
                            snd (group_loop (String.length s) s [])) " ".
Proof.
  destruct (Z_le_gt_dec (len s) 3) as [H|H].
  - rewrite grouped_short, group_loop_stop by assumption. reflexivity.
  - apply grouped_long. lia.
Qed.

(** Three more bytes make one more group. *)
Lemma grouped_app3 t g :
  (1 <= String.length t)%nat -> String.length g = 3%nat ->
  grouped (t ++ g) = grouped t ++ " " ++ g.
Proof.
  intros Ht Hg. rewrite (grouped_Join (t ++ g)), (grouped_Join t).
  rewrite str_length_app, Hg.
  replace (String.length t + 3)%nat with (S (String.length t + 2)) by lia.
  rewrite group_loop_step by assumption.
  rewrite (group_loop_fuel (String.length t + 2) (String.length t)) by lia.
  change (group_loop (String.length t) t [g])
    with (group_loop (String.length t) t ([] ++ [g])%list).
  rewrite group_loop_acc. cbn [fst snd].
  set (a := fst (group_loop (String.length t) t [])).
  set (b := snd (group_loop (String.length t) t [])).
  change (a :: (b ++ [g])%list) with ((a :: b) ++ [g])%list.
  apply strings_Join_snoc. discriminate.
Qed.

Lemma FormatIntWithSpaces_grouped n :
  FormatIntWithSpaces n = grouped (strconv_Itoa (int n)).
Proof. reflexivity. Qed.

Lemma byte_free_concat c l :
  byte_free c (concat_strings l) <-> Forall (byte_free c) l.
Proof.
  induction l as [|x l IH]; cbn [concat_strings].
  - split; [constructor|intros _; exact I].
  - rewrite byte_free_app, IH. split.
    + intros [H1 H2]. now constructor.
    + intros H. inversion H. auto.
Qed.

Lemma remove_byte_Join c l :
  Forall (byte_free c) l ->
  remove_byte c (strings_Join l (String c "")) = concat_strings l.
Proof.
  induction l as [|x l IH]; intros H; [reflexivity|].
  inversion H as [|? ? Hx Hl]; subst.
  destruct l as [|y l].
  - cbn [strings_Join concat_strings]. rewrite str_app_nil_r. now apply remove_byte_free.
  - rewrite strings_Join_cons by discriminate.
    rewrite !remove_byte_app, IH by assumption.
    rewrite (remove_byte_free c x Hx). cbn [remove_byte].
    rewrite Ascii.eqb_refl. cbn [remove_byte]. rewrite str_app_nil_l. reflexivity.
Qed.

(** The groups of a non-empty string. *)
Lemma grouped_spec s :
  1 <= len s ->
  exists first rest,
    grouped s = strings_Join (first :: rest) " " /\
    concat_strings (first :: rest) = s /\
    1 <= len first <= 3 /\ Forall (fun g => len g = 3) rest.
Proof.
  intros Hs.
  destruct (group_loop_spec (String.length s) s ltac:(lia) ltac:(unfold len in Hs; lia))
    as (first & rest & E & Hc & Hf & Hr).
  exists first, rest. rewrite grouped_Join, E. auto.
Qed.

(** X4.  Without its spaces the result of [FormatIntWithSpaces] is the
    decimal representation that [strconv.Itoa] gives: the function inserts
    spaces and changes nothing else. *)
Theorem X4_format_without_spaces n :
  remove_byte " " (FormatIntWithSpaces n) = strconv_Itoa (int n).
Proof.
  rewrite FormatIntWithSpaces_grouped.
  pose proof (int_range n) as Hi. unfold in_int in Hi.
  destruct (grouped_spec (strconv_Itoa (int n)) (Itoa_nonempty _ Hi))
    as (first & rest & E & Hc & _).
  rewrite E, remove_byte_Join; [exact Hc|].
  apply byte_free_concat. rewrite Hc. apply Itoa_free; [exact Hi|].
  cbv. lia.
Qed.

(** X5.  The result of [FormatIntWithSpaces] is made of groups separated by
    one space each: a first group of one to three bytes, then groups of
    exactly three bytes, which together are the decimal representation
    (the sign counts as a byte of the first group). *)
Theorem X5_format_groups n :
  exists first rest,
    FormatIntWithSpaces n = strings_Join (first :: rest) " " /\
    concat_strings (first :: rest) = strconv_Itoa (int n) /\
    1 <= len first <= 3 /\ Forall (fun g => len g = 3) rest /\
    Forall (byte_free " ") (first :: rest).
Proof.
  rewrite FormatIntWithSpaces_grouped.
  pose proof (int_range n) as Hi. unfold in_int in Hi.
  destruct (grouped_spec (strconv_Itoa (int n)) (Itoa_nonempty _ Hi))
    as (first & rest & E & Hc & Hf & Hr).
  exists first, rest.
  split; [exact E|]. split; [exact Hc|]. split; [exact Hf|]. split; [exact Hr|].
  apply byte_free_concat. rewrite Hc. apply Itoa_free; [exact Hi|]. cbv. lia.
Qed.

(** X6.  From 1000 on, [FormatIntWithSpaces] obeys the equation of the
    thousands separator: the result for [n] is the result for [n / 1000],
    a space, and the three digits of [n mod 1000]. *)
Theorem X6_format_thousands n :
  1000 <= n < 2 ^ 63 ->
  FormatIntWithSpaces n = FormatIntWithSpaces (n / 1000) ++ " " ++ pad3 (n mod 1000).
Proof.
  intros Hn.
  assert (Hq : 0 <= n / 1000 <= n).
  { split; [apply Z.div_pos; lia|apply Z.div_le_upper_bound; lia]. }
  rewrite !FormatIntWithSpaces_grouped.
  rewrite !int_small by (unfold in_int; lia).
  rewrite Itoa_thousands by assumption.
  apply grouped_app3; [|reflexivity].
  pose proof (Itoa_nonempty (n / 1000) ltac:(lia)) as H. unfold len in H. lia.
Qed.

Lemma X6_witness :
  1000 <= 1234567 < 2 ^ 63 /\
  FormatIntWithSpaces 1234567 =
    FormatIntWithSpaces (1234567 / 1000) ++ " " ++ pad3 (1234567 mod 1000).
Proof.
  split; [lia|]. apply (X6_format_thousands 1234567). lia.
Defined.

(** A byte in front of a string joins its first group, or stands alone
    when the length of the string is a multiple of three. *)
Lemma grouped_cons c u :
  grouped (String c u) =
  if ((len u mod 3 =? 0)%Z && (0 <? len u)%Z)%bool
  then String c (" " ++ grouped u) else String c (grouped u).
Proof.
  remember (String.length u) as k eqn:Hk. revert u Hk.
  induction k as [k IH] using lt_wf_ind. intros u Hk.
  destruct (le_lt_dec (String.length u) 3) as [H3|H3].
  - destruct u as [|a [|b [|d [|e u]]]]; cbn [String.length] in H3; try lia;
      reflexivity.
  - destruct (split_last3 u H3) as (t & g & -> & Hg & Ht).
    rewrite str_length_app in *.
    rewrite <- str_app_cons.
    rewrite (grouped_app3 (String c t) g) by (cbn [String.length]; lia).
    rewrite (grouped_app3 t g) by lia.
    rewrite (IH (String.length t) ltac:(lia) t eq_refl).
    assert (Em : len (t ++ g) mod 3 = len t mod 3).
    { rewrite len_app. unfold len at 2. rewrite Hg.
      replace (len t + Z.of_nat 3) with (len t + 1 * 3) by lia.
      apply Z.mod_add. lia. }
    assert (E1 : (0 <? len t)%Z = true) by (apply Z.ltb_lt; unfold len; lia).
    assert (E2 : (0 <? len (t ++ g))%Z = true)
      by (apply Z.ltb_lt; rewrite len_app; unfold len; lia).
    rewrite Em, E1, E2, !andb_true_r.
    destruct (len t mod 3 =? 0)%Z;
      rewrite ?str_app_cons, ?str_app_assoc; reflexivity.
Qed.

(** X7.  A negative number is the minus sign in front of the result for
    its absolute value; the sign is followed by a space when the number of
    digits is a multiple of three. *)
Theorem X7_format_negative n :
  - 2 ^ 63 < n < 0 ->
  FormatIntWithSpaces n =
  if (len (strconv_Itoa (- n)) mod 3 =? 0)%Z
  then "- " ++ FormatIntWithSpaces (- n)
  else "-" ++ FormatIntWithSpaces (- n).
Proof.
  intros Hn. rewrite !FormatIntWithSpaces_grouped.
  rewrite !int_small by (unfold in_int; lia).
  rewrite (Itoa_neg n) by lia. rewrite grouped_cons.
  pose proof (Itoa_nonempty (- n) ltac:(lia)) as Hne.
  destruct (Z.ltb_spec 0 (len (strconv_Itoa (- n)))); [|lia].
  rewrite andb_true_r.
  destruct (len (strconv_Itoa (- n)) mod 3 =? 0)%Z; reflexivity.
Qed.

Lemma X7_witness :
  - 2 ^ 63 < -123456 < 0 /\
  FormatIntWithSpaces (-123456) =
  if (len (strconv_Itoa (- -123456)) mod 3 =? 0)%Z
  then "- " ++ FormatIntWithSpaces (- -123456)
  else "-" ++ FormatIntWithSpaces (- -123456).
Proof.
  split; [lia|]. apply (X7_format_negative (-123456)). lia.
Defined.

Local Close Scope string_scope.

(** * Wrapping a path *)

Local Open Scope string_scope.

Lemma strings_Split_nonempty s c : strings_Split s c <> [].
Proof.
  destruct s as [|a s]; cbn [strings_Split]; [discriminate|].
  destruct (Ascii.eqb a c); [discriminate|].
  destruct (strings_Split s c); discriminate.
Qed.

(** Joining the pieces with the separator gives the string back. *)
Lemma strings_Split_Join s c : strings_Join (strings_Split s c) (String c "") = s.
Proof.
  induction s as [|a s IH]; [reflexivity|]. cbn [strings_Split].
  destruct (Ascii.eqb_spec a c) as [->|Hne].
  - rewrite strings_Join_cons by apply strings_Split_nonempty.
    rewrite IH. reflexivity.
  - pose proof (strings_Split_nonempty s c) as Hn.
    destruct (strings_Split s c) as [|p ps]; [congruence|].
    destruct ps as [|q ps].
    + cbn [strings_Join] in *. now rewrite IH.
    + rewrite strings_Join_cons in * by discriminate.
      rewrite str_app_cons, IH. reflexivity.
Qed.

(** No piece holds the separator. *)
Lemma strings_Split_free s c : Forall (byte_free c) (strings_Split s c).
Proof.
  induction s as [|a s IH]; cbn [strings_Split].
  - constructor; [exact I|constructor].
  - destruct (Ascii.eqb_spec a c) as [->|Hne].
    + constructor; [exact I|exact IH].
    + pose proof (strings_Split_nonempty s c) as Hn.
      destruct (strings_Split s c) as [|p ps]; [congruence|].
      inversion IH; subst. constructor; [|assumption].
      cbn [byte_free]. auto.
Qed.

(** A string without separator is its only piece. *)
Lemma strings_Split_none s c : byte_free c s -> strings_Split s c = [s].
Proof.
  induction s as [|a s IH]; [reflexivity|]. cbn [byte_free strings_Split].
  intros [Ha Hs]. destruct (Ascii.eqb_spec a c); [contradiction|].
  now rewrite (IH Hs).
Qed.

Lemma strings_Join_slashed p rest :
  strings_Join (p :: rest) "/" = p ++ concat_strings (slashed rest).
Proof.
  revert p. induction rest as [|q rest IH]; intros p.
  - cbn [strings_Join slashed map concat_strings]. now rewrite str_app_nil_r.
  - rewrite strings_Join_cons by discriminate. rewrite IH.
    cbn [slashed map concat_strings]. fold (slashed rest).
    rewrite !str_app_cons, !str_app_nil_l. reflexivity.
Qed.

Lemma len_empty s : len s = 0 -> s = "".
Proof. destruct s; [reflexivity|]. rewrite len_String. pose proof (len_nonneg s). lia. Qed.

(** ** The loop *)

(** A line is as the wrapping wants it: within the limit, or made of one
    segment that does not fit. *)
Local Abbreviation line_ok maxLength line := (len line <= maxLength \/ single_segment line).

Lemma snoc_nonempty {E : Type} (l : list E) (x : E) : (l ++ [x])%list <> [].
Proof. destruct l; discriminate. Qed.

Ltac wrap_simp :=
  repeat first
    [ progress change (0 <? 0)%Z with false
    | progress change (0 =? 0)%Z with true
    | progress cbn [andb]
    | progress change (int (0 + 1)) with 1
    | progress cbv beta iota zeta ].

(** One round of the loop behind the first piece, on the last line. *)
Lemma wrap_step_lines maxLength i p done line :
  1 <= i -> len line + len p + 1 < 2 ^ 62 ->
  byte_free "/" p -> line_ok maxLength line ->
  exists done' line',
    wrap_step maxLength i p (strings_Join (done ++ [line])%list newline, len line) =
      (strings_Join (done' ++ [line'])%list newline, len line') /\
    ((done' = done /\ line' = line ++ String "/" p) \/
     (done' = (done ++ [line])%list /\ line' = String "/" p)) /\
    line_ok maxLength line'.
Proof.
  intros Hi Hlen Hp Hline. unfold wrap_step.
  pose proof (len_nonneg line) as L0. pose proof (len_nonneg p) as P0.
  destruct (Z.ltb_spec 0 i) as [_|]; [|lia].
  rewrite (int_small (len p + 1)) by (unfold in_int; lia).
  rewrite (int_small (len line + (len p + 1))) by (unfold in_int; lia).
  destruct (Z.ltb_spec 0 (len line)) as [Hpos|Hzero]; cbn [andb].
  - destruct (Z.ltb_spec maxLength (len line + (len p + 1))) as [Hover|Hfit].
    + (* a new line *)
      wrap_simp.
      rewrite (int_small (1 + len p)) by (unfold in_int; lia).
      exists (done ++ [line])%list, (String "/" p).
      split; [|split; [right; auto|right; exact Hp]].
      rewrite len_String. f_equal.
      rewrite (strings_Join_snoc (done ++ [line])%list) by apply snoc_nonempty.
      rewrite !str_app_assoc. reflexivity.
    + (* the segment joins the line *)
      assert (E1 : (0 <? len line)%Z = true) by (apply Z.ltb_lt; lia).
      assert (E2 : (len line + 1 =? 0)%Z = false) by (apply Z.eqb_neq; lia).
      wrap_simp. rewrite ?E1. wrap_simp.
      rewrite ?(int_small (len line + 1)) by (unfold in_int; lia).
      rewrite ?E1, ?E2. wrap_simp. rewrite ?E2. wrap_simp.
      rewrite (int_small (len line + 1 + len p)) by (unfold in_int; lia).
      exists done, (line ++ String "/" p).
      split; [|split; [left; auto|left; rewrite len_app, len_String; lia]].
      rewrite len_app, len_String. f_equal; [|lia].
      destruct done as [|d done].
      * cbn [app strings_Join]. rewrite !str_app_assoc. reflexivity.
      * change ((d :: done) ++ [line])%list with ((d :: done) ++ [line])%list.
        rewrite !strings_Join_snoc by discriminate.
        rewrite !str_app_assoc. reflexivity.
  - (* the line is empty *)
    assert (line = "") as -> by (apply len_empty; lia).
    change (len "") with 0. wrap_simp.
    rewrite (int_small (1 + len p)) by (unfold in_int; lia).
    exists done, (String "/" p).
    split; [|split; [left; auto|right; exact Hp]].
    rewrite len_String. f_equal.
    destruct done as [|d done].
    + cbn [app strings_Join]. rewrite !str_app_nil_l. reflexivity.
    + rewrite !strings_Join_snoc by discriminate.
      rewrite !str_app_assoc, !str_app_nil_l. reflexivity.
Qed.

Lemma slashed_count l : Z.of_nat (length l) <= len (concat_strings (slashed l)).
Proof.
  induction l as [|p l IH]; [cbn; unfold len; cbn; lia|].
  cbn [slashed map concat_strings length]. fold (slashed l).
  rewrite len_app, len_String. pose proof (len_nonneg p). lia.
Qed.

Lemma byte_free_single c s : byte_free c s -> single_segment s \/ c <> "/"%char.
Proof.
  intros H. destruct (ascii_dec c "/") as [->|Hne]; [left|right; exact Hne].
  destruct s as [|a s]; [exact I|]. cbn [single_segment]. exact (proj2 H).
Qed.

(** The loop behind the first piece: the last line grows, lines are
    added, and every line is as the wrapping wants it. *)
Lemma wrap_loop_lines maxLength parts : forall i done line,
  1 <= i -> i + Z.of_nat (length parts) < 2 ^ 63 ->
  len line + len (concat_strings (slashed parts)) < 2 ^ 62 ->
  Forall (byte_free "/") parts -> line_ok maxLength line ->
  exists ext more,
    fst (wrap_loop maxLength i parts (strings_Join (done ++ [line])%list newline, len line)) =
      strings_Join (done ++ (line ++ ext)%string :: more)%list newline /\
    ext ++ concat_strings more = concat_strings (slashed parts) /\
    line_ok maxLength (line ++ ext) /\
    Forall (fun l => len l <= maxLength \/ single_segment l) more /\
    Forall (begins_with "/") more.
Proof.
  induction parts as [|p rest IH]; intros i done line Hi Hcount Hlen Hfree Hline.
  - exists "", []. cbn [wrap_loop fst concat_strings slashed map].
    rewrite !str_app_nil_r. auto.
  - inversion Hfree as [|? ? Hp Hrest]; subst.
    cbn [slashed map concat_strings length] in Hlen, Hcount. fold (slashed rest) in Hlen.
    rewrite len_app, len_String in Hlen.
    pose proof (len_nonneg (concat_strings (slashed rest))) as R0.
    pose proof (len_nonneg line) as L0. pose proof (len_nonneg p) as P0.
    cbn [wrap_loop].
    destruct (wrap_step_lines maxLength i p done line Hi ltac:(lia) Hp Hline)
      as (done' & line' & Estep & Hcase & Hok).
    rewrite Estep. rewrite (int_small (i + 1)) by (unfold in_int; lia).
    assert (Hlen' : len line' + len (concat_strings (slashed rest)) < 2 ^ 62).
    { destruct Hcase as [[_ ->]|[_ ->]]; rewrite ?len_app, ?len_String; lia. }
    destruct (IH (i + 1) done' line' ltac:(lia) ltac:(lia) Hlen' Hrest Hok)
      as (ext' & more' & Efin & Hcat & Hok' & Hmore & Hbeg).
    rewrite Efin. cbn [slashed map concat_strings]. fold (slashed rest).
    destruct Hcase as [[-> ->]|[-> ->]].
    + exists (String "/" p ++ ext'), more'.
      rewrite <- !str_app_assoc. split; [reflexivity|].
      split; [rewrite str_app_assoc, Hcat; reflexivity|]. auto.
    + exists "", ((String "/" p ++ ext') :: more').
      rewrite str_app_nil_r, str_app_nil_l. cbn [concat_strings].
      split; [now rewrite <- app_assoc|].
      split; [rewrite str_app_assoc, Hcat; reflexivity|].
      split; [exact Hline|]. split; constructor; auto.
      rewrite str_app_cons. reflexivity.
Qed.

(** The lines of the result. *)
Lemma wrap_lines s maxLength :
  len s < 2 ^ 62 ->
  exists first more,
    wrapStringIntelligently s maxLength = strings_Join (first :: more) newline /\
    concat_strings (first :: more) = s /\
    Forall (begins_with "/") more /\
    Forall (fun l => len l <= maxLength \/ single_segment l) (first :: more).
Proof.
  intros Hs. unfold wrapStringIntelligently.
  destruct (Z.leb_spec (len s) maxLength) as [Hfit|Hlong].
  { exists s, []. cbn [strings_Join concat_strings]. rewrite str_app_nil_r.
    split_and!; auto. }
  pose proof (strings_Split_Join s "/") as HJ.
  pose proof (strings_Split_free s "/") as HF.
  pose proof (strings_Split_nonempty s "/") as HN.
  destruct (strings_Split s "/") as [|p0 rest]; [congruence|].
  pose proof (Forall_inv HF) as Hp0. pose proof (Forall_inv_tail HF) as Hrest.
  destruct rest as [|p1 rest].
  { cbn [length strings_Join] in *. change (Z.of_nat 1 <=? 1)%Z with true. cbv iota.
    subst p0. exists s, []. cbn [strings_Join concat_strings]. rewrite str_app_nil_r.
    split_and!; auto. constructor; [|constructor]. right.
    destruct (byte_free_single _ _ Hp0); [assumption|congruence]. }
  destruct (Z.leb_spec (Z.of_nat (length (p0 :: p1 :: rest))) 1) as [Hle|_].
  { cbn [length] in Hle. lia. }
  rewrite strings_Join_slashed in HJ.
  pose proof (len_nonneg p0) as P0.
  pose proof (slashed_count (p1 :: rest)) as Hcnt.
  assert (Hlen : len p0 + len (concat_strings (slashed (p1 :: rest))) < 2 ^ 62).
  { rewrite <- len_app, HJ. exact Hs. }
  assert (Estep : wrap_step maxLength 0 p0 ("", 0) = (p0, len p0)).
  { unfold wrap_step. wrap_simp. rewrite Z.add_0_l, int_small; [reflexivity|].
    unfold in_int. lia. }
  cbn [wrap_loop]. rewrite Estep. change (int (0 + 1)) with 1.
  change p0 with (strings_Join ([] ++ [p0])%list newline) at 1.
  assert (Hcount : 1 + Z.of_nat (length (p1 :: rest)) < 2 ^ 63) by lia.
  destruct (wrap_loop_lines maxLength (p1 :: rest) 1 [] p0 ltac:(lia) Hcount Hlen Hrest)
    as (ext & more & Efin & Hcat & Hok & Hmore & Hbeg).
  { right. destruct (byte_free_single _ _ Hp0); [assumption|congruence]. }
  exists (p0 ++ ext), more. cbn [app] in Efin.
  split; [exact Efin|]. cbn [concat_strings].
  split; [rewrite str_app_assoc, Hcat; exact HJ|].
  split; [exact Hbeg|]. constructor; assumption.
Qed.

(** X8.  [wrapStringIntelligently] only inserts line feeds: its result is
    a list of lines, joined by line feeds, whose concatenation is the input,
    and every line after the first begins with the '/' it was broken at. *)
Theorem X8_wrap_inserts_line_feeds s maxLength :
  len s < 2 ^ 62 ->
  exists first more,
    wrapStringIntelligently s maxLength = strings_Join (first :: more) newline /\
    concat_strings (first :: more) = s /\
    Forall (begins_with "/") more.
Proof.
  intros Hs. destruct (wrap_lines s maxLength Hs) as (first & more & E & Hc & Hb & _).
  exists first, more. auto.
Qed.

Lemma X8_witness :
  len "home/user/pictures/img.png" < 2 ^ 62 /\
  exists first more,
    wrapStringIntelligently "home/user/pictures/img.png" 12 =
      strings_Join (first :: more) newline /\
    concat_strings (first :: more) = "home/user/pictures/img.png" /\
    Forall (begins_with "/") more.
Proof.
  split; [vm_compute; reflexivity|].
  apply (X8_wrap_inserts_line_feeds "home/user/pictures/img.png" 12).
  vm_compute. reflexivity.
Defined.

(** X9.  Every line of the result of [wrapStringIntelligently] is at most
    [maxLength] bytes long, unless it is a single path segment that does
    not fit: such a line has no '/' after its first byte. *)
Theorem X9_wrap_line_length s maxLength :
  len s < 2 ^ 62 ->
  exists lines,
    wrapStringIntelligently s maxLength = strings_Join lines newline /\
    concat_strings lines = s /\
    Forall (fun l => len l <= maxLength \/ single_segment l) lines.
Proof.
  intros Hs. destruct (wrap_lines s maxLength Hs) as (first & more & E & Hc & _ & Hl).
  exists (first :: more). auto.
Qed.

Lemma X9_witness :
  len "home/user/pictures/img.png" < 2 ^ 62 /\
  exists lines,
    wrapStringIntelligently "home/user/pictures/img.png" 12 = strings_Join lines newline /\
    concat_strings lines = "home/user/pictures/img.png" /\
    Forall (fun l => len l <= 12 \/ single_segment l) lines.
Proof.
  split; [vm_compute; reflexivity|].
  apply (X9_wrap_line_length "home/user/pictures/img.png" 12).
  vm_compute. reflexivity.
Defined.

(** X10.  A string that fits the limit, or that holds no '/', comes back
    unchanged. *)
Theorem X10_wrap_unchanged s maxLength :
  len s <= maxLength \/ byte_free "/" s ->
  wrapStringIntelligently s maxLength = s.
Proof.
  intros [Hfit|Hfree]; unfold wrapStringIntelligently.
  - destruct (Z.leb_spec (len s) maxLength); [reflexivity|lia].
  - destruct (len s <=? maxLength)%Z; [reflexivity|].
    rewrite (strings_Split_none s "/" Hfree). reflexivity.
Qed.

Lemma X10_witness :
  (len "img.png" <= 3 \/ byte_free "/" "img.png") /\
  wrapStringIntelligently "img.png" 3 = "img.png".
Proof.
  assert (H : len "img.png" <= 3 \/ byte_free "/" "img.png").
  { right. cbn [byte_free]. repeat split; discriminate. }
  split; [exact H|]. apply (X10_wrap_unchanged "img.png" 3 H).
Defined.

Local Close Scope string_scope.

(** * Further properties of the loader *)

Local Open Scope string_scope.

Lemma get_app_r p s k : String.get (String.length p + k) (p ++ s) = String.get k s.
Proof.
  induction p as [|c p IH]; [reflexivity|].
  rewrite str_app_cons. cbn [String.length Nat.add String.get]. exact IH.
Qed.

(** The extension is a suffix of the path. *)
Lemma Ext_from_suffix path n :
  (n <= String.length path)%nat -> exists p, path = p ++ Ext_from path n.
Proof.
  induction n as [|i IH]; intros Hn; cbn [Ext_from].
  - exists path. now rewrite str_app_nil_r.
  - destruct (String.get i path) as [c|]; [|exists path; now rewrite str_app_nil_r].
    destruct (Ascii.eqb c "/"); [exists path; now rewrite str_app_nil_r|].
    destruct (Ascii.eqb c ".").
    + destruct (substring_split path i ltac:(lia)) as (E & _).
      eexists. exact E.
    + apply IH. lia.
Qed.

Lemma Ext_from_skip path i c :
  String.get i path = Some c -> Ascii.eqb c "/" = false -> Ascii.eqb c "." = false ->
  Ext_from path (S i) = Ext_from path i.
Proof. intros H H1 H2. cbn [Ext_from]. now rewrite H, H1, H2. Qed.

Lemma Ext_from_dot path i :
  String.get i path = Some "."%char ->
  Ext_from path (S i) = String.substring i (String.length path - i) path.
Proof. intros H. cbn [Ext_from]. now rewrite H. Qed.

Lemma Ext_jxl p : filepath_Ext (p ++ ".jxl") = ".jxl".
Proof.
  unfold filepath_Ext. rewrite str_length_app.
  change (String.length ".jxl") with 4%nat.
  replace (String.length p + 4)%nat with (S (String.length p + 3)) by lia.
  rewrite (Ext_from_skip _ _ "l") by (rewrite ?get_app_r; reflexivity).
  replace (String.length p + 3)%nat with (S (String.length p + 2)) by lia.
  rewrite (Ext_from_skip _ _ "x") by (rewrite ?get_app_r; reflexivity).
  replace (String.length p + 2)%nat with (S (String.length p + 1)) by lia.
  rewrite (Ext_from_skip _ _ "j") by (rewrite ?get_app_r; reflexivity).
  replace (String.length p + 1)%nat with (S (String.length p + 0)) by lia.
  rewrite Ext_from_dot by (rewrite get_app_r; reflexivity).
  rewrite Nat.add_0_r, str_length_app.
  replace (String.length p + String.length ".jxl" - String.length p)%nat with 4%nat
    by (cbn [String.length]; lia).
  rewrite substring_app_r. reflexivity.
Qed.

(** X11.  [LoadImage] takes the conversion route exactly for the paths
    that end in the four bytes [.jxl]: this is when [filepath.Ext] returns
    [".jxl"]. *)
Theorem X11_conversion_route path :
  filepath_Ext path = ".jxl" <-> exists p, path = p ++ ".jxl".
Proof.
  split.
  - intros H. destruct (Ext_from_suffix path (String.length path) ltac:(lia)) as (p & E).
    fold (filepath_Ext path) in E. rewrite H in E. now exists p.
  - intros (p & ->). apply Ext_jxl.
Qed.

(** X12.  [LoadImage] starts at most one process, and only the converter
    [djxl] found on the [PATH], for a path with the extension [.jxl] and
    with this path and the temporary file as its arguments; in every other
    case it leaves the files and the processes as they are. *)
Theorem X12_LoadImage_processes LookPath run decode path w :
  snd (LoadImage LookPath run decode path w) = w \/
  (filepath_Ext path = ".jxl" /\
   exists p, LookPath "djxl" = Some p /\
     trace (snd (LoadImage LookPath run decode path w)) =
       (trace w ++ [Spawn p ["djxl"; path; (path ++ ".converted.png")%string]])%list).
Proof.
  unfold LoadImage.
  destruct (String.eqb_spec (filepath_Ext path) ".jxl") as [Hext|Hext].
  - unfold exec_Command. destruct (LookPath "djxl") as [p|] eqn:Hlook.
    + right. split; [exact Hext|]. exists p. split; [reflexivity|].
      unfold bind, Cmd_Run. cbn [Cmd_Err Cmd_Path Cmd_Args].
      destruct (run p ["djxl"; path; path ++ ".converted.png"] (files w)) as [fs st].
      destruct (Z.eqb st 0).
      * unfold imaging_Open, os_Remove, ret. cbn [files trace].
        destruct (fs !! (path ++ ".converted.png")) as [data|] eqn:E.
        -- destruct (decode data); cbn [files snd]; rewrite E; reflexivity.
        -- cbn [files snd]. rewrite E. reflexivity.
      * reflexivity.
    + left. reflexivity.
  - left. unfold imaging_Open.
    destruct (files w !! path) as [data|]; [destruct (decode data)|]; reflexivity.
Qed.

(** X13.  After a conversion that exits with status 0, [LoadImage] returns
    what the decoder makes of the temporary file, or the error of a missing
    file when the converter wrote none; in each case the temporary file is
    gone afterwards and the other files are as the converter left them. *)
Theorem X13_LoadImage_converted LookPath run decode path w p fs' :
  filepath_Ext path = ".jxl" ->
  LookPath "djxl" = Some p ->
  run p ["djxl"; path; path ++ ".converted.png"] (files w) = (fs', 0) ->
  LoadImage LookPath run decode path w =
    (match fs' !! (path ++ ".converted.png") with
     | None => inr (ErrNotExist (path ++ ".converted.png"))
     | Some data =>
         match decode data with
         | Some img => inl img
         | None => inr ErrFormat
         end
     end,
     mkWorld (delete (path ++ ".converted.png") fs')
             (trace w ++ [Spawn p ["djxl"; path; (path ++ ".converted.png")%string]])%list).
Proof.
  intros Hext Hlook Hrun. unfold LoadImage. rewrite Hext.
  change (String.eqb ".jxl" ".jxl") with true. cbv iota.
  unfold exec_Command. rewrite Hlook.
  unfold bind, Cmd_Run. cbn [Cmd_Err Cmd_Path Cmd_Args]. rewrite Hrun.
  change (0 =? 0)%Z with true. cbv iota.
  unfold imaging_Open, os_Remove, ret. cbn [files trace].
  destruct (fs' !! (path ++ ".converted.png")) as [data|] eqn:E.
  - destruct (decode data); cbn [files snd]; rewrite E; reflexivity.
  - cbn [files]. rewrite E. rewrite (delete_id _ _ E). reflexivity.
Qed.

Lemma X13_witness :
  filepath_Ext "a.jxl" = ".jxl" /\
  LookPath_djxl "djxl" = Some "/usr/bin/djxl" /\
  djxl_good "/usr/bin/djxl" ["djxl"; "a.jxl"; "a.jxl" ++ ".converted.png"]
    (files world_one_jxl)
    = (<["a.jxl.converted.png" := [137; 80; 78; 71; 13; 10; 26; 10]%Z]> (files world_one_jxl), 0) /\
  LoadImage LookPath_djxl djxl_good decode_white "a.jxl" world_one_jxl =
    (match (<["a.jxl.converted.png" := [137; 80; 78; 71; 13; 10; 26; 10]%Z]>
              (files world_one_jxl)) !! ("a.jxl" ++ ".converted.png") with
     | None => inr (ErrNotExist ("a.jxl" ++ ".converted.png"))
     | Some data =>
         match decode_white data with
         | Some img => inl img
         | None => inr ErrFormat
         end
     end,
     mkWorld (delete ("a.jxl" ++ ".converted.png")
                (<["a.jxl.converted.png" := [137; 80; 78; 71; 13; 10; 26; 10]%Z]>
                   (files world_one_jxl)))
             (trace world_one_jxl ++
              [Spawn "/usr/bin/djxl" ["djxl"; "a.jxl"; ("a.jxl" ++ ".converted.png")%string]])%list).
Proof.
  split; [reflexivity|]. split; [reflexivity|]. split; [reflexivity|].
  apply (X13_LoadImage_converted LookPath_djxl djxl_good decode_white "a.jxl" world_one_jxl
           "/usr/bin/djxl"); reflexivity.
Defined.

(** X18.  [MoveFileToTrash] does not delete anything by itself.  When the
    [trash] command is not on the [PATH] it returns the lookup error, and
    files and processes stay as they are; otherwise it starts this command
    once, with the path as its only argument, leaves the files as the
    command left them and succeeds exactly when the command exits with
    status 0. *)
Theorem X18_MoveFileToTrash_outcome LookPath run path w :
  (LookPath "trash" = None /\
   MoveFileToTrash LookPath run path w = (Some (ErrNotFound "trash"), w)) \/
  (exists p fs st,
     LookPath "trash" = Some p /\
     run p ["trash"; path] (files w) = (fs, st) /\
     snd (MoveFileToTrash LookPath run path w) =
       mkWorld fs (trace w ++ [Spawn p ["trash"; path]])%list /\
     (fst (MoveFileToTrash LookPath run path w) = None <-> st = 0%Z) /\
     (st <> 0%Z -> fst (MoveFileToTrash LookPath run path w) = Some (ExitError st))).
Proof.
  unfold MoveFileToTrash, exec_Command.
  destruct (LookPath "trash") as [p|] eqn:Hlook; [right|left; split; reflexivity].
  unfold Cmd_Run. cbn [Cmd_Err Cmd_Path Cmd_Args].
  destruct (run p ["trash"; path] (files w)) as [fs st] eqn:Hrun.
  exists p, fs, st. split; [reflexivity|]. split; [first [exact Hrun|reflexivity]|].
  split; [reflexivity|]. cbn [fst].
  destruct (Z.eqb_spec st 0) as [->|Hne].
  - split; [tauto|]. intros H. congruence.
  - split; [split; [discriminate|contradiction]|reflexivity].
Qed.

Local Close Scope string_scope.

(** * The sizes that the rescaler asks for *)

Lemma qle_trans N1 D1 e1 N2 D2 e2 N3 D3 e3 :
  0 < D1 -> 0 < D2 -> 0 < D3 ->
  qle N1 D1 e1 N2 D2 e2 -> qle N2 D2 e2 N3 D3 e3 -> qle N1 D1 e1 N3 D3 e3.
Proof.
  intros H1 H2 H3 H12 H23.
  set (t := Z.min e1 (Z.min e2 e3)).
  apply -> (qle_at t) in H12; [|lia..].
  apply -> (qle_at t) in H23; [|lia..].
  apply <- (qle_at t); [|lia..].
  pose proof (pow2_pos (e1 - t) ltac:(lia)) as P1.
  pose proof (pow2_pos (e2 - t) ltac:(lia)) as P2.
  pose proof (pow2_pos (e3 - t) ltac:(lia)) as P3.
  set (A := 2 ^ (e1 - t)) in *. set (B := 2 ^ (e2 - t)) in *. set (C := 2 ^ (e3 - t)) in *.
  assert (Ha : D3 * (N1 * D2 * A) <= D3 * (N2 * D1 * B))
    by (apply Z.mul_le_mono_nonneg_l; lia).
  assert (Hb : D1 * (N2 * D3 * B) <= D1 * (N3 * D2 * C))
    by (apply Z.mul_le_mono_nonneg_l; lia).
  apply (Z.mul_le_mono_pos_l _ _ D2); [lia|].
  replace (D2 * (N1 * D3 * A)) with (D3 * (N1 * D2 * A)) by ring.
  replace (D2 * (N3 * D1 * C)) with (D1 * (N3 * D2 * C)) by ring.
  replace (D3 * (N2 * D1 * B)) with (D1 * (N2 * D3 * B)) in Ha by ring.
  lia.
Qed.

(** [a / c <= s] gives [a / s <= c]. *)
Lemma qle_div_swap_le ma ea mc ec ms es :
  qle ma mc (ea - ec) ms 1 es -> qle ma ms (ea - es) mc 1 ec.
Proof.
  intros H. set (t := Z.min (ea - ec) es).
  apply -> (qle_at t) in H; [|lia..].
  apply <- (qle_at (t + ec - es)); [|lia..].
  replace (ea - es - (t + ec - es)) with (ea - ec - t) by lia.
  replace (ec - (t + ec - es)) with (es - t) by lia.
  lia.
Qed.

(** The float32 of a value between 1 and [2 ^ 63] is normal. *)
Lemma F32_normal ma ea :
  bounded F32.prec F32.emax ma ea = true ->
  qle 8388608 1 (-23) (Z.pos ma) 1 ea -> qle (Z.pos ma) 1 ea 8388608 1 40 ->
  8388608 <= Z.pos ma < 16777216 /\ -23 <= ea <= 40.
Proof.
  intros Hb Hl Hu. apply bounded_unfold in Hb. destruct Hb as [Hf _].
  destruct (canonical_digits F32.prec F32.emax F32_prec_pos (Z.pos ma) ea ltac:(lia) Hf)
    as (Hm & Hemin & Hnorm).
  change (2 ^ F32.prec) with 16777216 in Hm.
  change (2 ^ (F32.prec - 1)) with 8388608 in Hnorm.
  change (emin F32.prec F32.emax) with (-149) in *.
  assert (Hlow : -23 <= ea).
  { destruct (Z_le_gt_dec (-23) ea) as [|Hc]; [assumption|exfalso].
    apply -> (qle_at ea) in Hl; [|lia..].
    rewrite Z.sub_diag, Z.pow_0_r in Hl.
    pose proof (pow2_le 1 (-23 - ea) ltac:(lia)) as Hp.
    change (2 ^ 1) with 2 in Hp. nia. }
  specialize (Hnorm ltac:(lia)).
  split; [lia|]. split; [exact Hlow|].
  destruct (Z_le_gt_dec ea 40) as [|Hc]; [assumption|exfalso].
  apply -> (qle_at 40) in Hu; [|lia..].
  rewrite Z.sub_diag, Z.pow_0_r in Hu.
  pose proof (pow2_le 1 (ea - 40) ltac:(lia)) as Hp.
  change (2 ^ 1) with 2 in Hp. nia.
Qed.

(** A size divided by its own scale factor: the scale factor
    [float32(a / 400)] is at most one unit in the last place below
    [a / 400], so the quotient stays below 400.5. *)
Lemma own_scale_le ma ea ms es :
  bounded F32.prec F32.emax ma ea = true ->
  qle 8388608 1 (-23) (Z.pos ma) 1 ea -> qle (Z.pos ma) 1 ea 8388608 1 40 ->
  SFdiv F32.prec F32.emax (S754_finite false ma ea) (S754_finite false 13107200 (-15))
    = S754_finite false ms es ->
  bounded F32.prec F32.emax ms es = true ->
  nonneg_canon F32.prec F32.emax
    (SFdiv F32.prec F32.emax (S754_finite false ma ea) (S754_finite false ms es)) /\
  SFleb (SFdiv F32.prec F32.emax (S754_finite false ma ea) (S754_finite false ms es))
        (S754_finite false 13123584 (-15)) = true.
Proof.
  intros Ha Hl Hu Hs Hbs.
  destruct (F32_normal ma ea Ha Hl Hu) as (Hm & He).
  set (q := Z.pos ma * 16 / 25).
  assert (Hq : 25 * q <= Z.pos ma * 16 < 25 * q + 25).
  { unfold q. pose proof (Z.div_mod (Z.pos ma * 16) 25 ltac:(lia)).
    pose proof (Z.mod_pos_bound (Z.pos ma * 16) 25 ltac:(lia)). lia. }
  assert (Hqr : 4194304 < q < 16777216) by lia.
  set (d := Zdigits2 q).
  pose proof (Zdigits2_bounds q ltac:(lia)) as Hd. fold d in Hd.
  assert (Hd' : d = 23 \/ d = 24).
  { assert (22 < d).
    { destruct (Z_le_gt_dec d 22) as [Hc|]; [|lia].
      destruct (Z_le_gt_dec 0 d) as [H0|H0].
      - pose proof (pow2_le d 22 ltac:(lia)) as Hp. change (2 ^ 22) with 4194304 in Hp. lia.
      - rewrite (Z.pow_neg_r 2 d) in Hd by lia. lia. }
    assert (d < 25).
    { destruct (Z_le_gt_dec 25 d) as [Hc|]; [|lia].
      pose proof (pow2_le 24 (d - 1) ltac:(lia)) as Hp.
      change (2 ^ 24) with 16777216 in Hp. lia. }
    lia. }
  set (k := 24 - d).
  assert (Hk : 0 <= k <= 1) by (unfold k; lia).
  assert (Hpk : 0 < 2 ^ k) by (apply pow2_pos; lia).
  set (mb := Z.to_pos (q * 2 ^ k)).
  assert (Hmb : Z.pos mb = q * 2 ^ k) by (unfold mb; rewrite Z2Pos.id; nia).
  set (eb := ea - 8 - k).
  assert (Hb : bounded F32.prec F32.emax mb eb = true).
  { apply bounded_unfold. rewrite Hmb, Zdigits2_mul_pow2 by lia. fold d.
    unfold SpecFloat.fexp, SpecFloat.emin, F32.prec, F32.emax, eb, k. lia. }
  (* the bound lies below a / 400 *)
  assert (H1 : qle (Z.pos mb) 1 eb (Z.pos ma) 13107200 (ea - -15)).
  { rewrite Hmb. unfold eb. apply qle_shift_l; [lia|].
    apply <- (qle_at (ea - 8)); [|lia..].
    rewrite Z.sub_diag, Z.pow_0_r.
    replace (ea - -15 - (ea - 8)) with 23 by lia. change (2 ^ 23) with 8388608. lia. }
  destruct (SFdiv_ge F32.prec F32.emax F32_prec_pos ma ea 13107200 (-15) mb eb Hb H1)
    as [_ Hge].
  rewrite Hs in Hge.
  apply (SFleb_pos_canon F32.prec F32.emax F32_prec_pos) in Hge; [|exact Hb|exact Hbs].
  rewrite Hmb in Hge. unfold eb in Hge. apply qle_shift_l in Hge; [|lia].
  (* a / 400.5 lies below the bound *)
  assert (H2 : qle (Z.pos ma) 13123584 (ea - -15) q 1 (ea - 8)).
  { apply <- (qle_at (ea - 8)); [|lia..].
    rewrite Z.sub_diag, Z.pow_0_r.
    replace (ea - -15 - (ea - 8)) with 23 by lia. change (2 ^ 23) with 8388608. lia. }
  pose proof (qle_trans (Z.pos ma) 13123584 (ea - -15) q 1 (ea - 8) (Z.pos ms) 1 es
                ltac:(lia) ltac:(lia) ltac:(lia) H2 Hge) as H3.
  apply qle_div_swap_le in H3.
  apply (SFdiv_le F32.prec F32.emax F32_prec_pos); [reflexivity|exact H3].
Qed.

(** The conversion to [uint] of a float32 below a bound. *)
Lemma float_to_uint_le x mb eb K :
  nonneg_canon F32.prec F32.emax x ->
  bounded F32.prec F32.emax mb eb = true ->
  SFleb x (S754_finite false mb eb) = true ->
  SFtrunc (S754_finite false mb eb) <= K < 2 ^ 63 ->
  0 <= float_to_uint x <= K.
Proof.
  intros [->|Hx] Hb Hle HK.
  - change (float_to_uint (S754_zero false)) with 0.
    pose proof (SFtrunc_nonneg mb eb). lia.
  - destruct x as [| | |[] m e]; try contradiction. cbn [pos_canon] in Hx.
    apply (SFleb_pos_canon F32.prec F32.emax F32_prec_pos) in Hle; [|exact Hx|exact Hb].
    apply SFtrunc_mono in Hle. pose proof (SFtrunc_nonneg m e) as H0.
    unfold float_to_uint, float_to_int.
    destruct (Z.leb_spec (- 2 ^ 63) (SFtrunc (S754_finite false m e))); [|lia].
    destruct (Z.ltb_spec (SFtrunc (S754_finite false m e)) (2 ^ 63)); [|lia].
    cbn [andb]. rewrite uint64_small by lia. lia.
Qed.

Lemma float_to_uint_exact n :
  0 <= n < 2 ^ 24 -> float_to_uint (F32.of_Z n) = n.
Proof.
  intros Hn. destruct (Z.eq_dec n 0) as [->|Hz]; [reflexivity|].
  assert (Hn' : 0 < n < 2 ^ F32.prec) by (change (2 ^ F32.prec) with (2 ^ 24); lia).
  unfold F32.of_Z.
  rewrite (of_Z_exact F32.prec F32.emax F32_prec_pos F32_prec_emax n Hn').
  pose proof (SFtrunc_exact F32.prec F32_prec_pos n Hn') as Ht.
  unfold float_to_uint, float_to_int.
  change (exact_float F32.prec n) with
    (S754_finite false (Z.to_pos (n * 2 ^ (F32.prec - Zdigits2 n))) (Zdigits2 n - F32.prec))
    in *.
  rewrite Ht.
  destruct (Z.leb_spec (- 2 ^ 63) n); [|lia].
  destruct (Z.ltb_spec n (2 ^ 63)); [|lia].
  cbn [andb]. apply uint64_small. lia.
Qed.

(** The two sizes, as [RescaleImageFast] converts them to [uint]. *)
Lemma GetScaledBounds_sizes img w h :
  Dx (Bounds img) = w -> Dy (Bounds img) = h -> 0 < w -> 0 < h ->
  0 <= float_to_uint (fst (GetScaledBounds img)) <= 400 /\
  0 <= float_to_uint (snd (GetScaledBounds img)) <= 400 /\
  (w <= 400 -> h <= 400 ->
     float_to_uint (fst (GetScaledBounds img)) = w /\
     float_to_uint (snd (GetScaledBounds img)) = h) /\
  (400 < w \/ 400 < h ->
     float_to_uint (fst (GetScaledBounds img)) = 400 \/
     float_to_uint (snd (GetScaledBounds img)) = 400).
Proof.
  intros Hdx Hdy Hw Hh.
  assert (Hw63 : 0 < w < 2 ^ 63).
  { split; [exact Hw|]. rewrite <- Hdx. unfold Dx. apply int_range. }
  assert (Hh63 : 0 < h < 2 ^ 63).
  { split; [exact Hh|]. rewrite <- Hdy. unfold Dy. apply int_range. }
  pose proof (scale_pos_canon w Hw63) as HsX.
  pose proof (scale_pos_canon h Hh63) as HsY.
  unfold GetScaledBounds. rewrite Hdx, Hdy.
  change ImageMaxWidth with 400. change ImageMaxHeight with 400.
  assert (H400 : float_to_uint (F32.of_Z 400) = 400) by reflexivity.
  assert (Hb4 : bounded F32.prec F32.emax 13107200 (-15) = true) by reflexivity.
  assert (Hb45 : bounded F32.prec F32.emax 13123584 (-15) = true) by reflexivity.
  destruct (Z.ltb_spec 400 w) as [Hbw|Hsw]; [|destruct (Z.ltb_spec 400 h) as [Hbh|Hsh]];
    cbn [orb].
  3: { (* both sizes fit *)
       cbn [fst snd]. rewrite !float_to_uint_exact by lia.
       split; [lia|]. split; [lia|]. split; [auto|]. lia. }
  all: destruct (F32_of_Z_int w Hw63) as (mw & ew & Ew & Hbmw & Hlw & Huw);
       destruct (F32_of_Z_int h Hh63) as (mh & eh & Eh & Hbmh & Hlh & Huh);
       set (scaleX := F32.div (F32.of_Z w) (F32.of_Z 400)) in *;
       set (scaleY := F32.div (F32.of_Z h) (F32.of_Z 400)) in *;
       assert (Hsizes :
         0 <= float_to_uint (fst (if SFltb scaleY scaleX
                                  then (F32.of_Z 400, F32.div (F32.of_Z h) scaleX)
                                  else (F32.div (F32.of_Z w) scaleY, F32.of_Z 400))) <= 400 /\
         0 <= float_to_uint (snd (if SFltb scaleY scaleX
                                  then (F32.of_Z 400, F32.div (F32.of_Z h) scaleX)
                                  else (F32.div (F32.of_Z w) scaleY, F32.of_Z 400))) <= 400 /\
         (float_to_uint (fst (if SFltb scaleY scaleX
                              then (F32.of_Z 400, F32.div (F32.of_Z h) scaleX)
                              else (F32.div (F32.of_Z w) scaleY, F32.of_Z 400))) = 400 \/
          float_to_uint (snd (if SFltb scaleY scaleX
                              then (F32.of_Z 400, F32.div (F32.of_Z h) scaleX)
                              else (F32.div (F32.of_Z w) scaleY, F32.of_Z 400))) = 400)).
  1, 3: destruct (SFltb scaleY scaleX) eqn:Hlt; cbn [fst snd]; rewrite H400.
  1, 3: (* the width is the bound *)
        split; [lia|]; split; [|left; reflexivity];
        destruct scaleX as [| | |sx mx ex] eqn:EX; try contradiction;
        destruct sx; [contradiction|]; cbn [pos_canon] in HsX;
        unfold scaleY in Hlt; rewrite Eh, F32_400 in *;
        destruct (SFdiv_cross F32.prec F32.emax F32_prec_pos mh eh 13107200 (-15) mx ex
                    Hbmh Hb4 HsX Hlt) as [Hnn Hle];
        apply (float_to_uint_le _ 13107200 (-15) 400 Hnn Hb4 Hle);
        split; [vm_compute; discriminate|lia].
  1, 2: (* the height is the bound *)
        split; [|split; [lia|right; reflexivity]];
        destruct (SFltb_trichotomy F32.prec F32.emax _ _ HsX HsY) as [Hxy|[Hyx|Heq]];
        [ destruct scaleY as [| | |sy my ey] eqn:EY; try contradiction;
          destruct sy; [contradiction|]; cbn [pos_canon] in HsY;
          unfold scaleX in Hxy; rewrite Ew, F32_400 in *;
          destruct (SFdiv_cross F32.prec F32.emax F32_prec_pos mw ew 13107200 (-15) my ey
                      Hbmw Hb4 HsY Hxy) as [Hnn Hle];
          apply (float_to_uint_le _ 13107200 (-15) 400 Hnn Hb4 Hle);
          split; [vm_compute; discriminate|lia]
        | congruence
        | rewrite <- Heq;
          destruct scaleX as [| | |sx mx ex] eqn:EX; try contradiction;
          destruct sx; [contradiction|]; cbn [pos_canon] in HsX;
          unfold scaleX in EX; rewrite Ew, F32_400 in *;
          destruct (own_scale_le mw ew mx ex Hbmw Hlw Huw EX HsX) as [Hnn Hle];
          apply (float_to_uint_le _ 13123584 (-15) 400 Hnn Hb45 Hle);
          split; [vm_compute; discriminate|lia] ].
  all: destruct Hsizes as (H1 & H2 & H3); split; [exact H1|]; split; [exact H2|];
       split; [intros; lia|intros _; exact H3].
Qed.

Lemma RescaleImageFast_call rs src algo :
  RescaleImageFast rs src algo =
  rs (float_to_uint (fst (GetScaledBounds src))) (float_to_uint (snd (GetScaledBounds src)))
     src
     match algo with
     | NearestNeighbor => resize_NearestNeighbor
     | _ => resize_Bilinear
     end.
Proof. unfold RescaleImageFast. destruct (GetScaledBounds src). reflexivity. Qed.

(** X14.  An image that fits the box of 400 by 400 is resampled to its own
    size: [RescaleImageFast] neither enlarges nor shrinks it, and it picks
    the nearest-neighbour interpolation for [NearestNeighbor] and the
    bilinear one otherwise. *)
Theorem X14_rescale_keeps_small rs src algo :
  0 < Dx (Bounds src) <= 400 -> 0 < Dy (Bounds src) <= 400 ->
  RescaleImageFast rs src algo =
  rs (Dx (Bounds src)) (Dy (Bounds src)) src
     match algo with
     | NearestNeighbor => resize_NearestNeighbor
     | _ => resize_Bilinear
     end.
Proof.
  intros Hw Hh. rewrite RescaleImageFast_call.
  destruct (GetScaledBounds_sizes src _ _ eq_refl eq_refl ltac:(lia) ltac:(lia))
    as (_ & _ & Hfit & _).
  destruct (Hfit ltac:(lia) ltac:(lia)) as [-> ->]. reflexivity.
Qed.

Lemma X14_witness :
  0 < Dx (Bounds img_grey_2x2) <= 400 /\ 0 < Dy (Bounds img_grey_2x2) <= 400 /\
  RescaleImageFast nearest_Resize img_grey_2x2 NearestNeighbor =
  nearest_Resize (Dx (Bounds img_grey_2x2)) (Dy (Bounds img_grey_2x2)) img_grey_2x2
     match NearestNeighbor with
     | NearestNeighbor => resize_NearestNeighbor
     | _ => resize_Bilinear
     end.
Proof.
  assert (H1 : 0 < Dx (Bounds img_grey_2x2) <= 400) by (vm_compute; split; [reflexivity|discriminate]).
  assert (H2 : 0 < Dy (Bounds img_grey_2x2) <= 400) by (vm_compute; split; [reflexivity|discriminate]).
  split; [exact H1|]. split; [exact H2|].
  apply (X14_rescale_keeps_small nearest_Resize img_grey_2x2 NearestNeighbor H1 H2).
Defined.

(** X15.  Whatever the size of the image, [RescaleImageFast] asks the
    resampler for at most 400 by 400 pixels, and for exactly 400 in one
    direction when the image does not fit the box; this includes the
    images whose two scale factors are equal, where [GetScaledBounds]
    itself can pass 400 by a rounding error. *)
Theorem X15_rescale_within_box rs src algo :
  0 < Dx (Bounds src) -> 0 < Dy (Bounds src) ->
  exists w' h',
    RescaleImageFast rs src algo =
      rs w' h' src
         match algo with
         | NearestNeighbor => resize_NearestNeighbor
         | _ => resize_Bilinear
         end /\
    w' = float_to_uint (fst (GetScaledBounds src)) /\
    h' = float_to_uint (snd (GetScaledBounds src)) /\
    0 <= w' <= 400 /\ 0 <= h' <= 400 /\
    (400 < Dx (Bounds src) \/ 400 < Dy (Bounds src) -> w' = 400 \/ h' = 400).
Proof.
  intros Hw Hh.
  destruct (GetScaledBounds_sizes src _ _ eq_refl eq_refl Hw Hh) as (H1 & H2 & _ & H3).
  eexists _, _. split; [apply RescaleImageFast_call|].
  split; [reflexivity|]. split; [reflexivity|]. auto.
Qed.

Lemma X15_witness :
  0 < Dx (Bounds (img_of_size 418 418)) /\ 0 < Dy (Bounds (img_of_size 418 418)) /\
  exists w' h',
    RescaleImageFast nearest_Resize (img_of_size 418 418) Bilinear =
      nearest_Resize w' h' (img_of_size 418 418)
         match Bilinear with
         | NearestNeighbor => resize_NearestNeighbor
         | _ => resize_Bilinear
         end /\
    w' = float_to_uint (fst (GetScaledBounds (img_of_size 418 418))) /\
    h' = float_to_uint (snd (GetScaledBounds (img_of_size 418 418))) /\
    0 <= w' <= 400 /\ 0 <= h' <= 400 /\
    (400 < Dx (Bounds (img_of_size 418 418)) \/ 400 < Dy (Bounds (img_of_size 418 418)) ->
     w' = 400 \/ h' = 400).
Proof.
  assert (H1 : 0 < Dx (Bounds (img_of_size 418 418))) by (vm_compute; reflexivity).
  assert (H2 : 0 < Dy (Bounds (img_of_size 418 418))) by (vm_compute; reflexivity).
  split; [exact H1|]. split; [exact H2|].
  apply (X15_rescale_within_box nearest_Resize (img_of_size 418 418) Bilinear H1 H2).
Defined.

(** ** The slider saturates *)

Lemma clamp_ratio_high ratio :
  SFleb (F64.of_Z 1) ratio = true -> clamp_ratio ratio = F64.of_Z 1.
Proof.
  destruct ratio as [s|s| |s m e]; try discriminate.
  - destruct s; [discriminate|reflexivity].
  - destruct s; [discriminate|]. intros H.
    unfold clamp_ratio. change (F64.of_Z 0) with (S754_zero false).
    change (builtin_max (S754_zero false) (S754_finite false m e))
      with (S754_finite false m e).
    change (F64.of_Z 1) with (S754_finite false 4503599627370496 (-52)) in *.
    destruct (SFltb _ (S754_finite false m e)) eqn:E; [reflexivity|].
    unfold SFltb, SFleb in *. rewrite SFcompare_pos in *.
    destruct (Z.compare_spec (-52) e) as [He| |]; try discriminate.
    destruct (Z.compare_spec (Z.pos 4503599627370496) (Z.pos m)) as [Hm| |];
      try discriminate.
    injection Hm as Hm. subst e m. reflexivity.
Qed.

Lemma clamp_ratio_low ratio :
  SFleb ratio (F64.of_Z 0) = true -> clamp_ratio ratio = F64.of_Z 0.
Proof.
  destruct ratio as [s|s| |s m e]; try discriminate.
  - destruct s; reflexivity.
  - destruct s; [reflexivity|discriminate].
  - destruct s; [reflexivity|discriminate].
Qed.

Lemma clamp_ratio_idem ratio : clamp_ratio (clamp_ratio ratio) = clamp_ratio ratio.
Proof.
  destruct ratio as [s|s| |s m e]; try (destruct s; reflexivity); try reflexivity.
  destruct s; [reflexivity|].
  assert (Hv : clamp_ratio (S754_finite false m e) =
               if SFltb (F64.of_Z 1) (S754_finite false m e)
               then F64.of_Z 1 else S754_finite false m e) by reflexivity.
  rewrite Hv. destruct (SFltb (F64.of_Z 1) (S754_finite false m e)) eqn:E; [reflexivity|].
  exact Hv.
Qed.

(** X16.  [CropImageFast] depends on the ratio through its clamped value
    only: a ratio of 1 or more, infinite included, gives the image of the
    ratio 1, a ratio of 0 or less gives the image of the ratio 0, and the
    clamped ratio gives the same image as the ratio. *)
Theorem X16_crop_saturates rs src ratio algo :
  CropImageFast rs src ratio algo = CropImageFast rs src (clamp_ratio ratio) algo /\
  CropImageFast rs src ratio algo =
  CropImageFast rs src
    (if SFleb (F64.of_Z 1) ratio then F64.of_Z 1
     else if SFleb ratio (F64.of_Z 0) then F64.of_Z 0 else ratio)
    algo.
Proof.
  assert (Hc : forall r1 r2, clamp_ratio r1 = clamp_ratio r2 ->
               CropImageFast rs src r1 algo = CropImageFast rs src r2 algo).
  { intros r1 r2 E. unfold CropImageFast, croppedImage, crop_endX. now rewrite E. }
  split.
  - apply Hc. symmetry. apply clamp_ratio_idem.
  - apply Hc.
    destruct (SFleb (F64.of_Z 1) ratio) eqn:E1; [now rewrite clamp_ratio_high|].
    destruct (SFleb ratio (F64.of_Z 0)) eqn:E0; [now rewrite clamp_ratio_low|].
    reflexivity.
Qed.

(** ** No enlargement *)

(** The scale factor of a size within the box is at most 1. *)
Lemma scale_small n :
  0 < n <= 400 ->
  SFleb (F32.div (F32.of_Z n) (F32.of_Z 400)) (S754_finite false 8388608 (-23)) = true.
Proof.
  intros Hn.
  assert (Hn' : 0 < n < 2 ^ F32.prec) by (change (2 ^ F32.prec) with 16777216; lia).
  assert (H400 : 0 < 400 < 2 ^ F32.prec) by (change (2 ^ F32.prec) with 16777216; lia).
  assert (H1 : 0 < 1 < 2 ^ F32.prec) by (change (2 ^ F32.prec) with 16777216; lia).
  destruct (SFdiv_of_Z_le F32.prec F32.emax F32_prec_pos F32_prec_emax n 400 1 Hn' H400 H1
              ltac:(lia)) as [_ H].
  exact H.
Qed.

(** The scale factor of a size beyond the box is more than 1: at least
    [1 + 2 ^ -9]. *)
Lemma scale_big k :
  400 < k < 2 ^ 63 ->
  SFleb (S754_finite false 8404992 (-23)) (F32.div (F32.of_Z k) (F32.of_Z 400)) = true.
Proof.
  intros Hk. unfold F32.div, F32.of_Z at 1. destruct k as [|p|p]; try lia.
  cbn [binary_normalize].
  assert (Hb401 : bounded F32.prec F32.emax 13139968 (-15) = true) by reflexivity.
  assert (Hl : qle (Z.pos 13139968) 1 (-15) (Z.pos p) 1 0).
  { apply <- (qle_at (-15)); [|lia..]. change (2 ^ (-15 - -15)) with 1.
    change (2 ^ (0 - -15)) with 32768. lia. }
  destruct (binary_round_ge F32.prec F32.emax F32_prec_pos p 0 _ _ Hb401 Hl) as [_ Hge].
  destruct (F32_of_Z_int (Z.pos p) ltac:(lia)) as (m & e & E & Hbm & Hlm & Hum).
  unfold F32.of_Z in E. cbn [binary_normalize] in E. rewrite E in *.
  apply (SFleb_pos_canon F32.prec F32.emax F32_prec_pos) in Hge; [|exact Hb401|exact Hbm].
  rewrite F32_400.
  assert (Hb : bounded F32.prec F32.emax 8404992 (-23) = true) by reflexivity.
  apply (SFdiv_ge F32.prec F32.emax F32_prec_pos); [exact Hb|].
  set (t := Z.min e (-23)).
  apply -> (qle_at t) in Hge; [|lia..].
  apply <- (qle_at t); [|lia..].
  replace (e - -15 - t) with (15 + (e - t)) by lia.
  replace (-15 - t) with (8 + (-23 - t)) in Hge by lia.
  rewrite Z.pow_add_r in * by lia.
  pose proof (pow2_pos (e - t) ltac:(lia)). pose proof (pow2_pos (-23 - t) ltac:(lia)).
  set (A := 2 ^ (e - t)) in *. set (B := 2 ^ (-23 - t)) in *.
  change (2 ^ 15) with 32768. change (2 ^ 8) with 256 in Hge. lia.
Qed.

(** A size within the box has the smaller scale factor. *)
Lemma scale_order n k :
  0 < n <= 400 -> 400 < k < 2 ^ 63 ->
  SFltb (F32.div (F32.of_Z n) (F32.of_Z 400)) (F32.div (F32.of_Z k) (F32.of_Z 400)) = true.
Proof.
  intros Hn Hk.
  pose proof (scale_pos_canon n ltac:(lia)) as Pn.
  pose proof (scale_pos_canon k ltac:(lia)) as Pk.
  pose proof (scale_small n Hn) as Sn. pose proof (scale_big k Hk) as Sk.
  apply (SFltb_pos_canon F32.prec F32.emax); [exact Pn|exact Pk|].
  destruct (SFleb (F32.div (F32.of_Z k) (F32.of_Z 400))
                  (F32.div (F32.of_Z n) (F32.of_Z 400))) eqn:E; [exfalso|reflexivity].
  destruct (F32.div (F32.of_Z n) (F32.of_Z 400)) as [| | |[] mn en]; try contradiction.
  destruct (F32.div (F32.of_Z k) (F32.of_Z 400)) as [| | |[] mk ek]; try contradiction.
  cbn [pos_canon] in Pn, Pk.
  apply (SFleb_pos_canon F32.prec F32.emax F32_prec_pos) in Sn; [|exact Pn|reflexivity].
  apply (SFleb_pos_canon F32.prec F32.emax F32_prec_pos) in Sk; [|reflexivity|exact Pk].
  apply (SFleb_pos_canon F32.prec F32.emax F32_prec_pos) in E; [|exact Pk|exact Pn].
  pose proof (qle_trans _ 1 _ _ 1 _ _ 1 _ ltac:(lia) ltac:(lia) ltac:(lia) Sk E) as H1.
  pose proof (qle_trans _ 1 _ _ 1 _ _ 1 _ ltac:(lia) ltac:(lia) ltac:(lia) H1 Sn) as H2.
  apply -> (qle_at (-23)) in H2; [|lia..]. vm_compute in H2. apply H2. reflexivity.
Qed.

(** A size within the box divided by a scale factor of 1 or more does not
    grow. *)
Lemma small_over_scale n ms es :
  0 < n <= 400 ->
  bounded F32.prec F32.emax ms es = true ->
  qle 8388608 1 (-23) (Z.pos ms) 1 es ->
  0 <= float_to_uint (F32.div (F32.of_Z n) (S754_finite false ms es)) <= n.
Proof.
  intros Hn Hb Hs.
  assert (Hn' : 0 < n < 2 ^ F32.prec) by (change (2 ^ F32.prec) with 16777216; lia).
  unfold F32.div, F32.of_Z.
  rewrite (of_Z_exact F32.prec F32.emax F32_prec_pos F32_prec_emax n Hn').
  pose proof (exact_float_bounded F32.prec F32.emax F32_prec_pos F32_prec_emax n Hn') as Hbn.
  pose proof (SFtrunc_exact F32.prec F32_prec_pos n Hn') as Ht.
  change (exact_float F32.prec n) with
    (S754_finite false (Z.to_pos (n * 2 ^ (F32.prec - Zdigits2 n))) (Zdigits2 n - F32.prec))
    in *.
  set (mn := Z.to_pos (n * 2 ^ (F32.prec - Zdigits2 n))) in *.
  set (en := Zdigits2 n - F32.prec) in *.
  assert (Hq : qle (Z.pos mn) (Z.pos ms) (en - es) (Z.pos mn) 1 en).
  { set (t := Z.min es (-23)).
    apply -> (qle_at t) in Hs; [|lia..].
    apply <- (qle_at (en - es + t)); [|lia..].
    replace (en - es - (en - es + t)) with (- t) by lia.
    replace (en - (en - es + t)) with (es - t) by lia.
    replace (-23 - t) with (-23 - t) in Hs by lia.
    assert (E : 8388608 * 2 ^ (-23 - t) = 2 ^ (- t)).
    { change 8388608 with (2 ^ 23). rewrite <- Z.pow_add_r by lia. f_equal. lia. }
    rewrite !Z.mul_1_r in Hs. rewrite E in Hs. rewrite Z.mul_1_r.
    rewrite <- Z.mul_assoc. apply Z.mul_le_mono_nonneg_l; [lia|exact Hs]. }
  destruct (SFdiv_le F32.prec F32.emax F32_prec_pos mn en ms es mn en Hbn Hq) as [Hnn Hle].
  apply (float_to_uint_le _ mn en n Hnn Hbn Hle). lia.
Qed.

(** The sizes asked for do not pass the sizes of the image. *)
Lemma GetScaledBounds_no_growth img w h :
  Dx (Bounds img) = w -> Dy (Bounds img) = h -> 0 < w -> 0 < h ->
  float_to_uint (fst (GetScaledBounds img)) <= w /\
  float_to_uint (snd (GetScaledBounds img)) <= h.
Proof.
  intros Hdx Hdy Hw Hh.
  assert (Hw63 : 0 < w < 2 ^ 63).
  { split; [exact Hw|]. rewrite <- Hdx. unfold Dx. apply int_range. }
  assert (Hh63 : 0 < h < 2 ^ 63).
  { split; [exact Hh|]. rewrite <- Hdy. unfold Dy. apply int_range. }
  destruct (GetScaledBounds_sizes img w h Hdx Hdy Hw Hh) as (H1 & H2 & Hfit & _).
  destruct (Z_le_gt_dec w 400) as [Hsw|Hbw]; destruct (Z_le_gt_dec h 400) as [Hsh|Hbh].
  - destruct (Hfit Hsw Hsh). lia.
  - (* the width fits, the height does not *)
    split; [|lia].
    pose proof (scale_order w h ltac:(lia) ltac:(lia)) as Ho.
    pose proof (scale_pos_canon w Hw63) as HsX.
    pose proof (scale_pos_canon h Hh63) as HsY.
    pose proof (scale_big h ltac:(lia)) as Sb.
    unfold GetScaledBounds. rewrite Hdx, Hdy.
    change ImageMaxWidth with 400. change ImageMaxHeight with 400.
    destruct (Z.ltb_spec 400 h); [|lia]. rewrite orb_true_r.
    rewrite (SFltb_asym F32.prec F32.emax _ _ HsX HsY Ho). cbn [fst].
    destruct (F32.div (F32.of_Z h) (F32.of_Z 400)) as [| | |[] my ey]; try contradiction.
    cbn [pos_canon] in HsY.
    apply (SFleb_pos_canon F32.prec F32.emax F32_prec_pos) in Sb; [|reflexivity|exact HsY].
    apply (small_over_scale w my ey ltac:(lia) HsY).
    apply (qle_trans 8388608 1 (-23) 8404992 1 (-23) (Z.pos my) 1 ey); try lia; [|exact Sb].
    apply <- (qle_at (-23)); [|lia..]. vm_compute. discriminate.
  - (* the height fits, the width does not *)
    split; [lia|].
    pose proof (scale_order h w ltac:(lia) ltac:(lia)) as Ho.
    pose proof (scale_pos_canon w Hw63) as HsX.
    pose proof (scale_big w ltac:(lia)) as Sb.
    unfold GetScaledBounds. rewrite Hdx, Hdy.
    change ImageMaxWidth with 400. change ImageMaxHeight with 400.
    destruct (Z.ltb_spec 400 w); [|lia]. cbn [orb].
    rewrite Ho. cbn [snd].
    destruct (F32.div (F32.of_Z w) (F32.of_Z 400)) as [| | |[] mx ex]; try contradiction.
    cbn [pos_canon] in HsX.
    apply (SFleb_pos_canon F32.prec F32.emax F32_prec_pos) in Sb; [|reflexivity|exact HsX].
    apply (small_over_scale h mx ex ltac:(lia) HsX).
    apply (qle_trans 8388608 1 (-23) 8404992 1 (-23) (Z.pos mx) 1 ex); try lia; [|exact Sb].
    apply <- (qle_at (-23)); [|lia..]. vm_compute. discriminate.
  - lia.
Qed.

(** X17.  [RescaleImageFast] never enlarges: the width and the height it
    asks the resampler for are at most the width and the height of the
    image. *)
Theorem X17_rescale_never_enlarges rs src algo :
  0 < Dx (Bounds src) -> 0 < Dy (Bounds src) ->
  exists w' h',
    RescaleImageFast rs src algo =
      rs w' h' src
         match algo with
         | NearestNeighbor => resize_NearestNeighbor
         | _ => resize_Bilinear
         end /\
    w' = float_to_uint (fst (GetScaledBounds src)) /\
    h' = float_to_uint (snd (GetScaledBounds src)) /\
    w' <= Dx (Bounds src) /\ h' <= Dy (Bounds src).
Proof.
  intros Hw Hh.
  destruct (GetScaledBounds_no_growth src _ _ eq_refl eq_refl Hw Hh) as (H1 & H2).
  eexists _, _. split; [apply RescaleImageFast_call|].
  split; [reflexivity|]. split; [reflexivity|]. auto.
Qed.

Lemma X17_witness :
  0 < Dx (Bounds (img_of_size 800 600)) /\ 0 < Dy (Bounds (img_of_size 800 600)) /\
  exists w' h',
    RescaleImageFast nearest_Resize (img_of_size 800 600) Bilinear =
      nearest_Resize w' h' (img_of_size 800 600)
         match Bilinear with
         | NearestNeighbor => resize_NearestNeighbor
         | _ => resize_Bilinear
         end /\
    w' = float_to_uint (fst (GetScaledBounds (img_of_size 800 600))) /\
    h' = float_to_uint (snd (GetScaledBounds (img_of_size 800 600))) /\
    w' <= Dx (Bounds (img_of_size 800 600)) /\ h' <= Dy (Bounds (img_of_size 800 600)).
Proof.
  assert (H1 : 0 < Dx (Bounds (img_of_size 800 600))) by (vm_compute; reflexivity).
  assert (H2 : 0 < Dy (Bounds (img_of_size 800 600))) by (vm_compute; reflexivity).
  split; [exact H1|]. split; [exact H2|].
  apply (X17_rescale_never_enlarges nearest_Resize (img_of_size 800 600) Bilinear H1 H2).
Defined.
